(** * Information-Directed Sampling for Beta-Bernoulli bandits

    A shallow embedding of [src/BernoulliMAB.py] (class [BetaBernoulliMAB]):
    the posterior grid ([fact_list], [init_approx], [update_approx]), the grid
    estimator ([IR_approx]), the sampling estimator ([computeIDS]) and the
    round loops ([IDS_approx], [IDS_sample], [VIDS_sample]).

    Numbers.  The program computes on numpy float64 values.  The embedding is
    written once over an interface of scalar operations ([NumOps]) and used at
    two instances: exact rationals [Qc] (arithmetic without rounding, for the
    algebraic statements), and [xnum], rationals extended with the IEEE
    infinities and NaN (for the statements about division by zero and
    [nan_to_num]).  Rounding is not modelled: array reductions ([sum],
    [cumsum], [mean]) are left folds of the scalar operations.  The frame and
    lock-in statements are proved for every instance of [NumOps].

    Arrays are lists; a 2-D array is a list of rows.  Elementwise operations
    are taken on arrays of one shape, as the program builds them (numpy
    raises, or broadcasts, on others).  A Python exception is the result
    [None].

    State.  The attributes [flag] and [optimal_arm] of the object are a
    record that every entry point receives and returns.  The arrays [Maap]
    and [p_a], which [computeIDS] mutates for its caller, live in a store and
    are passed by location.

    Collaborators.  [np.log], the reward draws, [np.random.beta], and
    [IDSAction] and [rd_argmax] of MAB.py are parameters: what is proved
    holds for each of their values.

    The file also embeds the regret constant of the constructor ([kl],
    [Cp]), the baseline policies ([TS], [BayesUCB], [KG],
    [Approx_KG_star]) and the reward distributions of [src/arms.py].  A
    third instance of [NumOps], the real numbers, serves the statements on
    [np.exp] and [np.log] as inverse functions. *)

From Stdlib Require Import ZArith QArith Qcanon Lia Bool Reals Psatz Qreals.
From stdpp Require Import base option list numbers.

(** ** Scalar operations *)

Class NumOps (num : Type) := {
  fconst : Qc -> num;            (* a literal, or an int converted to float *)
  fadd : num -> num -> num;
  fsub : num -> num -> num;
  fmul : num -> num -> num;
  fdiv : num -> num -> num;
  fpow : num -> Z -> num;        (* x ** n, n an integer *)
  fltb : num -> num -> bool;     (* x < y *)
  fleb : num -> num -> bool;     (* x <= y *)
  feqb : num -> num -> bool;     (* x == y *)
  fnan_to_num : num -> num;      (* np.nan_to_num on a scalar *)
  ftrunc : num -> Z              (* the cast to int64 when stored in an int array *)
}.

Declare Scope num_scope.
Delimit Scope num_scope with num.
Infix "+!" := fadd (at level 50, left associativity) : num_scope.
Infix "-!" := fsub (at level 50, left associativity) : num_scope.
Infix "*!" := fmul (at level 40, left associativity) : num_scope.
Infix "/!" := fdiv (at level 40, left associativity) : num_scope.
Infix "^!" := fpow (at level 30, right associativity) : num_scope.

Definition Z2Qc (z : Z) : Qc := Q2Qc (inject_Z z).

Section Scalars.
Context {num : Type} `{NumOps num}.

Definition fzero : num := fconst (Z2Qc 0).
Definition fone : num := fconst (Z2Qc 1).
Definition of_Z (z : Z) : num := fconst (Z2Qc z).
Definition of_nat (n : nat) : num := of_Z (Z.of_nat n).
(** [x > y] and [x >= y] as Python evaluates them. *)
Definition fgtb (x y : num) : bool := fltb y x.
Definition fgeb (x y : num) : bool := fleb y x.
(** The instance attribute [self.threshold = 0.99]. *)
Definition threshold : num := fconst (Q2Qc (99 # 100)).
(** The smoothing constant [1e-10] inside the logarithms of [computeIDS]. *)
Definition eps10 : num := fconst (Q2Qc (1 # 10000000000)).
End Scalars.

(** *** Exact rationals *)

Definition Qc_pow (q : Qc) (n : Z) : Qc :=
  match n with
  | Z0 => 1
  | Zpos p => Qcpower q (Pos.to_nat p)
  | Zneg p => / Qcpower q (Pos.to_nat p)
  end%Qc.

Definition Qc_ltb (a b : Qc) : bool :=
  match (a ?= b)%Qc with Lt => true | _ => false end.
Definition Qc_leb (a b : Qc) : bool :=
  match (a ?= b)%Qc with Gt => false | _ => true end.
Definition Qc_eqb (a b : Qc) : bool :=
  match (a ?= b)%Qc with Eq => true | _ => false end.
(** Truncation toward zero. *)
Definition Qc_trunc (q : Qc) : Z := Z.quot (Qnum q) (Zpos (Qden q)).

#[export] Instance Qc_ops : NumOps Qc := {|
  fconst q := q;
  fadd := Qcplus; fsub := Qcminus; fmul := Qcmult; fdiv := Qcdiv;
  fpow := Qc_pow;
  fltb := Qc_ltb; fleb := Qc_leb; feqb := Qc_eqb;
  fnan_to_num q := q;
  ftrunc := Qc_trunc
|}.

(** *** Rationals with infinities and NaN *)

Inductive xnum : Type :=
  | Fin (q : Qc)
  | PInf
  | NInf
  | NaN.

Definition xinf (negative : bool) : xnum := if negative then NInf else PInf.
Definition Qc_neg (q : Qc) : bool := Qc_ltb q 0%Qc.
Definition Qc_is0 (q : Qc) : bool := Qc_eqb q 0%Qc.

Definition xadd (a b : xnum) : xnum :=
  match a, b with
  | NaN, _ | _, NaN => NaN
  | Fin x, Fin y => Fin (x + y)%Qc
  | PInf, NInf | NInf, PInf => NaN
  | PInf, _ | _, PInf => PInf
  | NInf, _ | _, NInf => NInf
  end.

Definition xopp (a : xnum) : xnum :=
  match a with
  | Fin x => Fin (- x)%Qc
  | PInf => NInf
  | NInf => PInf
  | NaN => NaN
  end.

Definition xsub (a b : xnum) : xnum := xadd a (xopp b).

(** Sign of a value other than NaN: [true] when negative. *)
Definition xneg (a : xnum) : bool :=
  match a with
  | Fin x => Qc_neg x
  | NInf => true
  | _ => false
  end.

Definition xmul (a b : xnum) : xnum :=
  match a, b with
  | NaN, _ | _, NaN => NaN
  | Fin x, Fin y => Fin (x * y)%Qc
  | Fin x, i | i, Fin x =>
      if Qc_is0 x then NaN else xinf (xorb (Qc_neg x) (xneg i))
  | i, j => xinf (xorb (xneg i) (xneg j))
  end.

Definition xdiv (a b : xnum) : xnum :=
  match a, b with
  | NaN, _ | _, NaN => NaN
  | Fin x, Fin y =>
      if Qc_is0 y
      then (if Qc_is0 x then NaN else xinf (Qc_neg x))
      else Fin (x / y)%Qc
  | Fin _, _ => Fin 0%Qc
  | i, Fin y => xinf (xorb (xneg i) (Qc_neg y))
  | _, _ => NaN
  end.

Definition xpow (a : xnum) (n : Z) : xnum :=
  match n with
  | Z0 => Fin 1%Qc
  | Zpos p =>
      match a with
      | Fin x => Fin (Qcpower x (Pos.to_nat p))
      | PInf => PInf
      | NInf => xinf (Z.odd n)
      | NaN => NaN
      end
  | Zneg p =>
      match a with
      | Fin x => if Qc_is0 x then PInf else Fin (/ Qcpower x (Pos.to_nat p))%Qc
      | PInf | NInf => Fin 0%Qc
      | NaN => NaN
      end
  end.

Definition xltb (a b : xnum) : bool :=
  match a, b with
  | NaN, _ | _, NaN => false
  | Fin x, Fin y => Qc_ltb x y
  | _, NInf | PInf, _ => false
  | _, _ => true
  end.

Definition xeqb (a b : xnum) : bool :=
  match a, b with
  | Fin x, Fin y => Qc_eqb x y
  | PInf, PInf | NInf, NInf => true
  | _, _ => false
  end.

Definition xleb (a b : xnum) : bool := xltb a b || xeqb a b.

(** The largest finite float64, [(2^53 - 1) * 2^971]. *)
Definition float_max : Qc := Z2Qc ((2 ^ 53 - 1) * 2 ^ 971).

Definition xnan_to_num (a : xnum) : xnum :=
  match a with
  | NaN => Fin 0%Qc
  | PInf => Fin float_max
  | NInf => Fin (- float_max)%Qc
  | Fin x => Fin x
  end.

(** Casting an infinity or NaN to int64 gives the smallest int64. *)
Definition xtrunc (a : xnum) : Z :=
  match a with
  | Fin x => Qc_trunc x
  | _ => (- 2 ^ 63)%Z
  end.

#[export] Instance xnum_ops : NumOps xnum := {|
  fconst q := Fin q;
  fadd := xadd; fsub := xsub; fmul := xmul; fdiv := xdiv;
  fpow := xpow;
  fltb := xltb; fleb := xleb; feqb := xeqb;
  fnan_to_num := xnan_to_num;
  ftrunc := xtrunc
|}.

(** ** numpy array operations *)

Section Arrays.
Context {num : Type} `{NumOps num}.
Local Open Scope num_scope.

Local Abbreviation vec := (list num).
Local Abbreviation mat := (list (list num)).

(** Elementwise operations on arrays of one shape, and with a scalar. *)
Definition vadd (a b : vec) : vec := zip_with fadd a b.
Definition vsub (a b : vec) : vec := zip_with fsub a b.
Definition vmul (a b : vec) : vec := zip_with fmul a b.
Definition vdiv (a b : vec) : vec := zip_with fdiv a b.
Definition vscale (c : num) (a : vec) : vec := map (fun x => c *! x) a.
Definition vmuls (a : vec) (c : num) : vec := map (fun x => x *! c) a.
Definition vdivs (a : vec) (c : num) : vec := map (fun x => x /! c) a.
Definition vpow (a : vec) (n : Z) : vec := map (fun x => x ^! n) a.
(** [1. - X] *)
Definition vcompl (a : vec) : vec := map (fun x => fone -! x) a.

(** [a.sum()] *)
Definition np_sum (a : vec) : num := foldl fadd fzero a.
(** [np.inner(a, b)] *)
Definition np_inner (a b : vec) : num := np_sum (vmul a b).
(** [np.mean(a)]: the sum over the count; of an empty array, [0.0/0]. *)
Definition np_mean (a : vec) : num := np_sum a /! of_nat (length a).

(** [a.cumsum()] *)
Fixpoint cumsum_from (acc : num) (a : vec) : vec :=
  match a with
  | [] => []
  | x :: r => (acc +! x) :: cumsum_from (acc +! x) r
  end.
Definition np_cumsum (a : vec) : vec :=
  match a with
  | [] => []
  | x :: r => x :: cumsum_from x r
  end.

(** [np.max(a)]; [ValueError] on an empty array.  (On an array that holds
    no NaN; numpy returns NaN when there is one.) *)
Definition np_max (a : vec) : option num :=
  match a with
  | [] => None
  | x :: r => Some (foldl (fun m y => if fltb m y then y else m) x r)
  end.

(** [np.argmax(a)]: the first index of a maximum (on an array that holds
    no NaN). *)
Fixpoint argmax_from (best : num) (ibest i : nat) (a : vec) : nat :=
  match a with
  | [] => ibest
  | y :: r =>
      if fltb best y then argmax_from y i (S i) r
      else argmax_from best ibest (S i) r
  end.
Definition np_argmax (a : vec) : option nat :=
  match a with
  | [] => None
  | x :: r => Some (argmax_from x 0 1 r)
  end.

(** [np.linspace(start, stop, n)] for [n >= 1]: [start + i*step] with
    [step = (stop - start)/(n - 1)], the last sample being [stop]. *)
Definition np_linspace (start stop : num) (n : nat) : vec :=
  match n with
  | 0 => []
  | 1 => [start]
  | S m =>
      let step := (stop -! start) /! of_nat m in
      map (fun i => start +! of_nat i *! step) (seq 0 m) ++ [stop]
  end.

(** [np.zeros(n)], [np.ones(n)] *)
Definition np_zeros (n : nat) : vec := replicate n fzero.
Definition np_ones (n : nat) : vec := replicate n fone.
End Arrays.

(** Python indexing of a sequence by an integer: negative indices count from
    the end, anything else out of range raises [IndexError]. *)
Definition py_index {A} (l : list A) (i : Z) : option A :=
  if (0 <=? i)%Z then l !! Z.to_nat i
  else if (- Z.of_nat (length l) <=? i)%Z then l !! Z.to_nat (Z.of_nat (length l) + i)
  else None.

Fixpoint Z_list_max (l : list Z) : option Z :=
  match l with
  | [] => None
  | x :: r => Some (match Z_list_max r with Some m => Z.max x m | None => x end)
  end.

(** ** The posterior grid *)

(** The arrays [X, f, F, G, B] that [init_approx] returns and
    [update_approx] mutates. *)
Record grid {num : Type} := Grid {
  gX : list num;
  gf : list (list num);
  gF : list (list num);
  gG : list (list num);
  gB : list num
}.
Arguments grid : clear implicits.
Arguments Grid {num} _ _ _ _ _.

Section PosteriorGrid.
Context {num : Type} `{NumOps num}.
Local Open Scope num_scope.
Local Abbreviation vec := (list num).
Local Abbreviation mat := (list (list num)).

(** [self.nb_arms] *)
Variable nb_arms : nat.

(** [fact_list(count)] for [count >= 0]: [l[i] = i!] for [i <= count].  (In
    float64 the products are [inf] from [171!] on; see
    [largest_factorial].) *)
Definition fact_list (count : Z) : vec :=
  let n := Z.to_nat count in
  foldl (fun l i => <[S i := of_nat (S i) *! nth i l fzero]> l)
        (np_ones (S n)) (seq 0 n).

(** One entry of [B = fact[beta_1-1]*fact[beta_2-1]/fact[beta_1+beta_2-1]]. *)
Definition beta_const (fact : vec) (ab : Z * Z) : option num :=
  x ← py_index fact (ab.1 - 1);
  y ← py_index fact (ab.2 - 1);
  z ← py_index fact (ab.1 + ab.2 - 1);
  Some (x *! y /! z).

(** One row of [f]: [X**(beta_1[i]-1)*(1.-X)**(beta_2[i]-1)/B[i]]. *)
Definition density_row (X : vec) (beta_1 beta_2 : list Z) (B : vec) (i : nat)
  : option vec :=
  a ← beta_1 !! i;
  b ← beta_2 !! i;
  Bi ← B !! i;
  Some (vdivs (vmul (vpow X (a - 1)) (vpow (vcompl X) (b - 1))) Bi).

Definition init_approx (N : nat) (beta_1 beta_2 : list Z) : option (grid num) :=
  count ← Z_list_max (zip_with Z.add beta_1 beta_2);
  let fact := fact_list count in
  B ← mapM (beta_const fact) (zip beta_1 beta_2);
  guard (N ≠ 0);;
  let X := np_linspace (fone /! of_nat N) fone N in
  f ← mapM (density_row X beta_1 beta_2 B) (seq 0 nb_arms);
  let F := map (fun r => np_cumsum (vdivs r (of_nat N))) f in
  let G := map (fun r => np_cumsum (vdivs (vmul r X) (of_nat N))) f in
  Some (Grid X f F G B).

(** The boundary term [X**beta[0]*(1.-X)**beta[1]] of [update_approx]. *)
Definition boundary (X : vec) (beta : Z * Z) : vec :=
  vmul (vpow X beta.1) (vpow (vcompl X) beta.2).

(** [update_approx(arm, y, beta, X, f, F, G, B)]; [beta] holds the
    parameters of the arm before the update. *)
Definition update_approx (arm : nat) (y : num) (beta : Z * Z) (g : grid num)
  : option (grid num) :=
  let X := gX g in
  let bsum := of_Z (beta.1 + beta.2) in
  let adjust := of_Z beta.1 *! y +! of_Z beta.2 *! (fone -! y) in
  let sign_F_update := if feqb y fzero then fone else of_Z (-1) in
  f_arm ← gf g !! arm;
  let f' := <[arm :=
    vmul (vdivs (vmuls (vadd (vmuls X y) (vmuls (vcompl X) (fone -! y))) bsum)
                adjust) f_arm]> (gf g) in
  F_arm ← gF g !! arm;
  B_arm ← gB g !! arm;
  _ ← gG g !! arm;
  let G' := <[arm :=
    vscale (of_Z beta.1 /! bsum)
      (vsub F_arm
         (vdivs (vdivs (vmul (vpow X beta.1) (vpow (vcompl X) beta.2))
                       (of_Z beta.1)) B_arm))]> (gG g) in
  let F' := <[arm :=
    vadd F_arm
      (vdivs (vdivs (vmul (vscale sign_F_update (vpow X beta.1))
                          (vpow (vcompl X) beta.2)) adjust) B_arm)]> (gF g) in
  let B' := <[arm := B_arm *! adjust /! bsum]> (gB g) in
  Some (Grid X f' F' G' B').
End PosteriorGrid.

(** ** The grid estimator *)

Section GridEstimator.
Context {num : Type} `{NumOps num}.
Local Open Scope num_scope.
Local Abbreviation vec := (list num).
Local Abbreviation mat := (list (list num)).

Variable nb_arms : nat.
(** [np.log] on a scalar. *)
Variable np_log : num -> num.

(** Row [i] of a 2-D array. *)
Definition row (m : mat) (i : nat) : vec := nth i m [].
(** [m[i, j] = x] *)
Definition set2 (m : mat) (i j : nat) (x : num) : mat := alter (insert j x) i m.
(** [np.diag(m)] *)
Definition np_diag (m : mat) : vec := imap (fun i r => nth i r fzero) m.

(** [prod_F1[a, ap]] when the first loop nest of [IR_approx] ends. *)
Definition prod_F1 (N : nat) (f F : mat) (a ap : nat) : vec :=
  let p :=
    foldl (fun acc app =>
             if bool_decide (a ≠ app ∧ app ≠ ap) then vmul acc (row F app) else acc)
          (np_ones N) (seq 0 nb_arms) in
  vmul p (vdivs (row f a) (of_nat N)).

(** The body of the second loop nest, for one [a]. *)
Definition IR_step (N : nat) (X : vec) (f F G : mat) (st : vec * mat) (a : nat)
  : vec * mat :=
  let p_star := <[a := np_sum (prod_F1 N f F a a)]> st.1 in
  let pa := nth a p_star fzero in
  let maap :=
    foldl (fun maap ap =>
             if bool_decide (a ≠ ap)
             then set2 maap ap a (np_sum (vmul (prod_F1 N f F a ap) (row G ap)) /! pa)
             else set2 maap a a (np_sum (vmul (prod_F1 N f F a a) X) /! pa))
          st.2 (seq 0 nb_arms) in
  (p_star, maap).

(** One entry of [sum_log], at column [ap] of row [arm] of [maap]. *)
Definition sum_log_term (m : num) (b : Z * Z) : num :=
  m *! np_log (m *! of_Z (b.1 + b.2) /! of_Z b.1)
  +! (fone -! m) *! np_log ((fone -! m) *! of_Z (b.1 + b.2) /! of_Z b.2).

Definition sum_log (maap_arm : vec) (b1 b2 : list Z) : vec :=
  zip_with sum_log_term maap_arm (zip b1 b2).

(** [IR_approx(N, b1, b2, X, f, F, G)], returning [(delta, g, p_star, maap)].
    The arrays have the shapes [init_approx] gives them ([nb_arms] rows of
    [N] entries; [b1], [b2] of [nb_arms] entries): numpy raises otherwise. *)
Definition IR_approx (N : nat) (b1 b2 : list Z) (X : vec) (f F G : mat)
  : vec * vec * vec * mat :=
  let '(p_star, maap) :=
    foldl (IR_step N X f F G)
          (np_zeros nb_arms, replicate nb_arms (np_zeros nb_arms))
          (seq 0 nb_arms) in
  let rho_star := np_inner (np_diag maap) p_star in
  let delta :=
    zip_with (fun x y => rho_star -! of_Z x /! of_Z (x + y)) b1 b2 in
  let g :=
    foldl (fun g arm => <[arm := np_inner p_star (sum_log (row maap arm) b1 b2)]> g)
          (np_zeros nb_arms) (seq 0 nb_arms) in
  (delta, g, p_star, maap).
End GridEstimator.

(** ** The object and its collaborators *)

(** The attributes of a [BetaBernoulliMAB] object that its methods write;
    [self.threshold] is the constant [threshold]. *)
Record self_state := Self {
  flag : bool;
  optimal_arm : option nat
}.

(** [BetaBernoulliMAB.__init__] *)
Definition init_self : self_state := Self false None.

(** The arrays [Sa, Na, reward, arm_sequence] of a run. *)
Record lists {num : Type} := Lists {
  Sa : list num;
  Na : list num;
  reward : list num;
  arm_sequence : list nat
}.
Arguments lists : clear implicits.
Arguments Lists {num} _ _ _ _.

Section Collaborators.
Context {num : Type} `{NumOps num}.
Local Open Scope num_scope.
Local Abbreviation vec := (list num).

Variable nb_arms : nat.
(** [self.MAB[arm].sample()] at round [t]: the draw [rand(1) < p] of
    [ArmBernoulli.sample], the random stream being a parameter. *)
Variable sample : nat -> nat -> bool.

(** Modelled from the spec: [init_lists] of the generic bandit scaffolding
    (MAB.py), which returns zero-initialised arrays. *)
Definition init_lists (T : nat) : lists num :=
  Lists (np_zeros nb_arms) (np_zeros nb_arms) (np_zeros T) (replicate T 0).

(** Modelled from the spec: [update_lists] of the generic bandit scaffolding
    (MAB.py), which records the pull of [arm] at round [t], draws and stores
    its reward, and adds to [Na[arm]] and [Sa[arm]]. *)
Definition update_lists (t arm : nat) (l : lists num) : option (lists num) :=
  guard (arm < nb_arms);;
  guard (t < length (arm_sequence l));;
  guard (t < length (reward l));;
  let new_reward := if sample t arm then fone else fzero in
  Some (Lists (alter (fun s => s +! new_reward) arm (Sa l))
              (alter (fun n => n +! fone) arm (Na l))
              (<[t := new_reward]> (reward l))
              (<[t := arm]> (arm_sequence l))).
End Collaborators.

(** A [for t in range(n)] loop whose body may raise: the state after the
    rounds [0 .. n-1]. *)
Fixpoint run_rounds {St : Type} (round : nat -> St -> option St) (n : nat) (st : St)
  : option St :=
  match n with
  | 0 => Some st
  | S m => run_rounds round m st ≫= round m
  end.

(** ** The grid variant: [IDS_approx] *)

(** The local variables of [IDS_approx]; [ir_calls] is a ghost counter of
    the calls to [IR_approx]. *)
Record approx_locals {num : Type} := ApproxLocals {
  beta1 : list Z;
  beta2 : list Z;
  posterior : grid num;
  p_star : list num;
  history : lists num;
  ir_calls : nat
}.
Arguments approx_locals : clear implicits.
Arguments ApproxLocals {num} _ _ _ _ _ _.

Section GridVariant.
Context {num : Type} `{NumOps num}.
Local Open Scope num_scope.
Local Abbreviation vec := (list num).

Variable nb_arms : nat.
Variable np_log : num -> num.
Variable sample : nat -> nat -> bool.
(** [self.IDSAction(delta, g)] at round [t] (MAB.py): the minimiser of the
    information ratio, its random tie-breaking being a parameter. *)
Variable IDSAction : nat -> vec -> vec -> nat.

(** The arm chosen at the head of a round of [IDS_approx]. *)
Definition select_approx (N_steps t : nat) (s : self_state) (l : approx_locals num)
  : option (self_state * option nat * vec * nat) :=
  if negb (flag s) then
    m ← np_max (p_star l);
    if fgtb m threshold then
      a ← np_argmax (p_star l);
      Some (Self true (Some a), Some a, p_star l, ir_calls l)
    else
      let '(delta, g, p_star', _) :=
        IR_approx nb_arms np_log N_steps (beta1 l) (beta2 l)
                  (gX (posterior l)) (gf (posterior l)) (gF (posterior l))
                  (gG (posterior l)) in
      Some (s, Some (IDSAction t delta g), p_star', S (ir_calls l))
  else Some (s, optimal_arm s, p_star l, ir_calls l).

(** The body of the loop of [IDS_approx] ([display_results] false). *)
Definition round_approx (N_steps t : nat) (st : self_state * approx_locals num)
  : option (self_state * approx_locals num) :=
  let '(s, l) := st in
  '(s', choice, p_star', calls') ← select_approx N_steps t s l;
  arm ← choice;
  history' ← update_lists nb_arms sample t arm (history l);
  b1 ← beta1 l !! arm;
  b2 ← beta2 l !! arm;
  y ← reward history' !! t;
  let beta1' := <[arm := ftrunc (of_Z b1 +! y)]> (beta1 l) in
  let beta2' := <[arm := ftrunc (of_Z b2 +! (fone -! y))]> (beta2 l) in
  posterior' ← update_approx arm y (b1, b2) (posterior l);
  Some (s', ApproxLocals beta1' beta2' posterior' p_star' history' calls').

(** The state in which the loop of [IDS_approx] starts. *)
Definition start_approx (T N_steps : nat) (b1 b2 : list Z) (s : self_state)
  : option (self_state * approx_locals num) :=
  g ← init_approx nb_arms N_steps b1 b2;
  Some (s, ApproxLocals b1 b2 g (np_zeros nb_arms) (init_lists nb_arms T) 0).

(** [IDS_approx(T, N_steps, beta1, beta2)] on the object [s]: the object
    and the locals when the first [n] rounds are done. *)
Definition IDS_approx_upto (n T N_steps : nat) (b1 b2 : list Z) (s : self_state)
  : option (self_state * approx_locals num) :=
  start_approx T N_steps b1 b2 s ≫= run_rounds (round_approx N_steps) n.

Definition IDS_approx (T N_steps : nat) (b1 b2 : list Z) (s : self_state)
  : option (self_state * approx_locals num) :=
  IDS_approx_upto T T N_steps b1 b2 s.
End GridVariant.

(** ** The sampling variant: [computeIDS], [IDS_sample], [VIDS_sample] *)

(** [computeIDS] writes into the arrays [Maap] and [p_a] its caller passes.
    Those arrays live in a store; a variable that names one holds its
    location. *)
Inductive ndarray {num : Type} :=
  | Arr1 (v : list num)
  | Arr2 (m : list (list num)).
Arguments ndarray : clear implicits.

Definition loc := nat.

(** What [computeIDS] did besides returning: [Locked] when it took the
    threshold branch, [Ratio delta g] when it computed the regret and the
    information gain (ghost). *)
Inductive estimate {num : Type} :=
  | Locked
  | Ratio (delta g : list num).
Arguments estimate : clear implicits.

Section Store.
Context {num : Type}.
Local Abbreviation heap := (list (ndarray num)).

Definition heap_alloc (h : heap) (a : ndarray num) : loc * heap :=
  (length h, h ++ [a]).
Definition heap_get1 (h : heap) (l : loc) : option (list num) :=
  match h !! l with Some (Arr1 v) => Some v | _ => None end.
Definition heap_get2 (h : heap) (l : loc) : option (list (list num)) :=
  match h !! l with Some (Arr2 m) => Some m | _ => None end.
(** [A[i] = x] on the 1-D array at [l]; [IndexError] out of range. *)
Definition heap_set1 (h : heap) (l : loc) (i : nat) (x : num) : option heap :=
  v ← heap_get1 h l;
  _ ← v !! i;
  Some (<[l := Arr1 (<[i := x]> v)]> h).
(** [A[i, j] = x] on the 2-D array at [l]; [IndexError] out of range. *)
Definition heap_set2 (h : heap) (l : loc) (i j : nat) (x : num) : option heap :=
  m ← heap_get2 h l;
  r ← m !! i;
  _ ← r !! j;
  Some (<[l := Arr2 (<[i := <[j := x]> r]> m)]> h).
End Store.

(** A loop over a list whose body may raise. *)
Definition foldl_opt {S A : Type} (f : S -> A -> option S) (st : S) (l : list A)
  : option S :=
  foldl (fun acc x => acc ≫= fun s => f s x) (Some st) l.

Section SamplingEstimator.
Context {num : Type} `{NumOps num}.
Local Open Scope num_scope.
Local Abbreviation vec := (list num).
Local Abbreviation mat := (list (list num)).
Local Abbreviation heap := (list (ndarray num)).

Variable nb_arms : nat.
Variable np_log : num -> num.
Variable IDSAction : nat -> vec -> vec -> nat.
(** [rd_argmax(values)] at round [t] (MAB.py): an argmax, its random
    tie-breaking being a parameter. *)
Variable rd_argmax : nat -> vec -> nat.

(** Column [j] of a 2-D array. *)
Definition column (m : mat) (j : nat) : vec := map (fun r => nth j r fzero) m.
(** [np.argmax(thetas, axis=0)]; [ValueError] when [thetas] has no row. *)
Definition argmax_axis0 (thetas : mat) : option (list nat) :=
  match thetas with
  | [] => None
  | r :: _ => mapM (fun j => np_argmax (column thetas j)) (seq 0 (length r))
  end.
(** [np.where(theta_hat == a)]: the draws at which arm [a] is the largest. *)
Definition where_eq (theta_hat : list nat) (a : nat) : list nat :=
  filter (fun j => theta_hat !! j = Some a) (seq 0 (length theta_hat)).
(** [thetas[ap, idx]] *)
Definition take_draws (r : vec) (idx : list nat) : vec :=
  map (fun j => nth j r fzero) idx.

(** The body of the inner loop of [computeIDS], for one [ap]. *)
Definition computeIDS_inner (Maap p_a : loc) (thetas : mat) (theta_hat : list nat)
    (M a : nat) (h : heap) (ap : nat) : option heap :=
  r ← thetas !! ap;
  let t := take_draws r (where_eq theta_hat a) in
  h1 ← heap_set2 h Maap ap a (fnan_to_num (np_mean t));
  if bool_decide (ap = a) then
    guard (M ≠ 0);;
    heap_set1 h1 p_a a (of_nat (length t) /! of_nat M)
  else Some h1.

(** The body of the outer loop of [computeIDS], for one [a]. *)
Definition computeIDS_outer (Maap p_a : loc) (thetas : mat) (theta_hat : list nat)
    (M : nat) (st : vec * heap) (a : nat) : option (vec * heap) :=
  r ← thetas !! a;
  let mu := <[a := np_mean r]> st.1 in
  h' ← foldl_opt (computeIDS_inner Maap p_a thetas theta_hat M a) st.2 (seq 0 nb_arms);
  Some (mu, h').

(** One entry of the sum that makes [v[a]] in the variance mode. *)
Definition v_term (p_a : vec) (Maap : mat) (mu : vec) (a ap : nat) : num :=
  nth ap p_a fzero *! (nth ap (nth a Maap []) fzero -! nth a mu fzero) ^! 2.

(** One entry of the sum that makes [g[a]] in the KL mode. *)
Definition g_term (p_a : vec) (Maap : mat) (mu : vec) (a ap : nat) : num :=
  let m := nth ap (nth a Maap []) fzero in
  nth ap p_a fzero *!
    (m *! np_log (m /! nth a mu fzero +! eps10)
     +! (fone -! m) *! np_log ((fone -! m) /! (fone -! nth a mu fzero) +! eps10)).

(** [computeIDS(Maap, p_a, thetas, M, VIDS)] at round [t], on the object
    [s] and the store [h]: the arm and the array it returns, the store and
    the object it leaves, and what it computed. *)
Definition computeIDS (t : nat) (s : self_state) (h : heap) (Maap p_a : loc)
    (thetas : mat) (M : nat) (VIDS : bool)
  : option (nat * loc * heap * self_state * estimate num) :=
  let mu0 := map np_mean thetas in
  theta_hat ← argmax_axis0 thetas;
  '(mu, h') ← foldl_opt (computeIDS_outer Maap p_a thetas theta_hat M) (mu0, h)
                        (seq 0 nb_arms);
  pa ← heap_get1 h' p_a;
  Mp ← heap_get2 h' Maap;
  m ← np_max pa;
  if fgeb m threshold then
    arm ← np_argmax pa;
    Some (arm, p_a, h', Self (flag s) (Some arm), Locked)
  else
    let rho_star :=
      np_sum (map (fun a => nth a pa fzero *! nth a (nth a Mp []) fzero)
                  (seq 0 nb_arms)) in
    let delta := map (fun m => rho_star -! m) mu in
    if VIDS then
      let v := map (fun a => np_sum (map (v_term pa Mp mu a) (seq 0 nb_arms)))
                   (seq 0 nb_arms) in
      guard (length delta = length v);;
      let arm := rd_argmax t (vdiv (map (fun d => fzero -! d ^! 2) delta) v) in
      Some (arm, p_a, h', s, Ratio delta v)
    else
      let g := map (fun a => np_sum (map (g_term pa Mp mu a) (seq 0 nb_arms)))
                   (seq 0 nb_arms) in
      let arm := IDSAction t delta g in
      Some (arm, p_a, h', s, Ratio delta g).
End SamplingEstimator.

(** The local variables of [IDS_sample] and [VIDS_sample]: [Maap] and [p_a]
    name arrays of the store; [ids_calls] is a ghost counter of the calls to
    [computeIDS]. *)
Record sample_locals {num : Type} := SampleLocals {
  sbeta1 : list num;
  sbeta2 : list num;
  Maap : loc;
  p_a : loc;
  thetas : list (list num);
  store : list (ndarray num);
  shistory : lists num;
  ids_calls : nat
}.
Arguments sample_locals : clear implicits.
Arguments SampleLocals {num} _ _ _ _ _ _ _ _.

Section SamplingVariant.
Context {num : Type} `{NumOps num}.
Local Open Scope num_scope.
Local Abbreviation vec := (list num).
Local Abbreviation heap := (list (ndarray num)).

Variable nb_arms : nat.
Variable np_log : num -> num.
Variable sample : nat -> nat -> bool.
Variable IDSAction : nat -> vec -> vec -> nat.
Variable rd_argmax : nat -> vec -> nat.
(** [np.random.beta(a, b, M)] for [arm]: call [0] fills the bank before
    the loop, call [t + 1] renews it at round [t]; the random stream is a
    parameter. *)
Variable np_random_beta : nat -> nat -> num -> num -> nat -> vec.

(** The arm chosen at the head of a round of [IDS_sample]/[VIDS_sample]. *)
Definition select_sample (M : nat) (VIDS : bool) (t : nat) (s : self_state)
    (l : sample_locals num)
  : option (self_state * option nat * loc * heap * nat) :=
  if negb (flag s) then
    pa ← heap_get1 (store l) (p_a l);
    m ← np_max pa;
    if fgeb m threshold then
      Some (Self true (optimal_arm s), optimal_arm s, p_a l, store l, ids_calls l)
    else
      '(arm, p_a', h', s', _) ←
        computeIDS nb_arms np_log IDSAction rd_argmax t s (store l) (Maap l) (p_a l)
                   (thetas l) M VIDS;
      Some (s', Some arm, p_a', h', S (ids_calls l))
  else Some (s, optimal_arm s, p_a l, store l, ids_calls l).

(** The body of the loop of [IDS_sample]/[VIDS_sample]. *)
Definition round_sample (M : nat) (VIDS : bool) (t : nat)
    (st : self_state * sample_locals num)
  : option (self_state * sample_locals num) :=
  let '(s, l) := st in
  '(s', choice, p_a', h', calls') ← select_sample M VIDS t s l;
  arm ← choice;
  history' ← update_lists nb_arms sample t arm (shistory l);
  y ← reward history' !! t;
  b1 ← sbeta1 l !! arm;
  b2 ← sbeta2 l !! arm;
  let beta1' := <[arm := b1 +! y]> (sbeta1 l) in
  let beta2' := <[arm := b2 +! (fone -! y)]> (sbeta2 l) in
  _ ← thetas l !! arm;
  let thetas' :=
    <[arm := np_random_beta (S t) arm (b1 +! y) (b2 +! (fone -! y)) M]> (thetas l) in
  Some (s', SampleLocals beta1' beta2' (Maap l) p_a' thetas' h' history' calls').

(** The state in which the loop starts: the arrays [Maap] and [p_a] are
    new arrays of zeros. *)
Definition start_sample (T M : nat) (s : self_state)
  : self_state * sample_locals num :=
  let '(lM, h1) := heap_alloc [] (Arr2 (replicate nb_arms (np_zeros nb_arms))) in
  let '(lp, h2) := heap_alloc h1 (Arr1 (np_zeros nb_arms)) in
  let bank := map (fun arm => np_random_beta 0 arm fone fone M) (seq 0 nb_arms) in
  (s, SampleLocals (np_ones nb_arms) (np_ones nb_arms) lM lp bank h2
                   (init_lists nb_arms T) 0).

Definition sample_upto (VIDS : bool) (n T M : nat) (s : self_state)
  : option (self_state * sample_locals num) :=
  run_rounds (round_sample M VIDS) n (start_sample T M s).

(** [IDS_sample(T, M)] *)
Definition IDS_sample (T M : nat) (s : self_state)
  : option (self_state * sample_locals num) :=
  sample_upto false T T M s.

(** [VIDS_sample(T, M, VIDS)] *)
Definition VIDS_sample (T M : nat) (VIDS : bool) (s : self_state)
  : option (self_state * sample_locals num) :=
  sample_upto VIDS T T M s.
End SamplingVariant.

(** ** Reading the model *)

(** What a round does on a locked object: it leaves the object and the
    ghost counter as they are and pulls the stored arm.  [obj], [calls] and
    [pulls] read the object, the counter and the pulled arms off a loop
    state. *)
Definition locked_round_spec {St : Type} (round : nat -> St -> option St)
    (obj : St -> self_state) (calls : St -> nat) (pulls : St -> list nat) : Prop :=
  forall (t : nat) (st st' : St),
    flag (obj st) = true -> round t st = Some st' ->
    obj st' = obj st /\ calls st' = calls st /\
    pulls st' !! t = optimal_arm (obj st).


Section StoreCells.
Context {num : Type}.

(** [A[i]] and [A[i, j]] for the array at a location. *)
Definition cell1 (h : list (ndarray num)) (l : loc) (i : nat) : option num :=
  v ← heap_get1 h l; v !! i.
Definition cell2 (h : list (ndarray num)) (l : loc) (i j : nat) : option num :=
  m ← heap_get2 h l; r ← m !! i; r !! j.
End StoreCells.

(** What a run of the grid variant shows: the object it leaves, the arms it
    pulled and the number of calls to [IR_approx]. *)
Definition seen_approx {num : Type} (r : option (self_state * approx_locals num))
  : option (self_state * list nat * nat) :=
  (fun st => (st.1, arm_sequence (history st.2), ir_calls st.2)) <$> r.
Definition seen_sample {num : Type} (r : option (self_state * sample_locals num))
  : option (self_state * list nat * nat) :=
  (fun st => (st.1, arm_sequence (shistory st.2), ids_calls st.2)) <$> r.

(** The array [p_a] of the sampling variant when a run ends. *)
Definition seen_p_a (r : option (self_state * sample_locals Qc)) : option (list Q) :=
  st ← r; map this <$> heap_get1 (store st.2) (p_a st.2).

Section LoopValues.
Context {num : Type} `{NumOps num}.
Local Open Scope num_scope.

Variable nb_arms : nat.
Variables Maap p_a : loc.
Variable thetas : list (list num).
Variable theta_hat : list nat.
Variable M : nat.

(** The draws of arm [ap] at which arm [a] is the largest. *)
Definition draws_where (ap a : nat) : list num :=
  take_draws (nth ap thetas []) (where_eq theta_hat a).
(** The values the loops give to [Maap[ap, a]] and to [p_a[a]]. *)
Definition Maap_value (ap a : nat) : num := fnan_to_num (np_mean (draws_where ap a)).
Definition p_a_value (a : nat) : num :=
  of_nat (length (draws_where a a)) /! of_nat M.

(** [Maap] names an [nb_arms x nb_arms] array and [p_a] one of [nb_arms]
    entries. *)
Definition shapes_ok (h : list (ndarray num)) : Prop :=
  exists (Mp : list (list num)) (pa : list num),
    h !! Maap = Some (Arr2 Mp) /\ length Mp = nb_arms /\
    Forall (fun r => length r = nb_arms) Mp /\
    h !! p_a = Some (Arr1 pa) /\ length pa = nb_arms.
End LoopValues.

Section GridIntegralDef.
Context {num : Type} `{NumOps num}.
Local Open Scope num_scope.

Variable nb_arms : nat.

(** The arms other than [a] and [ap]. *)
Definition other_arms (a ap : nat) : list nat :=
  filter (fun app => a <> app /\ app <> ap) (seq 0 nb_arms).

(** The product of [F[app](x_i)] over the arms [app] of a list. *)
Definition cdf_product (F : list (list num)) (arms : list nat) (i : nat) : num :=
  foldl (fun acc app => acc *! nth i (row F app) fzero) fone arms.

(** [(1/N) * sum_i f[a](x_i) * prod_{a'' <> a} F[a''](x_i)] *)
Definition grid_integral (N : nat) (f F : list (list num)) (a : nat) : num :=
  (fone /! of_nat N) *!
  np_sum (map (fun i => nth i (row f a) fzero *! cdf_product F (other_arms a a) i)
              (seq 0 N)).
End GridIntegralDef.

(** [n!] as an exact rational. *)
Definition qfact (n : nat) : Qc := Z2Qc (Z.of_nat (fact n)).

(** [n!] on binary integers, for the factorials that are too large to
    count. *)
Fixpoint Zfact (n : nat) : Z :=
  match n with
  | 0 => 1
  | S k => Z.of_nat (S k) * Zfact k
  end.

(** The Beta function at integer parameters, from the table of factorials. *)
Definition Bq (ab : Z * Z) : Qc :=
  (qfact (Z.to_nat (ab.1 - 1)) * qfact (Z.to_nat (ab.2 - 1))
   / qfact (Z.to_nat (ab.1 + ab.2 - 1)))%Qc.

(** The row of [f] for an arm with parameters [ab], as [init_approx] writes
    it. *)
Definition frow (X : list Qc) (ab : Z * Z) : list Qc :=
  vdivs (vmul (vpow X (ab.1 - 1)) (vpow (vcompl X) (ab.2 - 1))) (Bq ab).

(** The grid points [np.linspace(1/N, 1., N)]. *)
Definition grid_points (N : nat) : list Qc := np_linspace (fdiv fone (of_nat N)) fone N.

(** The last index at which the float64 table of [fact_list] is finite:
    [170!] lies below the largest float and [171!] above it, so that the
    program's entries from 171 on are [inf].  The exact rationals do not
    show this overflow; the statements that read the table at exact
    rationals keep to this range. *)
Definition largest_factorial : Z := 170.

(** [init_approx] reads [fact[a-1]], [fact[b-1]] and [fact[a+b-1]] for an arm
    with parameters [(a, b)]: all three lie in the finite part of the
    table. *)
Definition in_table_range (ab : Z * Z) : Prop :=
  (ab.1 + ab.2 - 1 <= largest_factorial)%Z.

(** The reward as the float [update_approx] receives, and the parameters
    after the update. *)
Definition reward_of (y : bool) : Qc := if y then 1 else 0.
Definition posterior_of (y : bool) (ab : Z * Z) : Z * Z :=
  if y then (ab.1 + 1, ab.2)%Z else (ab.1, ab.2 + 1)%Z.

(** Modelled on the words of the claim: the grid points raised to the second
    parameter times their complements raised to the first. *)
Definition swapped_boundary (X : list Qc) (beta : Z * Z) : list Qc :=
  vmul (vpow X beta.2) (vpow (vcompl X) beta.1).

(** Whether [d] is a multiple of [w]: all cross products agree. *)
Definition proportional (d w : list Qc) : bool :=
  forallb (fun p : Qc * Qc =>
             forallb (fun q : Qc * Qc => Qc_eqb (p.1 * q.2) (q.1 * p.2)) (zip d w))
          (zip d w).

(** The change of [F[arm]] by [update_approx], and the term it takes from
    [F[arm]] inside [G[arm]]. *)
Definition F_correction (arm : nat) (y : Qc) (beta : Z * Z) (g : grid Qc)
  : option (list Qc) :=
  g' ← update_approx arm y beta g;
  Fa ← gF g !! arm;
  Fa' ← gF g' !! arm;
  Some (vsub Fa' Fa).
Definition G_correction (arm : nat) (y : Qc) (beta : Z * Z) (g : grid Qc)
  : option (list Qc) :=
  g' ← update_approx arm y beta g;
  Fa ← gF g !! arm;
  Ga' ← gG g' !! arm;
  Some (vsub Ga' (vscale (fdiv (of_Z beta.1) (of_Z (beta.1 + beta.2))) Fa)).


(** ** Concrete collaborators and inputs for the runs below *)

(** A stand-in for [np.log] on exact rationals (the tangent of the logarithm
    at 1).  The properties of this file are proved for every interpretation
    of [np.log]; the concrete runs need one to evaluate. *)
Definition tangent_log (x : Qc) : Qc := (x - 1)%Qc.
(** A reward stream in which every pull succeeds. *)
Definition always_reward (t arm : nat) : bool := true.
(** Tie-breaking that settles on a fixed arm. *)
Definition pick_arm (k : nat) (t : nat) (delta g : list Qc) : nat := k.
Definition pick_argmax (k : nat) (t : nat) (values : list Qc) : nat := k.

(** A bank of 100 posterior draws per arm in which arm 0 is the largest in
    exactly 99 draws. *)
Definition bank_99 (call arm : nat) (a b : Qc) (M : nat) : list Qc :=
  if Nat.eqb arm 0
  then replicate 99 (Q2Qc (9 # 10)) ++ [Q2Qc (1 # 10)]
  else replicate 100 (Q2Qc (1 # 2)).

(** The bank [bank_99] as the array [thetas]. *)
Definition thetas_99 : list (list Qc) := [bank_99 0 0 1%Qc 1%Qc 100; bank_99 0 1 1%Qc 1%Qc 100].

(** Two arms, two draws each, arm 0 the larger in both: arm 1 is the largest
    in no draw. *)
Definition thetas_arm0 : list (list xnum) :=
  [[Fin (Q2Qc (9 # 10)); Fin (Q2Qc (8 # 10))];
   [Fin (Q2Qc (1 # 10)); Fin (Q2Qc (2 # 10))]].
(** The store of [IDS_sample] before its loop, for two arms. *)
Definition store_zeros : list (ndarray xnum) :=
  [Arr2 [[Fin 0%Qc; Fin 0%Qc]; [Fin 0%Qc; Fin 0%Qc]]; Arr1 [Fin 0%Qc; Fin 0%Qc]].

(** The grid of [init_approx(2, [2,1], [1,1])]. *)
Definition f_21 : list (list Qc) := [[1; 2]; [1; 1]]%Qc.
Definition F_21 : list (list Qc) := [[Q2Qc (1 # 2); Q2Qc (3 # 2)]; [Q2Qc (1 # 2); 1%Qc]].
Definition G_21 : list (list Qc) :=
  [[Q2Qc (1 # 4); Q2Qc (5 # 4)]; [Q2Qc (1 # 4); Q2Qc (3 # 4)]].
Definition X_2 : list Qc := [Q2Qc (1 # 2); 1%Qc].

(** The grid of [init_approx(4, [2], [1])] for a single arm. *)
Definition grid_2_1 : grid Qc :=
  Grid [Q2Qc (1 # 4); Q2Qc (1 # 2); Q2Qc (3 # 4); 1%Qc]
       [[Q2Qc (1 # 2); 1%Qc; Q2Qc (3 # 2); Q2Qc 2]]
       [[Q2Qc (1 # 8); Q2Qc (3 # 8); Q2Qc (3 # 4); Q2Qc (5 # 4)]]
       [[Q2Qc (1 # 32); Q2Qc (5 # 32); Q2Qc (7 # 16); Q2Qc (15 # 16)]]
       [Q2Qc (1 # 2)].

(** Equalities between evaluated structures of exact rationals. *)
Ltac qc_eq :=
  lazymatch goal with
  | |- @eq Qc _ _ => apply Qc_is_canon; reflexivity
  | |- _ => first [reflexivity | f_equal; qc_eq]
  end.

(** ** Real numbers *)

(** A third instance of the scalar operations: the real numbers, for the
    statements that need [np.exp] and [np.log] as inverse functions. *)
Definition R_ltb (x y : R) : bool := if Rlt_dec x y then true else false.
Definition R_leb (x y : R) : bool := if Rle_dec x y then true else false.
Definition R_eqb (x y : R) : bool := if Req_dec_T x y then true else false.
(** Truncation toward zero. *)
Definition R_trunc (x : R) : Z :=
  if Rle_dec 0 x then Int_part x else (- Int_part (- x))%Z.

#[export] Instance R_ops : NumOps R := {|
  fconst q := Q2R q;
  fadd := Rplus; fsub := Rminus; fmul := Rmult; fdiv := Rdiv;
  fpow := powerRZ;
  fltb := R_ltb; fleb := R_leb; feqb := R_eqb;
  fnan_to_num x := x;
  ftrunc := R_trunc
|}.

(** ** The regret constant of the constructor: [kl], [Cp] *)

Section Divergence.
Context {num : Type} `{NumOps num}.
Local Open Scope num_scope.
Local Abbreviation vec := (list num).

Variable np_log : num -> num.

(** [kl(x, y)] *)
Definition kl (x y : num) : num :=
  x *! np_log (x /! y) +! (fone -! x) *! np_log ((fone -! x) /! (fone -! y)).

(** [x != y] as Python evaluates it. *)
Definition fneb (x y : num) : bool := negb (feqb x y).

(** [self.Cp] as [__init__] computes it, from the attributes [self.means]
    and [self.mu_max] that the constructor of the base class (MAB.py) sets;
    Python's [sum] adds from the left, starting at 0. *)
Definition Cp (means : vec) (mu_max : num) : num :=
  np_sum (map (fun x => (mu_max -! x) /! kl x mu_max)
              (filter (fun x => fneb x mu_max = true) means)).
End Divergence.

(** ** The baseline policies: [TS], [BayesUCB], [KG], [Approx_KG_star] *)

Section Baselines.
Context {num : Type} `{NumOps num}.
Local Open Scope num_scope.
Local Abbreviation vec := (list num).

Variable nb_arms : nat.
Variable np_log : num -> num.
Variable sample : nat -> nat -> bool.
Variable rd_argmax : nat -> vec -> nat.
(** [np.random.beta(a, b)] and [np.random.uniform()] for arm [k] at round
    [t]; the random stream is a parameter. *)
Variable random_beta : nat -> nat -> num -> num -> num.
Variable random_uniform : nat -> nat -> num.
(** [beta.ppf(q, a, b)] of scipy.stats. *)
Variable beta_ppf : num -> num -> num -> num.
(** [x ** y] with a float exponent. *)
Variable np_power : num -> num -> num.

(** *** Thompson sampling *)

(** The parameters [(Sa[k]+1, Na[k]-Sa[k]+1)] that [TS] passes to
    [np.random.beta] for arm [k]. *)
Definition TS_beta_args (l : lists num) (k : nat) : option (num * num) :=
  s ← Sa l !! k;
  n ← Na l !! k;
  Some (s +! fone, n -! s +! fone).

(** The body of the inner loop of [TS], for one [k]. *)
Definition TS_draw (t : nat) (l : lists num) (theta : vec) (k : nat) : option vec :=
  n ← Na l !! k;
  _ ← theta !! k;
  if fgeb n fone then
    ab ← TS_beta_args l k;
    Some (<[k := random_beta t k ab.1 ab.2]> theta)
  else Some (<[k := random_uniform t k]> theta).

(** The body of the loop of [TS]; the state is [theta] and the four lists. *)
Definition TS_round (t : nat) (st : vec * lists num) : option (vec * lists num) :=
  theta ← foldl_opt (TS_draw t st.2) st.1 (seq 0 nb_arms);
  l' ← update_lists nb_arms sample t (rd_argmax t theta) st.2;
  Some (theta, l').

(** [TS(T)]: the state when the first [n] rounds are done. *)
Definition TS_upto (n T : nat) : option (vec * lists num) :=
  run_rounds TS_round n (np_zeros nb_arms, init_lists nb_arms T).
Definition TS (T : nat) : option (vec * lists num) := TS_upto T T.

(** *** BayesUCB *)

(** The quantile level [1-1/((t+1)*np.log(T)**c)], for an integer [c]. *)
Definition ucb_level (T t : nat) (c : Z) : num :=
  fone -! fone /! (of_nat (t + 1) *! np_log (of_nat T) ^! c).

(** The value [BayesUCB] stores in [quantiles[k]]. *)
Definition UCB_quantile (T t : nat) (p1 p2 : num) (c : Z) (l : lists num) (k : nat)
  : option num :=
  n ← Na l !! k;
  if fgeb n fone then
    s ← Sa l !! k;
    Some (beta_ppf (ucb_level T t c) (s +! p1) (p2 +! n -! s))
  else Some (beta_ppf (ucb_level T t c) p1 p2).

(** The body of the inner loop of [BayesUCB], for one [k]. *)
Definition UCB_fill (T t : nat) (p1 p2 : num) (c : Z) (l : lists num)
    (quantiles : vec) (k : nat) : option vec :=
  q ← UCB_quantile T t p1 p2 c l k;
  _ ← quantiles !! k;
  Some (<[k := q]> quantiles).

Definition BayesUCB_round (T : nat) (p1 p2 : num) (c : Z) (t : nat)
    (st : vec * lists num) : option (vec * lists num) :=
  quantiles ← foldl_opt (UCB_fill T t p1 p2 c st.2) st.1 (seq 0 nb_arms);
  l' ← update_lists nb_arms sample t (rd_argmax t quantiles) st.2;
  Some (quantiles, l').

(** [BayesUCB(T, p1, p2, c)]: the state when the first [n] rounds are done. *)
Definition BayesUCB_upto (n T : nat) (p1 p2 : num) (c : Z) : option (vec * lists num) :=
  run_rounds (BayesUCB_round T p1 p2 c) n (np_zeros nb_arms, init_lists nb_arms T).
Definition BayesUCB (T : nat) (p1 p2 : num) (c : Z) : option (vec * lists num) :=
  BayesUCB_upto T T p1 p2 c.

(** *** Knowledge gradient *)

(** Python's [max] of a list; [ValueError] on an empty one. *)
Definition py_max (a : vec) : option num :=
  match a with
  | [] => None
  | x :: r => Some (foldl (fun m y => if fgtb y m then y else m) x r)
  end.

(** [max([mu[i] for i in range(self.nb_arms) if i != arm])] *)
Definition best_other (mu : vec) (arm : nat) : option num :=
  others ← mapM (fun i => mu !! i) (filter (fun i => i ≠ arm) (seq 0 nb_arms));
  py_max others.

(** The value [KG] stores in [v[arm]], from [Sa[arm]], [Na[arm]], [mu[arm]]
    and [c[arm]]. *)
Definition KG_value (s n m c : num) : num :=
  if fleb m c && fltb c ((s +! fone) /! (n +! fone)) then
    m *! ((s +! fone) /! (n +! fone) -! c)
  else if fltb (s /! (n +! fone)) c && fltb c m then
    (fone -! m) *! (c -! s /! (n +! fone))
  else fzero.

(** The constant [10e-9]. *)
Definition ten_e_minus9 : num := fconst (Q2Qc (1 # 100000000)).

(** The value [Approx_KG_star] stores in [m[arm]]. *)
Definition KG_star_value (n m c : num) : num :=
  if fgeb c m then
    let ta := n *! (c -! m) /! (fone -! c +! ten_e_minus9) in
    fnan_to_num (np_power m ta /! ta)
  else
    let ta := n *! (m -! c) /! (c +! ten_e_minus9) in
    np_power (fone -! m) ta /! ta.

(** The body of the second inner loop, for one [arm]; [value] is
    [KG_value] or [KG_star_value] applied to the entries of that arm. *)
Definition KG_fill (value : num -> num -> num -> num -> num) (l : lists num)
    (mu c v : vec) (arm : nat) : option vec :=
  m ← mu !! arm;
  ck ← c !! arm;
  s ← Sa l !! arm;
  n ← Na l !! arm;
  _ ← v !! arm;
  Some (<[arm := value s n m ck]> v).

(** The arm chosen at round [t] and the array [v] (or [m]) it leaves. *)
Definition KG_select (value : num -> num -> num -> num -> num) (T t : nat)
    (v : vec) (l : lists num) : option (nat * vec) :=
  if bool_decide (t < nb_arms) then Some (t, v)
  else
    let mu := vdiv (Sa l) (Na l) in
    c ← mapM (best_other mu) (seq 0 nb_arms);
    v' ← foldl_opt (KG_fill value l mu c) v (seq 0 nb_arms);
    guard (length mu = length v');;
    Some (rd_argmax t (vadd mu (vscale (of_nat (T - t)) v')), v').

Definition KG_round (value : num -> num -> num -> num -> num) (T t : nat)
    (st : vec * lists num) : option (vec * lists num) :=
  choice ← KG_select value T t st.1 st.2;
  l' ← update_lists nb_arms sample t choice.1 st.2;
  Some (choice.2, l').

(** [KG(T)] and [Approx_KG_star(T)]: the state when the first [n] rounds
    are done. *)
Definition KG_upto (n T : nat) : option (vec * lists num) :=
  run_rounds (KG_round KG_value T) n (np_zeros nb_arms, init_lists nb_arms T).
Definition KG (T : nat) : option (vec * lists num) := KG_upto T T.

Definition Approx_KG_star_upto (n T : nat) : option (vec * lists num) :=
  run_rounds (KG_round (fun _ => KG_star_value) T) n
             (np_zeros nb_arms, init_lists nb_arms T).
Definition Approx_KG_star (T : nat) : option (vec * lists num) :=
  Approx_KG_star_upto T T.
End Baselines.

(** * Reward distributions ([src/arms.py]) *)

(** The attributes [mean] and [variance] that [AbstractArm.__init__] stores;
    [variance] may be [None]. *)
Record arm_moments {num : Type} := Moments {
  mean : num;
  variance : option num
}.
Arguments arm_moments : clear implicits.
Arguments Moments {num} _ _.

Section Arms.
Context {num : Type} `{NumOps num}.
Local Open Scope num_scope.
Local Abbreviation vec := (list num).

Variable np_exp : num -> num.
Variable np_log : num -> num.

(** [-x] *)
Definition fneg (x : num) : num := fzero -! x.

(** [ArmBernoulli(p)] *)
Definition ArmBernoulli (p : num) : arm_moments num :=
  Moments p (Some (p *! (fone -! p))).
(** [ArmBernoulli.sample]: [rand(1) < p], for the draw [u] of [rand]. *)
Definition ArmBernoulli_sample (p u : num) : bool := fltb u p.

(** [ArmBeta(a, b)] *)
Definition ArmBeta (a b : num) : arm_moments num :=
  Moments (a /! (a +! b))
          (Some ((a *! b) /! ((a +! b) ^! 2 *! (a +! b +! fone)))).

(** [ArmGaussian(mu, eta)] *)
Definition ArmGaussian (mu eta : num) : arm_moments num := Moments mu (Some eta).

(** [ArmExp(L, B)]; [AssertionError] unless [B > 0]. *)
Definition ArmExp (L B : num) : option (arm_moments num) :=
  guard (fgtb B fzero = true);;
  let v_m := (fone -! np_exp (fneg B *! L) *! (fone +! B *! L)) /! L in
  Some (Moments (v_m /! (fone -! np_exp (fneg L *! B))) None).

(** The inner function [CDF] of [ArmExp.cdf]. *)
Definition ArmExp_CDF (L y : num) : num := fone -! np_exp (fneg L *! y).

(** [ArmExp.cdf(x)] *)
Definition ArmExp_cdf (L B x : num) : num :=
  (ArmExp_CDF L x -! ArmExp_CDF L fzero) /! (ArmExp_CDF L B -! ArmExp_CDF L fzero).

(** [ArmExp.inv_cdf(q)]; [AssertionError] unless [0 <= q <= 1]. *)
Definition ArmExp_inv_cdf (L B q : num) : option num :=
  guard (fleb fzero q && fleb q fone = true);;
  Some (fneg (np_log (fone -! (fone -! np_exp (fneg L *! B)) *! q)) /! L).

(** Elementwise product of two 1-D arrays as numpy broadcasts it: the
    shapes are equal or one of the arrays has a single entry; [ValueError]
    otherwise. *)
Definition np_multiply (a b : vec) : option vec :=
  if bool_decide (length a = length b) then Some (vmul a b)
  else match a, b with
       | [x], _ => Some (vscale x b)
       | _, [y] => Some (vmuls a y)
       | _, _ => None
       end.

(** [ArmFinite(X, P)] for arrays [X] and [P]. *)
Definition ArmFinite (X P : vec) : option (arm_moments num) :=
  XP ← np_multiply X P;
  let mean := np_sum XP in
  X2P ← np_multiply (vpow X 2) P;
  Some (Moments mean (Some (np_sum X2P -! mean ^! 2))).

(** [ArmFinite.sample], for the index [i] that [choice] draws. *)
Definition ArmFinite_sample (X : vec) (i : nat) : option num := X !! i.
End Arms.

(** ** Reading the baselines and the object *)

(** An [optimal_arm] that holds the index of an arm. *)
Definition holds_arm (nb_arms : nat) (o : option nat) : Prop :=
  exists a : nat, o = Some a /\ a < nb_arms.

(** A stand-in for [np.log] on the extended rationals that has the values
    of the logarithm at 0, at 1 and at the infinities (and the tangent at 1
    elsewhere), for the concrete runs. *)
Definition xlog (x : xnum) : xnum :=
  match x with
  | Fin q => if Qc_is0 q then NInf else if Qc_neg q then NaN else Fin (q - 1)%Qc
  | PInf => PInf
  | NInf => NaN
  | NaN => NaN
  end.

(** A stand-in for [**] with a float exponent: the value 1 at exponent 0,
    the base elsewhere. *)
Definition xpower (x y : xnum) : xnum :=
  match y with
  | Fin q => if Qc_is0 q then Fin 1%Qc else x
  | _ => x
  end.

(** The arrays [Sa] and [Na] hold counts: [Na[k]] pulls of arm [k], of which
    [Sa[k]] paid. *)
Definition tallies (nb_arms : nat) (l : lists Qc) : Prop :=
  length (Sa l) = nb_arms /\ length (Na l) = nb_arms /\
  forall (k : nat) (s n : Qc), Sa l !! k = Some s -> Na l !! k = Some n ->
    exists i j : nat, i <= j /\ s = of_nat i /\ n = of_nat j.

Section GridEstimates.
Context {num : Type} `{NumOps num}.
Local Open Scope num_scope.

Variable nb_arms : nat.

(** A matrix of [nb_arms] rows of [nb_arms] entries. *)
Definition square_matrix (m : list (list num)) : Prop :=
  length m = nb_arms /\ Forall (fun r => length r = nb_arms) m.

(** [m[i, j]] for a 2-D array. *)
Definition entry (m : list (list num)) (i j : nat) : option num :=
  r ← m !! i; r !! j.

(** The value that the second loop nest of [IR_approx] stores in
    [maap[ap, a]]: a grid sum over [p_star[a]]. *)
Definition maap_value (N : nat) (X : list num) (f F G : list (list num)) (a ap : nat)
  : num :=
  (if bool_decide (a ≠ ap)
   then np_sum (vmul (prod_F1 nb_arms N f F a ap) (row G ap))
   else np_sum (vmul (prod_F1 nb_arms N f F a a) X))
  /! np_sum (prod_F1 nb_arms N f F a a).
End GridEstimates.

(** The state of a run of the grid variant of horizon [T] is well formed:
    a locked object holds an arm, and the arrays have the shapes that
    [init_approx] and [init_lists] give them. *)
Definition grid_run_ok {num : Type} (nb_arms T : nat)
    (st : self_state * approx_locals num) : Prop :=
  (flag st.1 = true -> holds_arm nb_arms (optimal_arm st.1)) /\
  length (p_star st.2) = nb_arms /\
  length (beta1 st.2) = nb_arms /\ length (beta2 st.2) = nb_arms /\
  length (gf (posterior st.2)) = nb_arms /\ length (gF (posterior st.2)) = nb_arms /\
  length (gG (posterior st.2)) = nb_arms /\ length (gB (posterior st.2)) = nb_arms /\
  length (arm_sequence (history st.2)) = T /\ length (reward (history st.2)) = T.

(** The same for the sampling variant; when the array [p_a] has reached the
    threshold, [computeIDS] has stored an arm in the object. *)
Definition sample_run_ok {num : Type} `{NumOps num} (nb_arms T : nat)
    (st : self_state * sample_locals num) : Prop :=
  (flag st.1 = true -> holds_arm nb_arms (optimal_arm st.1)) /\
  shapes_ok nb_arms (Maap st.2) (p_a st.2) (store st.2) /\
  (forall (pa : list num) (m : num),
     heap_get1 (store st.2) (p_a st.2) = Some pa -> np_max pa = Some m ->
     fgeb m threshold = true -> holds_arm nb_arms (optimal_arm st.1)) /\
  length (thetas st.2) = nb_arms /\
  length (sbeta1 st.2) = nb_arms /\ length (sbeta2 st.2) = nb_arms /\
  length (arm_sequence (shistory st.2)) = T /\ length (reward (shistory st.2)) = T.

(** The arms pulled in the first [n] rounds are arms of the bandit. *)
Definition pulls_ok (nb_arms n : nat) (arm_sequence : list nat) : Prop :=
  forall t : nat, t < n -> exists k : nat, arm_sequence !! t = Some k /\ k < nb_arms.

(** * Properties *)

(** ** Frame of the grid update *)

Section GridFrame.
Context {num : Type} `{NumOps num}.

Lemma update_approx_frame (arm : nat) (y : num) (beta : Z * Z) (g g' : grid num) :
  update_approx arm y beta g = Some g' ->
  gX g' = gX g /\
  forall j : nat, j <> arm ->
    gf g' !! j = gf g !! j /\ gF g' !! j = gF g !! j /\
    gG g' !! j = gG g !! j /\ gB g' !! j = gB g !! j.
Proof.
  unfold update_approx; intros Hu.
  destruct (gf g !! arm) as [fa|]; simpl in Hu; [|discriminate].
  destruct (gF g !! arm) as [Fa|]; simpl in Hu; [|discriminate].
  destruct (gB g !! arm) as [Ba|]; simpl in Hu; [|discriminate].
  destruct (gG g !! arm) as [Ga|]; simpl in Hu; [|discriminate].
  injection Hu as <-; simpl; split; [reflexivity|].
  intros j Hj; repeat split; apply list_lookup_insert_ne; congruence.
Qed.

Lemma update_approx_shape (arm : nat) (y : num) (beta : Z * Z) (g g' : grid num) :
  update_approx arm y beta g = Some g' ->
  length (gf g') = length (gf g) /\ length (gF g') = length (gF g) /\
  length (gG g') = length (gG g) /\ length (gB g') = length (gB g).
Proof.
  unfold update_approx; intros Hu.
  destruct (gf g !! arm) as [fa|]; simpl in Hu; [|discriminate].
  destruct (gF g !! arm) as [Fa|]; simpl in Hu; [|discriminate].
  destruct (gB g !! arm) as [Ba|]; simpl in Hu; [|discriminate].
  destruct (gG g !! arm) as [Ga|]; simpl in Hu; [|discriminate].
  injection Hu as <-; simpl; rewrite !length_insert; auto.
Qed.
End GridFrame.

(** ** Inversion of the collaborators and of one round *)

Section RoundInversion.
Context {num : Type} `{NumOps num}.
Local Open Scope num_scope.
Local Abbreviation vec := (list num).

Variable nb_arms : nat.
Variable np_log : num -> num.
Variable sample : nat -> nat -> bool.
Variable IDSAction : nat -> vec -> vec -> nat.
Variable rd_argmax : nat -> vec -> nat.
Variable np_random_beta : nat -> nat -> num -> num -> nat -> vec.

Lemma update_lists_inv (t arm : nat) (l l' : lists num) :
  update_lists nb_arms sample t arm l = Some l' ->
  arm < nb_arms /\ t < length (arm_sequence l) /\ t < length (reward l) /\
  arm_sequence l' = <[t := arm]> (arm_sequence l) /\
  reward l' = <[t := if sample t arm then fone else fzero]> (reward l).
Proof.
  unfold update_lists; intros Hu.
  repeat case_guard; simplify_eq/=; auto.
Qed.

Lemma update_lists_pulled (t arm : nat) (l l' : lists num) :
  update_lists nb_arms sample t arm l = Some l' ->
  arm_sequence l' !! t = Some arm.
Proof.
  intros (_ & Ht & _ & -> & _)%update_lists_inv.
  by apply list_lookup_insert_eq.
Qed.

Lemma update_lists_reward (t arm : nat) (l l' : lists num) :
  update_lists nb_arms sample t arm l = Some l' ->
  reward l' !! t = Some (if sample t arm then fone else fzero).
Proof.
  intros (_ & _ & Ht & _ & ->)%update_lists_inv.
  by apply list_lookup_insert_eq.
Qed.

Lemma round_approx_inv (N_steps t : nat) (s s' : self_state)
    (l l' : approx_locals num) :
  round_approx nb_arms np_log sample IDSAction N_steps t (s, l) = Some (s', l') ->
  exists (k : nat) (ps : vec) (c : nat) (h' : lists num) (b1 b2 : Z) (y : num)
         (g' : grid num),
    select_approx nb_arms np_log IDSAction N_steps t s l = Some (s', Some k, ps, c) /\
    update_lists nb_arms sample t k (history l) = Some h' /\
    beta1 l !! k = Some b1 /\ beta2 l !! k = Some b2 /\
    reward h' !! t = Some y /\
    update_approx k y (b1, b2) (posterior l) = Some g' /\
    l' = ApproxLocals (<[k := ftrunc (of_Z b1 +! y)]> (beta1 l))
                      (<[k := ftrunc (of_Z b2 +! (fone -! y))]> (beta2 l))
                      g' ps h' c.
Proof.
  unfold round_approx; intros Hr.
  destruct (select_approx _ _ _ _ _ _ _) as [[[[s1 [k|]] ps] c]|] eqn:Hs;
    simpl in Hr; try discriminate.
  destruct (update_lists _ _ _ _ _) as [h'|] eqn:Hu; simpl in Hr; [|discriminate].
  destruct (beta1 l !! k) as [b1|] eqn:Hb1; simpl in Hr; [|discriminate].
  destruct (beta2 l !! k) as [b2|] eqn:Hb2; simpl in Hr; [|discriminate].
  destruct (reward h' !! t) as [y|] eqn:Hy; simpl in Hr; [|discriminate].
  destruct (update_approx _ _ _ _) as [g'|] eqn:Hg; simpl in Hr; [|discriminate].
  injection Hr as <- <-.
  exists k, ps, c, h', b1, b2, y, g'; auto 10.
Qed.

Lemma round_sample_inv (M : nat) (VIDS : bool) (t : nat) (s s' : self_state)
    (l l' : sample_locals num) :
  round_sample nb_arms np_log sample IDSAction rd_argmax np_random_beta
               M VIDS t (s, l) = Some (s', l') ->
  exists (k : nat) (h' : lists num),
    select_sample nb_arms np_log IDSAction rd_argmax M VIDS t s l
      = Some (s', Some k, p_a l', store l', ids_calls l') /\
    update_lists nb_arms sample t k (shistory l) = Some h' /\
    shistory l' = h' /\ Maap l' = Maap l.
Proof.
  unfold round_sample; intros Hr.
  destruct (select_sample _ _ _ _ _ _ _ _ _) as [[[[[s1 [k|]] pa] h1] c]|] eqn:Hs;
    simpl in Hr; try discriminate.
  destruct (update_lists _ _ _ _ _) as [h'|] eqn:Hu; simpl in Hr; [|discriminate].
  destruct (reward h' !! t) as [y|]; simpl in Hr; [|discriminate].
  destruct (sbeta1 l !! k) as [b1|]; simpl in Hr; [|discriminate].
  destruct (sbeta2 l !! k) as [b2|]; simpl in Hr; [|discriminate].
  destruct (thetas l !! k) as [r|]; simpl in Hr; [|discriminate].
  injection Hr as <- <-; simpl.
  exists k, h'; auto.
Qed.
End RoundInversion.

(** ** Rounds of a locked object *)

Section LockedRuns.
Context {St : Type}.
Variable round : nat -> St -> option St.
(** The object, the ghost counter and the pulled arms of a loop state. *)
Variable obj : St -> self_state.
Variable calls : St -> nat.
Variable pulls : St -> list nat.

Hypothesis Hround : locked_round_spec round obj calls pulls.

Lemma run_rounds_S (n : nat) (st0 st' : St) :
  run_rounds round (S n) st0 = Some st' ->
  exists st, run_rounds round n st0 = Some st /\ round n st = Some st'.
Proof.
  simpl; destruct (run_rounds round n st0) as [st|]; simpl; [|discriminate].
  intros Hr; exists st; auto.
Qed.

Lemma run_rounds_locked (st0 st_t : St) (t : nat) :
  run_rounds round (S t) st0 = Some st_t ->
  flag (obj st_t) = true ->
  forall (d : nat) (st' : St),
    run_rounds round (S (S (t + d))) st0 = Some st' ->
    obj st' = obj st_t /\ calls st' = calls st_t /\
    pulls st' !! (S (t + d)) = optimal_arm (obj st_t).
Proof.
  intros Ht Hflag d; induction d as [|d IH]; intros st' Hrun.
  - apply run_rounds_S in Hrun as (st & Hst & Hstep).
    rewrite Nat.add_0_r in Hst, Hstep |- *.
    rewrite Ht in Hst; injection Hst as <-.
    by apply Hround.
  - apply run_rounds_S in Hrun as (st & Hst & Hstep).
    replace (t + S d) with (S (t + d)) in Hst, Hstep |- * by lia.
    destruct (IH st Hst) as (Ho & Hc & _).
    destruct (Hround _ _ _ ltac:(by rewrite Ho) Hstep) as (Ho' & Hc' & Hp').
    rewrite Ho', Hc', Hp', Ho, Hc; auto.
Qed.

(** From a locked object, every round of the loop pulls the stored arm. *)
Lemma run_rounds_from_locked (st0 : St) :
  flag (obj st0) = true ->
  forall (n : nat) (st' : St),
    run_rounds round (S n) st0 = Some st' ->
    obj st' = obj st0 /\ calls st' = calls st0 /\
    pulls st' !! n = optimal_arm (obj st0).
Proof.
  intros Hflag n; induction n as [|n IH]; intros st' Hrun.
  - apply run_rounds_S in Hrun as (st & Hst & Hstep).
    injection Hst as <-. by apply Hround.
  - apply run_rounds_S in Hrun as (st & Hst & Hstep).
    destruct (IH st Hst) as (Ho & Hc & _).
    destruct (Hround _ _ _ ltac:(by rewrite Ho) Hstep) as (Ho' & Hc' & Hp').
    rewrite Ho', Hc', Hp', Ho, Hc; auto.
Qed.
End LockedRuns.

Section LockedRounds.
Context {num : Type} `{NumOps num}.
Local Abbreviation vec := (list num).

Variable nb_arms : nat.
Variable np_log : num -> num.
Variable sample : nat -> nat -> bool.
Variable IDSAction : nat -> vec -> vec -> nat.
Variable rd_argmax : nat -> vec -> nat.
Variable np_random_beta : nat -> nat -> num -> num -> nat -> vec.

Lemma round_approx_locked (N_steps : nat) :
  locked_round_spec (round_approx nb_arms np_log sample IDSAction N_steps)
    fst (fun st => ir_calls st.2) (fun st => arm_sequence (history st.2)).
Proof.
  intros t [s l] [s' l'] Hflag Hr; simpl in *.
  apply round_approx_inv in Hr as (k & ps & c & h' & b1 & b2 & y & g' & Hs & Hu & _ & _ & _ & _ & ->).
  unfold select_approx in Hs; rewrite Hflag in Hs; simpl in Hs.
  injection Hs as <- Hk _ <-; simpl.
  rewrite Hk; repeat split.
  by eapply update_lists_pulled.
Qed.

Lemma round_sample_locked (M : nat) (VIDS : bool) :
  locked_round_spec
    (round_sample nb_arms np_log sample IDSAction rd_argmax np_random_beta M VIDS)
    fst (fun st => ids_calls st.2) (fun st => arm_sequence (shistory st.2)).
Proof.
  intros t [s l] [s' l'] Hflag Hr; simpl in *.
  apply round_sample_inv in Hr as (k & h' & Hs & Hu & Hh & _).
  unfold select_sample in Hs; rewrite Hflag in Hs; simpl in Hs.
  injection Hs as <- Hk _ _ <-.
  rewrite Hk, Hh; repeat split.
  by eapply update_lists_pulled.
Qed.
End LockedRounds.

(** ** Lock-in *)

(** C6: within one run of [IDS_approx], [IDS_sample] or [VIDS_sample], once
    the flag is true after round [t], after every later round [t'] the flag
    is still true, [optimal_arm] is the same, the arm pulled at [t'] is
    [optimal_arm], and the estimator was not called again (its call counter
    did not move). *)
Theorem lock_in_is_permanent {num : Type} `{NumOps num} (nb_arms : nat)
    (np_log : num -> num) (sample : nat -> nat -> bool)
    (IDSAction : nat -> list num -> list num -> nat)
    (rd_argmax : nat -> list num -> nat)
    (np_random_beta : nat -> nat -> num -> num -> nat -> list num) :
  (forall (T N_steps : nat) (b1 b2 : list Z) (s : self_state) (t t' : nat)
          (st_t st' : self_state * approx_locals num),
      IDS_approx_upto nb_arms np_log sample IDSAction (S t) T N_steps b1 b2 s
        = Some st_t ->
      flag st_t.1 = true -> t < t' ->
      IDS_approx_upto nb_arms np_log sample IDSAction (S t') T N_steps b1 b2 s
        = Some st' ->
      flag st'.1 = true /\ optimal_arm st'.1 = optimal_arm st_t.1 /\
      arm_sequence (history st'.2) !! t' = optimal_arm st_t.1 /\
      ir_calls st'.2 = ir_calls st_t.2) /\
  (forall (VIDS : bool) (T M : nat) (s : self_state) (t t' : nat)
          (st_t st' : self_state * sample_locals num),
      sample_upto nb_arms np_log sample IDSAction rd_argmax np_random_beta
                  VIDS (S t) T M s = Some st_t ->
      flag st_t.1 = true -> t < t' ->
      sample_upto nb_arms np_log sample IDSAction rd_argmax np_random_beta
                  VIDS (S t') T M s = Some st' ->
      flag st'.1 = true /\ optimal_arm st'.1 = optimal_arm st_t.1 /\
      arm_sequence (shistory st'.2) !! t' = optimal_arm st_t.1 /\
      ids_calls st'.2 = ids_calls st_t.2).
Proof.
  split.
  - intros T N_steps b1 b2 s t t' st_t st' Ht Hflag Hlt Ht'.
    unfold IDS_approx_upto in Ht, Ht'.
    destruct (start_approx _ _ _ _ _ _) as [st0|]; [|discriminate].
    simpl in Ht, Ht'.
    replace t' with (S (t + (t' - S t))) in Ht' |- * by lia.
    destruct (run_rounds_locked _ _ _ _ (round_approx_locked nb_arms np_log sample
                IDSAction N_steps) st0 st_t t Ht Hflag _ _ Ht') as (Ho & Hc & Hp).
    simpl in Ho, Hc, Hp. rewrite Ho. auto.
  - intros VIDS T M s t t' st_t st' Ht Hflag Hlt Ht'.
    unfold sample_upto in Ht, Ht'.
    replace t' with (S (t + (t' - S t))) in Ht' |- * by lia.
    destruct (run_rounds_locked _ _ _ _ (round_sample_locked nb_arms np_log sample
                IDSAction rd_argmax np_random_beta M VIDS) _ st_t t Ht Hflag _ _ Ht')
      as (Ho & Hc & Hp).
    simpl in Ho, Hc, Hp. rewrite Ho. auto.
Qed.

Lemma lock_in_is_permanent_witness :
  exists st_t st' : self_state * approx_locals Qc,
    IDS_approx_upto 2 tangent_log always_reward (pick_arm 1) 2 3 100
                    [6; 1]%Z [1; 6]%Z init_self = Some st_t /\
    flag st_t.1 = true /\ 1 < 2 /\
    IDS_approx_upto 2 tangent_log always_reward (pick_arm 1) 3 3 100
                    [6; 1]%Z [1; 6]%Z init_self = Some st' /\
    flag st'.1 = true /\ optimal_arm st'.1 = optimal_arm st_t.1 /\
    arm_sequence (history st'.2) !! 2 = optimal_arm st_t.1 /\
    ir_calls st'.2 = ir_calls st_t.2.
Proof.
  destruct (IDS_approx_upto 2 tangent_log always_reward (pick_arm 1) 2 3 100
              [6; 1]%Z [1; 6]%Z init_self) as [st_t|] eqn:H2;
    [|vm_compute in H2; discriminate].
  destruct (IDS_approx_upto 2 tangent_log always_reward (pick_arm 1) 3 3 100
              [6; 1]%Z [1; 6]%Z init_self) as [st'|] eqn:H3;
    [|vm_compute in H3; discriminate].
  assert (Hflag : flag st_t.1 = true).
  { assert (Hc : (fun st : self_state * approx_locals Qc => flag st.1) <$>
                 IDS_approx_upto 2 tangent_log always_reward (pick_arm 1) 2 3 100
                   [6; 1]%Z [1; 6]%Z init_self = Some true)
      by (vm_compute; reflexivity).
    rewrite H2 in Hc. simpl in Hc. congruence. }
  exists st_t, st'.
  split; [reflexivity|]. split; [exact Hflag|]. split; [lia|].
  split; [reflexivity|].
  exact (proj1 (lock_in_is_permanent 2 tangent_log always_reward (pick_arm 1)
                  (pick_argmax 0) (fun _ _ _ _ _ => []))
           3 100 [6; 1]%Z [1; 6]%Z init_self 1 2 st_t st' H2 Hflag
           ltac:(lia) H3).
Defined.

(** C8 (amended): the lock-in state is an attribute of the object.  The
    constructor leaves it unlocked, and no entry point resets it: a run that
    starts on an object whose flag is true leaves the object as it found it,
    pulls the stored [optimal_arm] at every round and never calls the
    estimator. *)
Theorem lock_state_lives_on_the_object {num : Type} `{NumOps num} (nb_arms : nat)
    (np_log : num -> num) (sample : nat -> nat -> bool)
    (IDSAction : nat -> list num -> list num -> nat)
    (rd_argmax : nat -> list num -> nat)
    (np_random_beta : nat -> nat -> num -> num -> nat -> list num)
    (s : self_state) (Hlocked : flag s = true) :
  flag init_self = false /\
  (forall (T N_steps : nat) (b1 b2 : list Z) (n : nat)
          (st' : self_state * approx_locals num),
      IDS_approx_upto nb_arms np_log sample IDSAction (S n) T N_steps b1 b2 s
        = Some st' ->
      st'.1 = s /\ arm_sequence (history st'.2) !! n = optimal_arm s /\
      ir_calls st'.2 = 0) /\
  (forall (VIDS : bool) (T M n : nat) (st' : self_state * sample_locals num),
      sample_upto nb_arms np_log sample IDSAction rd_argmax np_random_beta
                  VIDS (S n) T M s = Some st' ->
      st'.1 = s /\ arm_sequence (shistory st'.2) !! n = optimal_arm s /\
      ids_calls st'.2 = 0).
Proof.
  split; [reflexivity|]. split.
  - intros T N_steps b1 b2 n st' Hrun.
    unfold IDS_approx_upto, start_approx in Hrun.
    destruct (init_approx _ _ _ _) as [g|]; [|discriminate]. simpl in Hrun.
    destruct (run_rounds_from_locked _ _ _ _ (round_approx_locked nb_arms np_log
                sample IDSAction N_steps)
                (s, ApproxLocals b1 b2 g (np_zeros nb_arms) (init_lists nb_arms T) 0)
                Hlocked n st' Hrun) as (Ho & Hc & Hp).
    auto.
  - intros VIDS T M n st' Hrun.
    unfold sample_upto in Hrun.
    destruct (run_rounds_from_locked _ _ _ _ (round_sample_locked nb_arms np_log
                sample IDSAction rd_argmax np_random_beta M VIDS)
                (start_sample nb_arms np_random_beta T M s) Hlocked n st' Hrun)
      as (Ho & Hc & Hp).
    auto.
Qed.

Lemma lock_state_lives_on_the_object_witness :
  flag (Self true (Some 0)) = true /\
  forall (T N_steps : nat) (b1 b2 : list Z) (n : nat)
         (st' : self_state * approx_locals Qc),
    IDS_approx_upto 2 tangent_log always_reward (pick_arm 1) (S n) T N_steps b1 b2
                    (Self true (Some 0)) = Some st' ->
    st'.1 = Self true (Some 0) /\
    arm_sequence (history st'.2) !! n = Some 0 /\ ir_calls st'.2 = 0.
Proof.
  split; [reflexivity|].
  exact (proj1 (proj2 (lock_state_lives_on_the_object 2 tangent_log always_reward
                         (pick_arm 1) (pick_argmax 0) (fun _ _ _ _ _ => [])
                         (Self true (Some 0)) eq_refl))).
Defined.

(** C8 as stated fails.  On a new two-armed object, [IDS_approx(2, 100,
    [6,1], [1,6])] calls [IR_approx] at round 0 (the arm it pulls there is
    the tie-breaker's, here arm 1), finds [p_star[0] > 0.99] at round 1 and
    locks on arm 0.  A second call, [IDS_approx(1, 100, [1,1], [1,1])], on
    the same object then starts locked: it pulls arm 0 without calling
    [IR_approx], where a new object calls it and pulls arm 1. *)
Lemma second_run_starts_locked :
  seen_approx (IDS_approx 2 tangent_log always_reward (pick_arm 1) 2 100
                 [6; 1]%Z [1; 6]%Z init_self)
    = Some (Self true (Some 0), [1; 0], 1) /\
  seen_approx (IDS_approx 2 tangent_log always_reward (pick_arm 1) 1 100
                 [1; 1]%Z [1; 1]%Z (Self true (Some 0)))
    = Some (Self true (Some 0), [0], 0) /\
  seen_approx (IDS_approx 2 tangent_log always_reward (pick_arm 1) 1 100
                 [1; 1]%Z [1; 1]%Z init_self)
    = Some (Self false None, [1], 1).
Proof. repeat split; vm_compute; reflexivity. Qed.

(** ** Arm-local mutation *)

(** C7: [update_approx] for arm [arm] leaves the rows [f[j]], [F[j]],
    [G[j]] and the entry [B[j]] of every other arm [j] as they were; and a
    round of [IDS_approx] that pulls arm [k] leaves those rows and the
    parameters [beta1[j]], [beta2[j]] of every arm [j] other than [k] as
    they were. *)
Theorem pull_touches_only_pulled_arm {num : Type} `{NumOps num} (nb_arms : nat)
    (np_log : num -> num) (sample : nat -> nat -> bool)
    (IDSAction : nat -> list num -> list num -> nat) :
  (forall (arm : nat) (y : num) (beta : Z * Z) (g g' : grid num),
      update_approx arm y beta g = Some g' ->
      forall j : nat, j <> arm ->
        gf g' !! j = gf g !! j /\ gF g' !! j = gF g !! j /\
        gG g' !! j = gG g !! j /\ gB g' !! j = gB g !! j) /\
  (forall (N_steps t : nat) (s s' : self_state) (l l' : approx_locals num),
      round_approx nb_arms np_log sample IDSAction N_steps t (s, l) = Some (s', l') ->
      exists k : nat,
        arm_sequence (history l') !! t = Some k /\
        forall j : nat, j <> k ->
          gf (posterior l') !! j = gf (posterior l) !! j /\
          gF (posterior l') !! j = gF (posterior l) !! j /\
          gG (posterior l') !! j = gG (posterior l) !! j /\
          gB (posterior l') !! j = gB (posterior l) !! j /\
          beta1 l' !! j = beta1 l !! j /\ beta2 l' !! j = beta2 l !! j).
Proof.
  split.
  - intros arm y beta g g' Hu j Hj.
    by apply (update_approx_frame arm y beta g g' Hu).
  - intros N_steps t s s' l l' Hr.
    apply round_approx_inv in Hr
      as (k & ps & c & h' & b1 & b2 & y & g' & _ & Hu & _ & _ & _ & Hg & ->).
    exists k; simpl; split; [by eapply update_lists_pulled|].
    intros j Hj.
    destruct (update_approx_frame _ _ _ _ _ Hg) as [_ Hrows].
    destruct (Hrows j Hj) as (Hf & HF & HG & HB).
    repeat split; try assumption; apply list_lookup_insert_ne; congruence.
Qed.

(** The uniform prior on two arms, a grid of 10 points, reward 1 for arm 0:
    the rows of arm 1 are untouched. *)
Lemma pull_touches_only_pulled_arm_witness :
  exists g g' : grid Qc,
    init_approx 2 10 [1; 1]%Z [1; 1]%Z = Some g /\
    update_approx 0 1%Qc (1, 1)%Z g = Some g' /\
    1 <> 0 /\
    gf g' !! 1 = gf g !! 1 /\ gF g' !! 1 = gF g !! 1 /\
    gG g' !! 1 = gG g !! 1 /\ gB g' !! 1 = gB g !! 1.
Proof.
  destruct (init_approx (num := Qc) 2 10 [1; 1]%Z [1; 1]%Z) as [g|] eqn:Hi;
    [|vm_compute in Hi; discriminate].
  destruct (update_approx 0 1%Qc (1, 1)%Z g) as [g'|] eqn:Hu.
  - exists g, g'. do 3 (split; [done|]).
    exact (proj1 (pull_touches_only_pulled_arm 2 tangent_log always_reward
                    (pick_arm 0)) 0 1%Qc (1, 1)%Z g g' Hu 1 ltac:(done)).
  - exfalso. vm_compute in Hi. injection Hi as <-. vm_compute in Hu. discriminate.
Defined.

(** ** Inversion of [computeIDS] *)

Section ComputeIDSInversion.
Context {num : Type} `{NumOps num}.
Local Abbreviation vec := (list num).
Local Abbreviation mat := (list (list num)).
Local Abbreviation heap := (list (ndarray num)).

Variable nb_arms : nat.
Variable np_log : num -> num.
Variable IDSAction : nat -> vec -> vec -> nat.
Variable rd_argmax : nat -> vec -> nat.

Lemma computeIDS_inv (t : nat) (s s' : self_state) (h h' : heap) (Maap p_a pl : loc)
    (thetas : mat) (M : nat) (VIDS : bool) (arm : nat) (e : estimate num) :
  computeIDS nb_arms np_log IDSAction rd_argmax t s h Maap p_a thetas M VIDS
    = Some (arm, pl, h', s', e) ->
  exists (theta_hat : list nat) (mu pa : vec) (Mp : mat) (m : num),
    argmax_axis0 thetas = Some theta_hat /\
    foldl_opt (computeIDS_outer nb_arms Maap p_a thetas theta_hat M)
              (map np_mean thetas, h) (seq 0 nb_arms) = Some (mu, h') /\
    heap_get1 h' p_a = Some pa /\ heap_get2 h' Maap = Some Mp /\
    np_max pa = Some m /\ pl = p_a /\
    ((fgeb m threshold = true /\ np_argmax pa = Some arm /\
      s' = Self (flag s) (Some arm) /\ e = Locked) \/
     (fgeb m threshold = false /\ s' = s /\ exists delta g, e = Ratio delta g)).
Proof.
  unfold computeIDS; intros Hc.
  destruct (argmax_axis0 thetas) as [theta_hat|]; simpl in Hc; [|discriminate].
  destruct (foldl_opt _ _ _) as [[mu h1]|] eqn:Hloop; simpl in Hc; [|discriminate].
  destruct (heap_get1 h1 p_a) as [pa|] eqn:Hpa; simpl in Hc; [|discriminate].
  destruct (heap_get2 h1 Maap) as [Mp|] eqn:HMp; simpl in Hc; [|discriminate].
  destruct (np_max pa) as [m|] eqn:Hm; simpl in Hc; [|discriminate].
  exists theta_hat, mu, pa, Mp, m.
  destruct (fgeb m threshold) eqn:Hthr.
  - destruct (np_argmax pa) as [a|] eqn:Ha; simpl in Hc; [|discriminate].
    injection Hc as <- <- <- <- <-.
    do 6 (split; [done|]). left; auto.
  - destruct VIDS.
    + case_guard; simpl in Hc; [|discriminate].
      injection Hc as <- <- <- <- <-.
      do 6 (split; [done|]). right; eauto.
    + injection Hc as <- <- <- <- <-.
      do 6 (split; [done|]). right; eauto.
Qed.

Lemma computeIDS_flag (t : nat) (s s' : self_state) (h h' : heap) (Maap p_a pl : loc)
    (thetas : mat) (M : nat) (VIDS : bool) (arm : nat) (e : estimate num) :
  computeIDS nb_arms np_log IDSAction rd_argmax t s h Maap p_a thetas M VIDS
    = Some (arm, pl, h', s', e) ->
  flag s' = flag s.
Proof.
  intros (th & mu & pa & Mp & m & _ & _ & _ & _ & _ & _ & Hcase)%computeIDS_inv.
  destruct Hcase as [(_ & _ & -> & _)|(_ & -> & _)]; reflexivity.
Qed.
End ComputeIDSInversion.

(** ** The lock-in threshold *)

Lemma Qc_ltb_lt (a b : Qc) : Qc_ltb a b = true <-> (a < b)%Qc.
Proof.
  unfold Qc_ltb. rewrite Qclt_alt.
  destruct (a ?= b)%Qc; split; congruence.
Qed.

Lemma Qc_leb_le (a b : Qc) : Qc_leb a b = true <-> (a <= b)%Qc.
Proof.
  unfold Qc_leb. rewrite Qcle_alt.
  destruct (a ?= b)%Qc; split; congruence.
Qed.

(** C5 (amended): the grid variant locks exactly when [max(p_star)] is
    strictly above 0.99; the sampling variants ([IDS_sample], [VIDS_sample]
    and [computeIDS] itself) lock exactly when [max(p_a)] is at least 0.99,
    so a maximum equal to 0.99 locks them. *)
Theorem lock_in_thresholds (nb_arms : nat) (np_log : Qc -> Qc)
    (IDSAction : nat -> list Qc -> list Qc -> nat)
    (rd_argmax : nat -> list Qc -> nat) :
  (forall (N_steps t : nat) (s s' : self_state) (l : approx_locals Qc) (m : Qc)
          (choice : option nat) (ps : list Qc) (c : nat),
      flag s = false -> np_max (p_star l) = Some m ->
      select_approx nb_arms np_log IDSAction N_steps t s l = Some (s', choice, ps, c) ->
      (flag s' = true <-> (Q2Qc (99 # 100) < m)%Qc)) /\
  (forall (M : nat) (VIDS : bool) (t : nat) (s s' : self_state)
          (l : sample_locals Qc) (pa : list Qc) (m : Qc)
          (choice : option nat) (pl : loc) (h' : list (ndarray Qc)) (c : nat),
      flag s = false -> heap_get1 (store l) (p_a l) = Some pa -> np_max pa = Some m ->
      select_sample nb_arms np_log IDSAction rd_argmax M VIDS t s l
        = Some (s', choice, pl, h', c) ->
      (flag s' = true <-> (Q2Qc (99 # 100) <= m)%Qc)) /\
  (forall (t : nat) (s s' : self_state) (h h' : list (ndarray Qc)) (Maap p_a pl : loc)
          (thetas : list (list Qc)) (M : nat) (VIDS : bool) (arm : nat)
          (e : estimate Qc) (pa : list Qc) (m : Qc),
      computeIDS nb_arms np_log IDSAction rd_argmax t s h Maap p_a thetas M VIDS
        = Some (arm, pl, h', s', e) ->
      heap_get1 h' p_a = Some pa -> np_max pa = Some m ->
      (e = Locked <-> (Q2Qc (99 # 100) <= m)%Qc)).
Proof.
  split; [|split].
  - intros N_steps t s s' l m choice ps c Hflag Hmax Hsel.
    unfold select_approx in Hsel. rewrite Hflag, Hmax in Hsel. simpl in Hsel.
    change (fgtb m threshold) with (Qc_ltb (Q2Qc (99 # 100)) m) in Hsel.
    rewrite <- Qc_ltb_lt.
    destruct (Qc_ltb (Q2Qc (99 # 100)) m).
    + destruct (np_argmax (p_star l)); simpl in Hsel; [|discriminate].
      injection Hsel as <- _ _ _. done.
    + destruct (IR_approx _ _ _ _ _ _ _ _ _) as [[[? ?] ?] ?].
      injection Hsel as <- _ _ _. rewrite Hflag. done.
  - intros M VIDS t s s' l pa m choice pl h' c Hflag Hpa Hmax Hsel.
    unfold select_sample in Hsel. rewrite Hflag, Hpa in Hsel. simpl in Hsel.
    rewrite Hmax in Hsel. simpl in Hsel.
    change (fgeb m threshold) with (Qc_leb (Q2Qc (99 # 100)) m) in Hsel.
    rewrite <- Qc_leb_le.
    destruct (Qc_leb (Q2Qc (99 # 100)) m).
    + injection Hsel as <- _ _ _ _. done.
    + destruct (computeIDS _ _ _ _ _ _ _ _ _ _ _ _) as [[[[[arm pl'] h1] s1] e]|] eqn:Hc;
        simpl in Hsel; [|discriminate].
      apply computeIDS_flag in Hc.
      injection Hsel as <- _ _ _ _. rewrite Hc, Hflag. done.
  - intros t s s' h h' Maap p_a pl thetas M VIDS arm e pa m Hc Hpa Hmax.
    apply computeIDS_inv in Hc
      as (th & mu & pa' & Mp & m' & _ & _ & Hpa' & _ & Hm & _ & Hcase).
    rewrite Hpa in Hpa'; injection Hpa' as <-.
    rewrite Hmax in Hm; injection Hm as <-.
    rewrite <- Qc_leb_le.
    change (fgeb m threshold) with (Qc_leb (Q2Qc (99 # 100)) m) in Hcase.
    destruct Hcase as [(Hthr & _ & _ & ->)|(Hthr & _ & delta & g & ->)];
      rewrite Hthr; done.
Qed.

(** Round 0 of [IDS_approx(1, 10, [1,1], [1,1])] on a new object:
    [max(p_star)] is 0 and the object stays unlocked. *)
Lemma lock_in_thresholds_witness :
  exists (l0 : approx_locals Qc) (r : self_state * option nat * list Qc * nat),
    start_approx 2 1 10 [1; 1]%Z [1; 1]%Z init_self = Some (init_self, l0) /\
    flag init_self = false /\
    np_max (p_star l0) = Some 0%Qc /\
    select_approx 2 tangent_log (pick_arm 1) 10 0 init_self l0 = Some r /\
    (flag r.1.1.1 = true <-> (Q2Qc (99 # 100) < 0)%Qc).
Proof.
  destruct (start_approx (num := Qc) 2 1 10 [1; 1]%Z [1; 1]%Z init_self)
    as [[s0 l0]|] eqn:Hst; [|vm_compute in Hst; discriminate].
  assert (Hs0 : s0 = init_self).
  { unfold start_approx in Hst.
    destruct (init_approx _ _ _ _); simpl in Hst; [|discriminate]. congruence. }
  subst s0.
  assert (Hps : p_star l0 = [0%Qc; 0%Qc]).
  { unfold start_approx in Hst.
    destruct (init_approx _ _ _ _); simpl in Hst; [|discriminate].
    injection Hst as <-. reflexivity. }
  destruct (select_approx 2 tangent_log (pick_arm 1) 10 0 init_self l0)
    as [r|] eqn:Hsel.
  - exists l0, r.
    assert (Hmax : np_max (p_star l0) = Some 0%Qc) by (rewrite Hps; reflexivity).
    do 4 (split; [done|]).
    destruct r as [[[s' ch] ps] c].
    exact (proj1 (lock_in_thresholds 2 tangent_log (pick_arm 1) (pick_argmax 0))
             10 0 init_self s' l0 0%Qc ch ps c eq_refl Hmax Hsel).
  - exfalso. unfold select_approx in Hsel. rewrite Hps in Hsel.
    destruct (IR_approx _ _ _ _ _ _ _ _ _) as [[[? ?] ?] ?].
    vm_compute in Hsel. discriminate.
Defined.

(** C5 as stated fails for the sampling variant.  With 100 draws per arm of
    which arm 0 is the largest in 99, [computeIDS] at round 0 sets
    [p_a = [0.99, 0.01]], whose maximum equals the threshold: it takes the
    threshold branch, and round 1 of [IDS_sample] sets the flag. *)
Lemma sampling_locks_at_the_threshold :
  seen_p_a (IDS_sample 2 tangent_log always_reward (pick_arm 1) (pick_argmax 1)
              bank_99 2 100 init_self)
    = Some [99 # 100; 1 # 100]%Q /\
  seen_sample (IDS_sample 2 tangent_log always_reward (pick_arm 1) (pick_argmax 1)
                 bank_99 1 100 init_self)
    = Some (Self false (Some 0), [0], 1) /\
  seen_sample (IDS_sample 2 tangent_log always_reward (pick_arm 1) (pick_argmax 1)
                 bank_99 2 100 init_self)
    = Some (Self true (Some 0), [0; 0], 1).
Proof. repeat split; vm_compute; reflexivity. Qed.

(** ** The store: reading back what was written *)

Section StoreFacts.
Context {num : Type}.
Local Abbreviation heap := (list (ndarray num)).

Lemma heap_set1_inv (h h1 : heap) (l : loc) (i : nat) (x : num) :
  heap_set1 h l i x = Some h1 ->
  exists v, h !! l = Some (Arr1 v) /\ i < length v /\
            h1 = <[l := Arr1 (<[i := x]> v)]> h.
Proof.
  unfold heap_set1, heap_get1; intros Hs.
  destruct (h !! l) as [[v|m]|] eqn:Hl; simpl in Hs; try discriminate.
  destruct (v !! i) as [y|] eqn:Hi; simpl in Hs; [|discriminate].
  injection Hs as <-. exists v; repeat split.
  by eapply lookup_lt_Some.
Qed.

Lemma heap_set2_inv (h h1 : heap) (l : loc) (i j : nat) (x : num) :
  heap_set2 h l i j x = Some h1 ->
  exists m r, h !! l = Some (Arr2 m) /\ m !! i = Some r /\ j < length r /\
              h1 = <[l := Arr2 (<[i := <[j := x]> r]> m)]> h.
Proof.
  unfold heap_set2, heap_get2; intros Hs.
  destruct (h !! l) as [[v|m]|] eqn:Hl; simpl in Hs; try discriminate.
  destruct (m !! i) as [r|] eqn:Hi; simpl in Hs; [|discriminate].
  destruct (r !! j) as [y|] eqn:Hj; simpl in Hs; [|discriminate].
  injection Hs as <-. exists m, r; repeat split; try done.
  by eapply lookup_lt_Some.
Qed.

Lemma heap_set1_other (h h1 : heap) (l l' : loc) (i : nat) (x : num) :
  heap_set1 h l i x = Some h1 -> l' <> l -> h1 !! l' = h !! l'.
Proof.
  intros (v & _ & _ & ->)%heap_set1_inv Hne.
  apply list_lookup_insert_ne; congruence.
Qed.

Lemma heap_set2_other (h h1 : heap) (l l' : loc) (i j : nat) (x : num) :
  heap_set2 h l i j x = Some h1 -> l' <> l -> h1 !! l' = h !! l'.
Proof.
  intros (m & r & _ & _ & _ & ->)%heap_set2_inv Hne.
  apply list_lookup_insert_ne; congruence.
Qed.

Lemma heap_set1_length (h h1 : heap) (l : loc) (i : nat) (x : num) :
  heap_set1 h l i x = Some h1 -> length h1 = length h.
Proof. intros (v & _ & _ & ->)%heap_set1_inv. apply length_insert. Qed.

Lemma heap_set2_length (h h1 : heap) (l : loc) (i j : nat) (x : num) :
  heap_set2 h l i j x = Some h1 -> length h1 = length h.
Proof. intros (m & r & _ & _ & _ & ->)%heap_set2_inv. apply length_insert. Qed.

Lemma heap_set1_cell_eq (h h1 : heap) (l : loc) (i : nat) (x : num) :
  heap_set1 h l i x = Some h1 -> cell1 h1 l i = Some x.
Proof.
  intros (v & Hl & Hi & ->)%heap_set1_inv.
  unfold cell1, heap_get1.
  rewrite list_lookup_insert_eq by (by eapply lookup_lt_Some).
  simpl. by apply list_lookup_insert_eq.
Qed.

Lemma heap_set1_cell_ne (h h1 : heap) (l l' : loc) (i i' : nat) (x : num) :
  heap_set1 h l i x = Some h1 -> l' <> l \/ i' <> i ->
  cell1 h1 l' i' = cell1 h l' i'.
Proof.
  intros Hs Hne. destruct (decide (l' = l)) as [->|Hl].
  - apply heap_set1_inv in Hs as (v & Hl & Hi & ->).
    unfold cell1, heap_get1.
    rewrite list_lookup_insert_eq by (by eapply lookup_lt_Some).
    rewrite Hl; simpl. apply list_lookup_insert_ne. intuition congruence.
  - unfold cell1, heap_get1. by rewrite (heap_set1_other _ _ _ _ _ _ Hs Hl).
Qed.

Lemma heap_set1_cell2 (h h1 : heap) (l l' : loc) (i i' j' : nat) (x : num) :
  heap_set1 h l i x = Some h1 -> cell2 h1 l' i' j' = cell2 h l' i' j'.
Proof.
  intros Hs. destruct (decide (l' = l)) as [->|Hl].
  - apply heap_set1_inv in Hs as (v & Hl & Hi & ->).
    unfold cell2, heap_get2.
    rewrite list_lookup_insert_eq by (by eapply lookup_lt_Some).
    by rewrite Hl.
  - unfold cell2, heap_get2. by rewrite (heap_set1_other _ _ _ _ _ _ Hs Hl).
Qed.

Lemma heap_set2_cell_eq (h h1 : heap) (l : loc) (i j : nat) (x : num) :
  heap_set2 h l i j x = Some h1 -> cell2 h1 l i j = Some x.
Proof.
  intros (m & r & Hl & Hi & Hj & ->)%heap_set2_inv.
  unfold cell2, heap_get2.
  rewrite list_lookup_insert_eq by (by eapply lookup_lt_Some).
  simpl. rewrite list_lookup_insert_eq by (by eapply lookup_lt_Some).
  simpl. by apply list_lookup_insert_eq.
Qed.

Lemma heap_set2_cell_ne (h h1 : heap) (l l' : loc) (i j i' j' : nat) (x : num) :
  heap_set2 h l i j x = Some h1 -> l' <> l \/ i' <> i \/ j' <> j ->
  cell2 h1 l' i' j' = cell2 h l' i' j'.
Proof.
  intros Hs Hne. destruct (decide (l' = l)) as [->|Hl].
  - apply heap_set2_inv in Hs as (m & r & Hl & Hi & Hj & ->).
    unfold cell2, heap_get2.
    rewrite list_lookup_insert_eq by (by eapply lookup_lt_Some).
    rewrite Hl; simpl.
    destruct (decide (i' = i)) as [->|Hi'].
    + rewrite list_lookup_insert_eq by (by eapply lookup_lt_Some).
      rewrite Hi; simpl. apply list_lookup_insert_ne. intuition congruence.
    + by rewrite list_lookup_insert_ne by congruence.
  - unfold cell2, heap_get2. by rewrite (heap_set2_other _ _ _ _ _ _ _ Hs Hl).
Qed.

Lemma heap_set2_cell1 (h h1 : heap) (l l' : loc) (i j i' : nat) (x : num) :
  heap_set2 h l i j x = Some h1 -> cell1 h1 l' i' = cell1 h l' i'.
Proof.
  intros Hs. destruct (decide (l' = l)) as [->|Hl].
  - apply heap_set2_inv in Hs as (m & r & Hl & Hi & Hj & ->).
    unfold cell1, heap_get1.
    rewrite list_lookup_insert_eq by (by eapply lookup_lt_Some).
    by rewrite Hl.
  - unfold cell1, heap_get1. by rewrite (heap_set2_other _ _ _ _ _ _ _ Hs Hl).
Qed.
End StoreFacts.

Lemma foldl_opt_snoc {S A : Type} (f : S -> A -> option S) (st : S) (l : list A) (x : A) :
  foldl_opt f st (l ++ [x]) = foldl_opt f st l ≫= fun s => f s x.
Proof. unfold foldl_opt. by rewrite foldl_app. Qed.

(** ** What the loops of [computeIDS] write *)

Section ComputeIDSLoops.
Context {num : Type} `{NumOps num}.
Local Open Scope num_scope.
Local Abbreviation vec := (list num).
Local Abbreviation mat := (list (list num)).
Local Abbreviation heap := (list (ndarray num)).

Variable nb_arms : nat.
Variables Maap p_a : loc.
Variable thetas : mat.
Variable theta_hat : list nat.
Variable M : nat.

Lemma computeIDS_inner_spec (a ap : nat) (h h' : heap) :
  computeIDS_inner Maap p_a thetas theta_hat M a h ap = Some h' ->
  ap < length thetas /\
  cell2 h' Maap ap a = Some (Maap_value thetas theta_hat ap a) /\
  (forall l i j, l <> Maap \/ i <> ap \/ j <> a -> cell2 h' l i j = cell2 h l i j) /\
  (ap = a -> cell1 h' p_a a = Some (p_a_value thetas theta_hat M a) /\ M <> 0) /\
  (forall l i, l <> p_a \/ i <> a \/ ap <> a -> cell1 h' l i = cell1 h l i) /\
  (forall l, l <> Maap -> l <> p_a -> h' !! l = h !! l) /\
  length h' = length h.
Proof.
  unfold computeIDS_inner; intros Hi.
  destruct (thetas !! ap) as [r|] eqn:Hr; simpl in Hi; [|discriminate].
  assert (Hnth : nth ap thetas [] = r) by (by apply nth_lookup_Some with (d := [])).
  destruct (heap_set2 h Maap ap a _) as [h1|] eqn:Hs2; simpl in Hi; [|discriminate].
  split; [by eapply lookup_lt_Some|].
  case_bool_decide as Hap.
  - case_guard as HM; simpl in Hi; [|discriminate].
    subst ap. repeat split.
    + rewrite (heap_set1_cell2 _ _ _ _ _ _ _ _ Hi).
      unfold Maap_value, draws_where. rewrite Hnth.
      by apply (heap_set2_cell_eq _ _ _ _ _ _ Hs2).
    + intros l i j Hne. rewrite (heap_set1_cell2 _ _ _ _ _ _ _ _ Hi).
      by apply (heap_set2_cell_ne _ _ _ _ _ _ _ _ _ Hs2).
    + unfold p_a_value, draws_where. rewrite Hnth.
      by apply (heap_set1_cell_eq _ _ _ _ _ Hi).
    + done.
    + intros l i Hne. rewrite (heap_set1_cell_ne _ _ _ l _ i _ Hi) by intuition.
      by apply (heap_set2_cell1 _ _ _ _ _ _ _ _ Hs2).
    + intros l Hl1 Hl2. rewrite (heap_set1_other _ _ _ _ _ _ Hi Hl2).
      by apply (heap_set2_other _ _ _ _ _ _ _ Hs2).
    + rewrite (heap_set1_length _ _ _ _ _ Hi).
      by apply (heap_set2_length _ _ _ _ _ _ Hs2).
  - injection Hi as <-. repeat split.
    + unfold Maap_value, draws_where. rewrite Hnth.
      by apply (heap_set2_cell_eq _ _ _ _ _ _ Hs2).
    + intros l i j Hne. by apply (heap_set2_cell_ne _ _ _ _ _ _ _ _ _ Hs2).
    + done.
    + done.
    + intros l i _. by apply (heap_set2_cell1 _ _ _ _ _ _ _ _ Hs2).
    + intros l Hl1 Hl2. by apply (heap_set2_other _ _ _ _ _ _ _ Hs2).
    + by apply (heap_set2_length _ _ _ _ _ _ Hs2).
Qed.

Lemma computeIDS_inner_loop (a n : nat) (h h' : heap) :
  foldl_opt (computeIDS_inner Maap p_a thetas theta_hat M a) h (seq 0 n) = Some h' ->
  n <= length thetas /\
  (forall ap, ap < n -> cell2 h' Maap ap a = Some (Maap_value thetas theta_hat ap a)) /\
  (forall l i j, l <> Maap \/ n <= i \/ j <> a -> cell2 h' l i j = cell2 h l i j) /\
  (a < n -> cell1 h' p_a a = Some (p_a_value thetas theta_hat M a) /\ M <> 0) /\
  (forall l i, l <> p_a \/ i <> a \/ n <= a -> cell1 h' l i = cell1 h l i) /\
  (forall l, l <> Maap -> l <> p_a -> h' !! l = h !! l) /\
  length h' = length h.
Proof.
  revert h'. induction n as [|n IH]; intros h' Hl.
  - injection Hl as <-. repeat split; auto with lia.
  - rewrite seq_S, foldl_opt_snoc in Hl. simpl in Hl.
    destruct (foldl_opt _ h (seq 0 n)) as [hm|] eqn:Hm; simpl in Hl; [|discriminate].
    destruct (IH hm eq_refl) as (Hlen & Hc2 & Hf2 & Hc1 & Hf1 & Ho & Hsz).
    destruct (computeIDS_inner_spec a n hm h' Hl)
      as (Hn & Sc2 & Sf2 & Sc1 & Sf1 & So & Ssz).
    repeat split.
    + lia.
    + intros ap Hap. destruct (decide (ap = n)) as [->|Hne]; [done|].
      rewrite Sf2 by auto. apply Hc2. lia.
    + intros l i j Hne. rewrite Sf2 by (intuition lia). apply Hf2. intuition lia.
    + destruct (decide (a = n)) as [->|Hne'].
      * by apply Sc1.
      * rewrite Sf1 by auto. apply Hc1. lia.
    + destruct (decide (a = n)) as [->|Hne'].
      * by apply Sc1.
      * apply Hc1. lia.
    + intros l i Hne. rewrite Sf1 by (intuition lia). apply Hf1. intuition lia.
    + intros l Hl1 Hl2. rewrite So by done. by apply Ho.
    + congruence.
Qed.

Lemma computeIDS_outer_loop (k : nat) (mu0 mu : vec) (h h' : heap) :
  k <= nb_arms ->
  foldl_opt (computeIDS_outer nb_arms Maap p_a thetas theta_hat M) (mu0, h) (seq 0 k)
    = Some (mu, h') ->
  (0 < k -> nb_arms <= length thetas) /\
  (forall a ap, a < k -> ap < nb_arms -> cell2 h' Maap ap a = Some (Maap_value thetas theta_hat ap a)) /\
  (forall l i j, l <> Maap \/ nb_arms <= i \/ k <= j ->
                 cell2 h' l i j = cell2 h l i j) /\
  (forall a, a < k -> cell1 h' p_a a = Some (p_a_value thetas theta_hat M a) /\ M <> 0) /\
  (forall l i, l <> p_a \/ k <= i -> cell1 h' l i = cell1 h l i) /\
  (forall l, l <> Maap -> l <> p_a -> h' !! l = h !! l) /\
  length h' = length h.
Proof.
  revert mu h'. induction k as [|k IH]; intros mu h' Hk Hl.
  - injection Hl as <- <-. repeat split; auto with lia.
  - rewrite seq_S, foldl_opt_snoc in Hl. simpl in Hl.
    destruct (foldl_opt _ (mu0, h) (seq 0 k)) as [[mum hm]|] eqn:Hm;
      simpl in Hl; [|discriminate].
    destruct (IH mum hm ltac:(lia) eq_refl) as (Hlen & Hc2 & Hf2 & Hc1 & Hf1 & Ho & Hsz).
    unfold computeIDS_outer in Hl. simpl in Hl.
    destruct (thetas !! k) as [r|]; simpl in Hl; [|discriminate].
    destruct (foldl_opt _ hm (seq 0 nb_arms)) as [h1|] eqn:Hin; simpl in Hl;
      [|discriminate].
    injection Hl as <- <-.
    destruct (computeIDS_inner_loop k nb_arms hm h1 Hin)
      as (Ilen & Ic2 & If2 & Ic1 & If1 & Io & Isz).
    repeat split.
    + done.
    + intros a ap Ha Hap. destruct (decide (a = k)) as [->|Hne]; [by apply Ic2|].
      rewrite If2 by auto. apply Hc2; lia.
    + intros l i j Hne. rewrite If2 by (intuition lia). apply Hf2. intuition lia.
    + destruct (decide (a = k)) as [->|Hne]; [apply Ic1; lia|].
      rewrite If1 by auto. apply Hc1. lia.
    + destruct (decide (a = k)) as [->|Hne].
      * by destruct (Ic1 ltac:(lia)).
      * by destruct (Hc1 a ltac:(lia)).
    + intros l i Hne. rewrite If1 by (intuition lia). apply Hf1. intuition lia.
    + intros l Hl1 Hl2. rewrite Io by done. by apply Ho.
    + congruence.
Qed.
End ComputeIDSLoops.

(** ** [computeIDS] writes through its arguments *)

(** C10: [computeIDS] returns the array [p_a] it was passed, and after the
    call the caller's arrays hold the recomputed values: [Maap[ap, a]] is the
    [nan_to_num] of the mean of the draws of [ap] at which [a] is the largest,
    [p_a[a]] is their share; the rest of the store and the flag are as
    before.  When the recomputed [max(p_a)] is at least the threshold it sets
    [optimal_arm] to [argmax(p_a)] and returns that arm, computing neither
    [delta] nor [g].  In [IDS_sample]/[VIDS_sample] such a round leaves the
    flag false, and the next round sets it and pulls that arm without
    calling [computeIDS]. *)
Theorem computeIDS_writes_through {num : Type} `{NumOps num} (nb_arms : nat)
    (np_log : num -> num) (sample : nat -> nat -> bool)
    (IDSAction : nat -> list num -> list num -> nat)
    (rd_argmax : nat -> list num -> nat)
    (np_random_beta : nat -> nat -> num -> num -> nat -> list num) :
  (forall (t : nat) (s s' : self_state) (h h' : list (ndarray num)) (Maap p_a pl : loc)
          (thetas : list (list num)) (M : nat) (VIDS : bool) (arm : nat)
          (e : estimate num),
      computeIDS nb_arms np_log IDSAction rd_argmax t s h Maap p_a thetas M VIDS
        = Some (arm, pl, h', s', e) ->
      exists theta_hat : list nat,
        argmax_axis0 thetas = Some theta_hat /\
        pl = p_a /\
        (forall a ap : nat, a < nb_arms -> ap < nb_arms ->
           cell2 h' Maap ap a = Some (Maap_value thetas theta_hat ap a)) /\
        (forall a : nat, a < nb_arms ->
           cell1 h' p_a a = Some (p_a_value thetas theta_hat M a)) /\
        (forall l : loc, l <> Maap -> l <> p_a -> h' !! l = h !! l) /\
        flag s' = flag s /\
        (forall (pa : list num) (m : num),
           heap_get1 h' p_a = Some pa -> np_max pa = Some m ->
           fgeb m threshold = true ->
           np_argmax pa = Some arm /\ optimal_arm s' = Some arm /\ e = Locked)) /\
  (forall (M : nat) (VIDS : bool) (t : nat) (s s1 : self_state)
          (l l1 : sample_locals num) (pa : list num) (m : num),
      flag s = false ->
      round_sample nb_arms np_log sample IDSAction rd_argmax np_random_beta
                   M VIDS t (s, l) = Some (s1, l1) ->
      ids_calls l1 = S (ids_calls l) ->
      heap_get1 (store l1) (p_a l1) = Some pa -> np_max pa = Some m ->
      fgeb m threshold = true ->
      flag s1 = false /\ optimal_arm s1 = np_argmax pa /\
      arm_sequence (shistory l1) !! t = np_argmax pa /\
      forall (s2 : self_state) (l2 : sample_locals num),
        round_sample nb_arms np_log sample IDSAction rd_argmax np_random_beta
                     M VIDS (S t) (s1, l1) = Some (s2, l2) ->
        flag s2 = true /\ optimal_arm s2 = optimal_arm s1 /\
        arm_sequence (shistory l2) !! (S t) = optimal_arm s1 /\
        ids_calls l2 = ids_calls l1).
Proof.
  split.
  - intros t s s' h h' Maap p_a pl thetas M VIDS arm e Hc.
    pose proof Hc as Hflag. apply computeIDS_flag in Hflag.
    apply computeIDS_inv in Hc
      as (th & mu & pa & Mp & m & Hth & Hloop & Hpa & HMp & Hm & -> & Hcase).
    destruct (computeIDS_outer_loop nb_arms Maap p_a thetas th M nb_arms _ _ _ _
                (le_n _) Hloop) as (_ & Hc2 & _ & Hc1 & _ & Ho & _).
    exists th. do 2 (split; [done|]). split; [done|].
    split; [intros a Ha; by destruct (Hc1 a Ha)|].
    do 2 (split; [done|]).
    intros pa' m' Hpa' Hm' Hthr.
    rewrite Hpa in Hpa'; injection Hpa' as <-.
    rewrite Hm in Hm'; injection Hm' as <-.
    destruct Hcase as [(_ & Ha & -> & ->)|(Hno & _)]; [done|congruence].
  - intros M VIDS t s s1 l l1 pa m Hflag Hr Hcalls Hpa Hm Hthr.
    apply round_sample_inv in Hr as (k & hist & Hsel & Hu & Hh & HMaap).
    unfold select_sample in Hsel. rewrite Hflag in Hsel. simpl in Hsel.
    destruct (heap_get1 (store l) (p_a l)) as [pa0|]; simpl in Hsel; [|discriminate].
    destruct (np_max pa0) as [m0|]; simpl in Hsel; [|discriminate].
    destruct (fgeb m0 threshold).
    { injection Hsel as _ _ _ _ Hc. lia. }
    destruct (computeIDS _ _ _ _ _ _ _ _ _ _ _ _) as [[[[[arm pl] h'] s'] e]|] eqn:Hc;
      simpl in Hsel; [|discriminate].
    injection Hsel as -> <- Hpl Hh' _.
    pose proof Hc as Hfl. apply computeIDS_flag in Hfl.
    apply computeIDS_inv in Hc
      as (th & mu & pa' & Mp & m' & _ & _ & Hpa' & _ & Hm' & -> & Hcase).
    rewrite <- Hh', <- Hpl in Hpa. rewrite Hpa in Hpa'; injection Hpa' as <-.
    rewrite Hm in Hm'; injection Hm' as <-.
    destruct Hcase as [(_ & Ha & Hs1 & _)|(Hno & _)]; [|congruence].
    assert (Hopt : optimal_arm s1 = np_argmax pa) by (by rewrite Hs1, Ha).
    split; [congruence|]. split; [done|].
    split; [rewrite Hh, Ha; by eapply update_lists_pulled|].
    intros s2 l2 Hr2.
    apply round_sample_inv in Hr2 as (k2 & hist2 & Hsel2 & Hu2 & Hh2 & _).
    unfold select_sample in Hsel2.
    rewrite Hfl, Hflag in Hsel2. simpl in Hsel2.
    rewrite <- Hh', <- Hpl, Hpa in Hsel2. simpl in Hsel2.
    rewrite Hm in Hsel2. simpl in Hsel2. rewrite Hthr in Hsel2.
    injection Hsel2 as <- Hk2 _ _ Hc2.
    simpl. rewrite Hk2, Hh2.
    repeat split; [by eapply update_lists_pulled|done].
Qed.

Lemma computeIDS_writes_through_witness :
  exists (arm : nat) (pl : loc) (h' : list (ndarray Qc)) (s' : self_state)
         (e : estimate Qc),
    computeIDS 2 tangent_log (pick_arm 1) (pick_argmax 1) 0 init_self
               [Arr2 [[0%Qc; 0%Qc]; [0%Qc; 0%Qc]]; Arr1 [0%Qc; 0%Qc]] 0 1
               thetas_99 100 false = Some (arm, pl, h', s', e) /\
    pl = 1 /\ flag s' = flag init_self /\
    cell1 h' 1 0 = Some (p_a_value thetas_99 (replicate 99 0 ++ [1]) 100 0).
Proof.
  destruct (computeIDS 2 tangent_log (pick_arm 1) (pick_argmax 1) 0 init_self
              [Arr2 [[0%Qc; 0%Qc]; [0%Qc; 0%Qc]]; Arr1 [0%Qc; 0%Qc]] 0 1
              thetas_99 100 false) as [[[[[arm pl] h'] s'] e]|] eqn:Hc;
    [|vm_compute in Hc; discriminate].
  exists arm, pl, h', s', e. split; [reflexivity|].
  destruct (proj1 (computeIDS_writes_through 2 tangent_log always_reward (pick_arm 1)
                     (pick_argmax 1) bank_99) _ _ _ _ _ _ _ _ _ _ _ _ _ Hc)
    as (th & Hth & Hpl & _ & Hpa & _ & Hfl & _).
  assert (th = replicate 99 0 ++ [1]) as ->.
  { vm_compute in Hth. injection Hth as <-. reflexivity. }
  split; [done|]. split; [done|]. apply Hpa. lia.
Defined.

(** ** [computeIDS] returns on well-shaped arguments *)

Section ComputeIDSTotal.
Context {num : Type} `{NumOps num}.
Local Open Scope num_scope.
Local Abbreviation vec := (list num).
Local Abbreviation mat := (list (list num)).
Local Abbreviation heap := (list (ndarray num)).

Variable nb_arms : nat.
Variable np_log : num -> num.
Variable IDSAction : nat -> vec -> vec -> nat.
Variable rd_argmax : nat -> vec -> nat.
Variables Maap p_a : loc.
Variable thetas : mat.
Variable theta_hat : list nat.
Variable M : nat.

Lemma shapes_ok_distinct (h : heap) : shapes_ok nb_arms Maap p_a h -> Maap <> p_a.
Proof. intros (Mp & pa & HM & _ & _ & Hp & _) Heq. congruence. Qed.

Lemma heap_set2_total (h : heap) (i j : nat) (x : num) :
  shapes_ok nb_arms Maap p_a h -> i < nb_arms -> j < nb_arms ->
  exists h', heap_set2 h Maap i j x = Some h' /\ shapes_ok nb_arms Maap p_a h'.
Proof.
  intros Hok Hi Hj. pose proof (shapes_ok_distinct h Hok) as Hne.
  destruct Hok as (Mp & pa & HM & HlM & Hrows & Hp & Hlp).
  destruct (lookup_lt_is_Some_2 Mp i ltac:(lia)) as [r Hr].
  assert (Hlr : length r = nb_arms).
  { by apply (Forall_lookup_1 _ _ _ _ Hrows Hr). }
  destruct (lookup_lt_is_Some_2 r j ltac:(lia)) as [y Hy].
  unfold heap_set2, heap_get2. rewrite HM; simpl. rewrite Hr; simpl. rewrite Hy; simpl.
  eexists; split; [reflexivity|].
  exists (<[i := <[j := x]> r]> Mp), pa. repeat split.
  - apply list_lookup_insert_eq. by eapply lookup_lt_Some.
  - by rewrite length_insert.
  - apply Forall_insert; [done|]. by rewrite length_insert.
  - rewrite list_lookup_insert_ne by done. done.
  - done.
Qed.

Lemma heap_set1_total (h : heap) (i : nat) (x : num) :
  shapes_ok nb_arms Maap p_a h -> i < nb_arms ->
  exists h', heap_set1 h p_a i x = Some h' /\ shapes_ok nb_arms Maap p_a h'.
Proof.
  intros Hok Hi. pose proof (shapes_ok_distinct h Hok) as Hne.
  destruct Hok as (Mp & pa & HM & HlM & Hrows & Hp & Hlp).
  destruct (lookup_lt_is_Some_2 pa i ltac:(lia)) as [y Hy].
  unfold heap_set1, heap_get1. rewrite Hp; simpl. rewrite Hy; simpl.
  eexists; split; [reflexivity|].
  exists Mp, (<[i := x]> pa). repeat split; try done.
  - rewrite list_lookup_insert_ne by done. done.
  - apply list_lookup_insert_eq. by eapply lookup_lt_Some.
  - by rewrite length_insert.
Qed.

Hypothesis HM : M <> 0.
Hypothesis Hthetas : length thetas = nb_arms.

Lemma computeIDS_inner_total (a ap : nat) (h : heap) :
  shapes_ok nb_arms Maap p_a h -> a < nb_arms -> ap < nb_arms ->
  exists h', computeIDS_inner Maap p_a thetas theta_hat M a h ap = Some h' /\
             shapes_ok nb_arms Maap p_a h'.
Proof.
  intros Hok Ha Hap. unfold computeIDS_inner.
  destruct (lookup_lt_is_Some_2 thetas ap ltac:(lia)) as [r Hr].
  rewrite Hr; simpl.
  destruct (heap_set2_total h ap a
              (fnan_to_num (np_mean (take_draws r (where_eq theta_hat a))))
              Hok Hap Ha) as (h1 & Hs2 & Hok1).
  rewrite Hs2; simpl.
  case_bool_decide; [|by exists h1].
  case_guard; [simpl|done].
  by apply heap_set1_total.
Qed.

Lemma computeIDS_inner_loop_total (a n : nat) (h : heap) :
  shapes_ok nb_arms Maap p_a h -> a < nb_arms -> n <= nb_arms ->
  exists h', foldl_opt (computeIDS_inner Maap p_a thetas theta_hat M a) h (seq 0 n)
             = Some h' /\ shapes_ok nb_arms Maap p_a h'.
Proof.
  intros Hok Ha. induction n as [|n IH]; intros Hn.
  - by exists h.
  - destruct (IH ltac:(lia)) as (hm & Hm & Hokm).
    rewrite seq_S, foldl_opt_snoc, Hm. simpl.
    apply computeIDS_inner_total; [done|done|lia].
Qed.

Lemma computeIDS_outer_loop_total (k : nat) (mu0 : vec) (h : heap) :
  shapes_ok nb_arms Maap p_a h -> k <= nb_arms -> length mu0 = nb_arms ->
  exists mu h',
    foldl_opt (computeIDS_outer nb_arms Maap p_a thetas theta_hat M) (mu0, h) (seq 0 k)
      = Some (mu, h') /\ shapes_ok nb_arms Maap p_a h' /\ length mu = nb_arms.
Proof.
  intros Hok Hk Hmu. induction k as [|k IH].
  - by exists mu0, h.
  - destruct (IH ltac:(lia)) as (mum & hm & Hm & Hokm & Hlm).
    rewrite seq_S, foldl_opt_snoc, Hm. simpl.
    unfold computeIDS_outer. simpl.
    destruct (lookup_lt_is_Some_2 thetas k ltac:(lia)) as [r Hr].
    rewrite Hr; simpl.
    destruct (computeIDS_inner_loop_total k nb_arms hm Hokm ltac:(lia) (le_n _))
      as (h1 & Hin & Hok1).
    rewrite Hin; simpl.
    eexists _, h1. split; [reflexivity|]. split; [done|].
    by rewrite length_insert.
Qed.
End ComputeIDSTotal.

Section ComputeIDSReturns.
Context {num : Type} `{NumOps num}.
Local Open Scope num_scope.
Local Abbreviation vec := (list num).
Local Abbreviation mat := (list (list num)).
Local Abbreviation heap := (list (ndarray num)).

Variable nb_arms : nat.
Variable np_log : num -> num.
Variable IDSAction : nat -> vec -> vec -> nat.
Variable rd_argmax : nat -> vec -> nat.

Lemma np_max_is_Some (a : vec) : a <> [] -> is_Some (np_max a).
Proof. destruct a; [done|]. intros _. by eexists. Qed.

Lemma np_argmax_is_Some (a : vec) : a <> [] -> is_Some (np_argmax a).
Proof. destruct a; [done|]. intros _. by eexists. Qed.

Lemma argmax_axis0_is_Some (thetas : mat) :
  thetas <> [] -> is_Some (argmax_axis0 thetas).
Proof.
  destruct thetas as [|r rest]; [done|]. intros _.
  unfold argmax_axis0. apply mapM_is_Some.
  apply Forall_forall. intros j _. simpl. by eexists.
Qed.

(** The draws at which arm [a] is the largest, read from [theta_hat]. *)
Lemma argmax_axis0_lookup (thetas : mat) (theta_hat : list nat) (j a : nat) :
  argmax_axis0 thetas = Some theta_hat ->
  theta_hat !! j = Some a ->
  np_argmax (column thetas j) = Some a /\ j < length (nth 0 thetas []).
Proof.
  destruct thetas as [|r rest]; [done|]. unfold argmax_axis0.
  intros Hm%mapM_Some Hj.
  destruct (Forall2_lookup_r _ _ _ _ _ Hm Hj) as (j' & Hj' & Ha).
  apply lookup_seq in Hj' as [-> Hlt]. simpl in *. done.
Qed.

Lemma computeIDS_returns (t : nat) (s : self_state) (h : heap) (Maap p_a : loc)
    (thetas : mat) (M : nat) (VIDS : bool) :
  0 < nb_arms -> M <> 0 -> length thetas = nb_arms ->
  shapes_ok nb_arms Maap p_a h ->
  is_Some (computeIDS nb_arms np_log IDSAction rd_argmax t s h Maap p_a thetas M VIDS).
Proof.
  intros HK HM Hth Hok. unfold computeIDS.
  destruct (argmax_axis0_is_Some thetas) as [theta_hat Hhat].
  { intros ->. simpl in Hth. lia. }
  rewrite Hhat; simpl.
  destruct (computeIDS_outer_loop_total nb_arms Maap p_a thetas theta_hat M HM Hth
              nb_arms (map np_mean thetas) h Hok (le_n _))
    as (mu & h' & Hloop & Hok' & Hmu).
  { by rewrite length_map. }
  rewrite Hloop; simpl.
  destruct Hok' as (Mp & pa & HMp & _ & _ & Hpa & Hlpa).
  unfold heap_get1, heap_get2. rewrite Hpa, HMp; simpl.
  destruct (np_max_is_Some pa) as [m Hm].
  { intros ->. simpl in Hlpa. lia. }
  rewrite Hm; simpl.
  destruct (fgeb m threshold).
  - destruct (np_argmax_is_Some pa) as [arm Harm].
    { intros ->. simpl in Hlpa. lia. }
    rewrite Harm; simpl. by eexists.
  - destruct VIDS; [|by eexists].
    case_guard as Hlen; simpl; [by eexists|].
    exfalso. apply Hlen. by rewrite !length_map, length_seq.
Qed.
End ComputeIDSReturns.

(** ** Arms that are the largest in no draw *)

Lemma filter_none {A : Type} (P : A -> Prop) `{forall x, Decision (P x)} (l : list A) :
  (forall x, x ∈ l -> ~ P x) -> filter P l = [].
Proof.
  induction l as [|x l IH]; intros Hall; [done|].
  rewrite filter_cons_False by (apply Hall; left).
  apply IH. intros y Hy. apply Hall. by right.
Qed.

Lemma Z2Qc_nonzero (n : nat) : n <> 0 -> Qc_is0 (Z2Qc (Z.of_nat n)) = false.
Proof.
  intros Hn. unfold Qc_is0, Qc_eqb.
  destruct (Z2Qc (Z.of_nat n) ?= 0)%Qc eqn:Hcmp; try reflexivity.
  exfalso. apply Qceq_alt in Hcmp.
  apply (f_equal this) in Hcmp. unfold Z2Qc in Hcmp. simpl in Hcmp.
  unfold Qred in Hcmp. simpl in Hcmp.
  destruct (Z.ggcd (Z.of_nat n) 1) as [g [aa bb]] eqn:Hg.
  pose proof (Z.ggcd_correct_divisors (Z.of_nat n) 1) as Hd.
  rewrite Hg in Hd. destruct Hd as [Hd1 Hd2].
  simpl in Hcmp. injection Hcmp as Haa _. subst aa. lia.
Qed.

(** [np.mean] of an empty array is NaN, which [np.nan_to_num] turns into 0. *)
Lemma np_mean_nil_xnum : np_mean (@nil xnum) = NaN.
Proof. reflexivity. Qed.

Lemma xnan_to_num_mean_nil : fnan_to_num (np_mean (@nil xnum)) = Fin 0%Qc.
Proof. reflexivity. Qed.

Lemma zero_share_xnum (M : nat) :
  M <> 0 -> fdiv (of_nat 0) (of_nat M) = Fin 0%Qc.
Proof.
  intros HM. unfold of_nat, of_Z. simpl.
  rewrite (Z2Qc_nonzero M HM). f_equal.
  unfold Qcdiv. apply Qcmult_0_l.
Qed.

(** C9: on well-shaped arguments ([M >= 1] draws for each of the [nb_arms]
    arms, [Maap] of shape [nb_arms x nb_arms], [p_a] of [nb_arms] entries)
    [computeIDS] returns; and for an arm [a] that is the largest in no draw,
    every [Maap[ap, a]] it leaves is 0 (the mean of the empty selection is
    NaN, which [nan_to_num] replaces by 0) and [p_a[a]] is 0. *)
Theorem empty_subset_gives_zero (nb_arms : nat) (np_log : xnum -> xnum)
    (IDSAction : nat -> list xnum -> list xnum -> nat)
    (rd_argmax : nat -> list xnum -> nat)
    (t : nat) (s : self_state) (h : list (ndarray xnum)) (Maap p_a : loc)
    (thetas : list (list xnum)) (M : nat) (VIDS : bool) :
  M <> 0 -> length thetas = nb_arms ->
  Forall (fun r => length r = M) thetas ->
  shapes_ok nb_arms Maap p_a h ->
  forall a : nat, a < nb_arms ->
    (forall j : nat, j < M -> np_argmax (column thetas j) <> Some a) ->
    exists (arm : nat) (pl : loc) (h' : list (ndarray xnum)) (s' : self_state)
           (e : estimate xnum),
      computeIDS nb_arms np_log IDSAction rd_argmax t s h Maap p_a thetas M VIDS
        = Some (arm, pl, h', s', e) /\
      (forall ap : nat, ap < nb_arms -> cell2 h' Maap ap a = Some (Fin 0%Qc)) /\
      cell1 h' p_a a = Some (Fin 0%Qc).
Proof.
  intros HM Hlen Hrows Hok a Ha Hnone.
  destruct (computeIDS_returns nb_arms np_log IDSAction rd_argmax t s h Maap p_a
              thetas M VIDS ltac:(lia) HM Hlen Hok) as [[[[[arm pl] h'] s'] e] Hc].
  exists arm, pl, h', s', e. split; [exact Hc|].
  apply computeIDS_inv in Hc
    as (th & mu & pa & Mp & m & Hth & Hloop & _ & _ & _ & _ & _).
  destruct (computeIDS_outer_loop nb_arms Maap p_a thetas th M nb_arms _ _ _ _
              (le_n _) Hloop) as (_ & Hc2 & _ & Hc1 & _ & _ & _).
  assert (Hempty : where_eq th a = []).
  { unfold where_eq. apply filter_none. intros j Hj Hja.
    destruct (argmax_axis0_lookup thetas th j a Hth Hja) as [Harg Hlt].
    apply (Hnone j); [|done].
    destruct thetas as [|r rest]; [simpl in Hlt; lia|].
    simpl in Hlt. by rewrite (Forall_inv Hrows) in Hlt. }
  split.
  - intros ap Hap. rewrite (Hc2 a ap Ha Hap).
    unfold Maap_value, draws_where. rewrite Hempty. done.
  - destruct (Hc1 a Ha) as [-> _].
    unfold p_a_value, draws_where. rewrite Hempty. simpl length.
    by rewrite (zero_share_xnum M HM).
Qed.

Lemma empty_subset_gives_zero_witness :
  exists (arm : nat) (pl : loc) (h' : list (ndarray xnum)) (s' : self_state)
         (e : estimate xnum),
    computeIDS 2 (fun x : xnum => x) (fun _ _ _ => 0) (fun _ _ => 0) 0 init_self
               store_zeros 0 1 thetas_arm0 2 false
      = Some (arm, pl, h', s', e) /\
    (forall ap : nat, ap < 2 -> cell2 h' 0 ap 1 = Some (Fin 0%Qc)) /\
    cell1 h' 1 1 = Some (Fin 0%Qc).
Proof.
  apply (empty_subset_gives_zero 2 (fun x : xnum => x) (fun _ _ _ => 0)
           (fun _ _ => 0) 0 init_self store_zeros 0 1 thetas_arm0 2 false).
  - lia.
  - reflexivity.
  - repeat constructor.
  - exists [[Fin 0%Qc; Fin 0%Qc]; [Fin 0%Qc; Fin 0%Qc]], [Fin 0%Qc; Fin 0%Qc].
    repeat split; repeat constructor.
  - lia.
  - intros j Hj. destruct j as [|[|j]]; [vm_compute; discriminate ..|lia].
Defined.

(** With no draw at all ([M = 0]) the division [t.shape[1]/M] of Python
    integers raises [ZeroDivisionError]. *)
Lemma computeIDS_without_draws_raises :
  computeIDS 2 (fun x : xnum => x) (fun _ _ _ => 0) (fun _ _ => 0) 0 init_self
             store_zeros 0 1 [[]; []] 0 false = None.
Proof. reflexivity. Qed.

(** ** The probability of being optimal, as the grid estimator computes it *)

Lemma foldl_if_filter {A B : Type} (P : B -> Prop) `{forall x, Decision (P x)}
    (g : A -> B -> A) (init : A) (l : list B) :
  foldl (fun acc x => if bool_decide (P x) then g acc x else acc) init l
  = foldl g init (filter P l).
Proof.
  revert init. induction l as [|x l IH]; intros init; [done|].
  simpl. case_bool_decide.
  - rewrite filter_cons_True by done. simpl. apply IH.
  - rewrite filter_cons_False by done. apply IH.
Qed.

Lemma foldl_insert_length {A : Type} (g : nat -> A) (p0 : list A) (l : list nat) :
  length (foldl (fun p a => <[a := g a]> p) p0 l) = length p0.
Proof.
  revert p0. induction l as [|x l IH]; intros p0; [done|].
  simpl. rewrite IH. apply length_insert.
Qed.

Lemma foldl_insert_lookup {A : Type} (g : nat -> A) (p0 : list A) (k a : nat) :
  k <= length p0 -> a < k ->
  foldl (fun p a => <[a := g a]> p) p0 (seq 0 k) !! a = Some (g a).
Proof.
  induction k as [|k IH]; intros Hk Ha; [lia|].
  rewrite seq_S, foldl_app. simpl.
  destruct (decide (a = k)) as [->|Hne].
  - apply list_lookup_insert_eq. rewrite foldl_insert_length. lia.
  - rewrite list_lookup_insert_ne by done. apply IH; lia.
Qed.

Section GridIntegral.
Context {num : Type} `{NumOps num}.
Local Open Scope num_scope.
Local Abbreviation vec := (list num).
Local Abbreviation mat := (list (list num)).

Variable nb_arms : nat.

Lemma prod_F1_filter (N : nat) (f F : mat) (a ap : nat) :
  prod_F1 nb_arms N f F a ap
  = vmul (foldl (fun acc app => vmul acc (row F app)) (np_ones N) (other_arms nb_arms a ap))
         (vdivs (row f a) (of_nat N)).
Proof.
  unfold prod_F1, other_arms. by rewrite foldl_if_filter.
Qed.

Lemma IR_step_p_star (N : nat) (X : vec) (f F G : mat) (st : vec * mat) (l : list nat) :
  (foldl (IR_step nb_arms N X f F G) st l).1
  = foldl (fun p a => <[a := np_sum (prod_F1 nb_arms N f F a a)]> p) st.1 l.
Proof.
  revert st. induction l as [|a l IH]; intros st; [done|].
  simpl. by rewrite IH.
Qed.

Lemma IR_approx_p_star (np_log : num -> num) (N : nat) (b1 b2 : list Z) (X : vec)
    (f F G : mat) :
  (IR_approx nb_arms np_log N b1 b2 X f F G).1.2
  = foldl (fun p a => <[a := np_sum (prod_F1 nb_arms N f F a a)]> p)
          (np_zeros nb_arms) (seq 0 nb_arms).
Proof.
  pose proof (IR_step_p_star N X f F G
                (np_zeros nb_arms, replicate nb_arms (np_zeros nb_arms))
                (seq 0 nb_arms)) as Hp.
  simpl in Hp. rewrite <- Hp. unfold IR_approx.
  by destruct (foldl _ _ _).
Qed.

(** Entry [i] of a product of rows of [N] entries. *)
Lemma rows_product_lookup (F : mat) (arms : list nat) (N i : nat) (acc : vec) (x : num) :
  (forall app, app ∈ arms -> length (row F app) = N) ->
  length acc = N -> acc !! i = Some x ->
  foldl (fun acc app => vmul acc (row F app)) acc arms !! i
  = Some (foldl (fun acc app => acc *! nth i (row F app) fzero) x arms).
Proof.
  revert acc x. induction arms as [|app arms IH]; intros acc x Hrows Hlen Hx; [done|].
  simpl. apply IH.
  - intros app' Happ'. apply Hrows. by right.
  - unfold vmul. rewrite length_zip_with, Hlen, Hrows by (by left). lia.
  - unfold vmul. rewrite lookup_zip_with, Hx. simpl.
    assert (Hi : i < N) by (rewrite <- Hlen; by eapply lookup_lt_Some).
    destruct (lookup_lt_is_Some_2 (row F app) i) as [y Hy].
    { rewrite Hrows by (by left). done. }
    rewrite Hy. simpl. by rewrite (nth_lookup_Some _ _ _ _ Hy).
Qed.

Lemma rows_product_length (F : mat) (arms : list nat) (N : nat) (acc : vec) :
  (forall app, app ∈ arms -> length (row F app) = N) ->
  length acc = N ->
  length (foldl (fun acc app => vmul acc (row F app)) acc arms) = N.
Proof.
  revert acc. induction arms as [|app arms IH]; intros acc Hrows Hlen; [done|].
  simpl. apply IH.
  - intros app' Happ'. apply Hrows. by right.
  - unfold vmul. rewrite length_zip_with, Hlen, Hrows by (by left). lia.
Qed.
End GridIntegral.

Section ExactSums.
Local Open Scope Qc_scope.

Lemma Qc_sum_acc (l : list Qc) (acc : Qc) :
  foldl Qcplus acc l = acc + foldl Qcplus 0 l.
Proof.
  revert acc. induction l as [|x l IH]; intros acc; simpl.
  - ring.
  - rewrite (IH (acc + x)), (IH (0 + x)). ring.
Qed.

Lemma Qc_sum_scaled (P fa : list Qc) (c : Qc) :
  foldl Qcplus 0 (zip_with Qcmult P (map (fun x => x / c) fa))
  = 1 / c * foldl Qcplus 0 (zip_with Qcmult fa P).
Proof.
  revert fa. induction P as [|p P IH]; intros [|x fa]; simpl; try (unfold Qcdiv; ring).
  rewrite (Qc_sum_acc _ (0 + p * (x / c))), (Qc_sum_acc _ (0 + x * p)), IH.
  unfold Qcdiv. ring.
Qed.
End ExactSums.

(** C3: [prod_F1[a, ap]] is [f[a]/N] times the product of the rows [F[app]]
    over exactly the arms [app] that differ from both [a] and [ap]; on the
    diagonal these are the arms other than [a]; and [p_star[a]] is the grid
    integral [(1/N) * sum_i f[a](x_i) * prod_{a'' <> a} F[a''](x_i)]. *)
Theorem p_star_is_grid_integral (nb_arms : nat) (np_log : Qc -> Qc) (N : nat)
    (b1 b2 : list Z) (X : list Qc) (f F G : list (list Qc)) (a : nat) :
  a < nb_arms ->
  length (row f a) = N ->
  (forall app : nat, app < nb_arms -> length (row F app) = N) ->
  (forall ap : nat,
     prod_F1 nb_arms N f F a ap
     = vmul (foldl (fun acc app => vmul acc (row F app)) (np_ones N)
                   (other_arms nb_arms a ap))
            (vdivs (row f a) (of_nat N))) /\
  other_arms nb_arms a a = filter (fun app => app <> a) (seq 0 nb_arms) /\
  (IR_approx nb_arms np_log N b1 b2 X f F G).1.2 !! a
  = Some (grid_integral nb_arms N f F a).
Proof.
  intros Ha Hf HF. split; [intros ap; apply prod_F1_filter|]. split.
  { unfold other_arms. apply list_filter_iff. intros app. split.
    - intros [? ?]; done.
    - intros ?; split; congruence. }
  rewrite IR_approx_p_star.
  rewrite foldl_insert_lookup by (unfold np_zeros; rewrite ?length_replicate; lia).
  f_equal. rewrite prod_F1_filter.
  set (P := foldl (fun acc app => vmul acc (row F app)) (np_ones N)
                  (other_arms nb_arms a a)).
  unfold grid_integral, np_sum, vmul, vdivs.
  change (@fadd Qc Qc_ops) with Qcplus. change (@fmul Qc Qc_ops) with Qcmult.
  change (@fdiv Qc Qc_ops) with Qcdiv. change (@fzero Qc Qc_ops) with 0%Qc.
  change (@fone Qc Qc_ops) with 1%Qc.
  rewrite Qc_sum_scaled. f_equal. f_equal.
  assert (Hrows : forall app, app ∈ other_arms nb_arms a a -> length (row F app) = N).
  { intros app Happ. apply HF. unfold other_arms in Happ.
    apply list_elem_of_filter in Happ as [_ Happ].
    apply elem_of_seq in Happ. lia. }
  apply list_eq. intros i.
  rewrite lookup_zip_with, list_lookup_fmap.
  destruct (decide (i < N)) as [Hi|Hi].
  - rewrite lookup_seq_lt by done. simpl.
    destruct (lookup_lt_is_Some_2 (row f a) i ltac:(lia)) as [x Hx].
    rewrite Hx. simpl.
    unfold P. rewrite (rows_product_lookup F _ N i (np_ones N) 1%Qc Hrows).
    + simpl. by rewrite (nth_lookup_Some _ _ _ _ Hx).
    + unfold np_ones. by rewrite length_replicate.
    + unfold np_ones. by apply lookup_replicate_2.
  - rewrite lookup_seq_ge by lia. simpl.
    rewrite (lookup_ge_None_2 (row f a) i) by lia. done.
Qed.

Lemma p_star_is_grid_integral_witness :
  0 < 2 /\
  (IR_approx 2 tangent_log 2 [2; 1]%Z [1; 1]%Z X_2 f_21 F_21 G_21).1.2 !! 0
  = Some (grid_integral 2 2 f_21 F_21 0) /\
  this (grid_integral 2 2 f_21 F_21 0) = (5 # 4)%Q.
Proof.
  split; [lia|]. split; [|reflexivity].
  apply (p_star_is_grid_integral 2 tangent_log 2 [2; 1]%Z [1; 1]%Z X_2 f_21 F_21 G_21 0).
  - lia.
  - reflexivity.
  - intros app Happ. destruct app as [|[|app]]; [reflexivity..|lia].
Defined.

(** ** The information gain of the grid estimator *)

Lemma init_approx_21 :
  init_approx (num := Qc) 2 2 [2; 1]%Z [1; 1]%Z
  = Some (Grid X_2 f_21 F_21 G_21 [Q2Qc (1 # 2); 1%Qc]).
Proof. vm_compute. qc_eq. Qed.

Section InformationGain.
Context {num : Type} `{NumOps num}.
Local Open Scope num_scope.
Local Abbreviation vec := (list num).
Local Abbreviation mat := (list (list num)).

Variable nb_arms : nat.
Variable np_log : num -> num.

(** [g[arm]] as [IR_approx] computes it: entry [ap] of [sum_log] compares
    [maap[arm, ap]] with the mean [b1[ap]/(b1[ap]+b2[ap])] of arm [ap]. *)
Lemma IR_approx_g (N : nat) (b1 b2 : list Z) (X : vec) (f F G : mat) (arm : nat) :
  arm < nb_arms ->
  (IR_approx nb_arms np_log N b1 b2 X f F G).1.1.2 !! arm
  = Some (np_inner (IR_approx nb_arms np_log N b1 b2 X f F G).1.2
            (zip_with (sum_log_term np_log)
               (row (IR_approx nb_arms np_log N b1 b2 X f F G).2 arm) (zip b1 b2))).
Proof.
  intros Harm. unfold IR_approx.
  destruct (foldl _ _ _) as [p_star maap]. simpl.
  apply (foldl_insert_lookup
           (fun arm => np_inner p_star (sum_log np_log (row maap arm) b1 b2))).
  - unfold np_zeros. by rewrite length_replicate.
  - done.
Qed.

(** The estimates [p_star] and [maap] do not depend on [np_log]. *)
Lemma IR_approx_estimates (np_log' : num -> num) (N : nat) (b1 b2 : list Z) (X : vec)
    (f F G : mat) :
  (IR_approx nb_arms np_log N b1 b2 X f F G).1.2
  = (IR_approx nb_arms np_log' N b1 b2 X f F G).1.2 /\
  (IR_approx nb_arms np_log N b1 b2 X f F G).2
  = (IR_approx nb_arms np_log' N b1 b2 X f F G).2.
Proof. unfold IR_approx. by destruct (foldl _ _ _). Qed.
End InformationGain.

(** C2 fails on the code.  At the grid of [init_approx(2, [2,1], [1,1])]
    (posterior means 2/3 and 1/2, [p_star = [5/4, 1]], [maap[0] = [9/10, 3/4]])
    the term of [g[0]] for [a' = 1] takes the logarithms of
    [maap[0,1]/(1/2) = 3/2] and [(1 - maap[0,1])/(1 - 1/2) = 1/2]: the
    reference mean is that of arm 1.  With the mean of arm 0 they would be
    [9/8] and [3/4]. *)
Theorem g_compares_with_the_mean_of_the_other_arm (np_log : Qc -> Qc) :
  (IR_approx 2 np_log 2 [2; 1]%Z [1; 1]%Z X_2 f_21 F_21 G_21).1.1.2 !! 0
  = Some (0 + Q2Qc (5 # 4) * (Q2Qc (9 # 10) * np_log (Q2Qc (27 # 20))
                              + (1 - Q2Qc (9 # 10)) * np_log (Q2Qc (3 # 10)))
            + 1 * (Q2Qc (3 # 4) * np_log (Q2Qc (3 # 2))
                   + (1 - Q2Qc (3 # 4)) * np_log (Q2Qc (1 # 2))))%Qc.
Proof.
  rewrite IR_approx_g by lia.
  destruct (IR_approx_estimates 2 np_log tangent_log 2 [2; 1]%Z [1; 1]%Z
              X_2 f_21 F_21 G_21) as [-> ->].
  assert (Hp : (IR_approx 2 tangent_log 2 [2; 1]%Z [1; 1]%Z X_2 f_21 F_21 G_21).1.2
               = [Q2Qc (5 # 4); 1%Qc]).
  { vm_compute. qc_eq. }
  assert (Hm : (IR_approx 2 tangent_log 2 [2; 1]%Z [1; 1]%Z X_2 f_21 F_21 G_21).2
               = [[Q2Qc (9 # 10); Q2Qc (3 # 4)]; [Q2Qc (7 # 10); Q2Qc (7 # 8)]]).
  { vm_compute. qc_eq. }
  rewrite Hp, Hm. clear Hp Hm.
  unfold np_inner, np_sum, vmul, sum_log_term. simpl.
  change (@fzero Qc Qc_ops) with 0%Qc. change (@fone Qc Qc_ops) with 1%Qc.
  replace (Q2Qc (9 # 10) * of_Z (2 + 1) / of_Z 2)%Qc with (Q2Qc (27 # 20))
    by (apply Qc_is_canon; reflexivity).
  replace ((1 - Q2Qc (9 # 10)) * of_Z (2 + 1) / of_Z 1)%Qc with (Q2Qc (3 # 10))
    by (apply Qc_is_canon; reflexivity).
  replace (Q2Qc (3 # 4) * of_Z (1 + 1) / of_Z 1)%Qc with (Q2Qc (3 # 2))
    by (apply Qc_is_canon; reflexivity).
  replace ((1 - Q2Qc (3 # 4)) * of_Z (1 + 1) / of_Z 1)%Qc with (Q2Qc (1 # 2))
    by (apply Qc_is_canon; reflexivity).
  reflexivity.
Qed.

(** ** The boundary terms of the incremental update *)

Section UpdateInversion.
Context {num : Type} `{NumOps num}.
Local Open Scope num_scope.

Lemma update_approx_inv (arm : nat) (y : num) (beta : Z * Z) (g g' : grid num) :
  update_approx arm y beta g = Some g' ->
  exists (fa Fa Ga : list num) (Ba : num),
    gf g !! arm = Some fa /\ gF g !! arm = Some Fa /\
    gG g !! arm = Some Ga /\ gB g !! arm = Some Ba /\
    let X := gX g in
    let bsum := of_Z (beta.1 + beta.2) in
    let adjust := of_Z beta.1 *! y +! of_Z beta.2 *! (fone -! y) in
    let sign_F_update := if feqb y fzero then fone else of_Z (-1) in
    g' = Grid X
      (<[arm := vmul (vdivs (vmuls (vadd (vmuls X y) (vmuls (vcompl X) (fone -! y)))
                                   bsum) adjust) fa]> (gf g))
      (<[arm := vadd Fa (vdivs (vdivs (vmul (vscale sign_F_update (vpow X beta.1))
                                            (vpow (vcompl X) beta.2)) adjust) Ba)]>
         (gF g))
      (<[arm := vscale (of_Z beta.1 /! bsum)
                  (vsub Fa (vdivs (vdivs (vmul (vpow X beta.1) (vpow (vcompl X) beta.2))
                                         (of_Z beta.1)) Ba))]> (gG g))
      (<[arm := Ba *! adjust /! bsum]> (gB g)).
Proof.
  unfold update_approx; intros Hu.
  destruct (gf g !! arm) as [fa|]; simpl in Hu; [|discriminate].
  destruct (gF g !! arm) as [Fa|]; simpl in Hu; [|discriminate].
  destruct (gB g !! arm) as [Ba|]; simpl in Hu; [|discriminate].
  destruct (gG g !! arm) as [Ga|]; simpl in Hu; [|discriminate].
  injection Hu as <-. by exists fa, Fa, Ga, Ba.
Qed.
End UpdateInversion.

Section BoundaryTerms.
Local Open Scope Qc_scope.

Lemma F_row_boundary (Fa X : list Qc) (al be : Z) (sg adj Ba : Qc) :
  adj <> 0 -> Ba <> 0 ->
  vadd Fa (vdivs (vdivs (vmul (vscale sg (vpow X al)) (vpow (vcompl X) be)) adj) Ba)
  = zip_with (fun Fi w => Fi + sg / (adj * Ba) * w) Fa (boundary X (al, be)).
Proof.
  intros Hadj HBa. unfold vadd, vdivs, vmul, vscale, vpow, vcompl, boundary. simpl.
  revert Fa. induction X as [|x X IH]; intros [|Fi Fa]; simpl; try done.
  f_equal; [|apply IH].
  change (@fadd Qc Qc_ops) with Qcplus. change (@fmul Qc Qc_ops) with Qcmult.
  change (@fdiv Qc Qc_ops) with Qcdiv. by field.
Qed.

Lemma G_row_boundary (Fa X : list Qc) (al be : Z) (A S Ba : Qc) :
  A <> 0 -> S <> 0 -> Ba <> 0 ->
  vscale (A / S)
    (vsub Fa (vdivs (vdivs (vmul (vpow X al) (vpow (vcompl X) be)) A) Ba))
  = zip_with (fun Fi w => A / S * Fi - 1 / (S * Ba) * w) Fa (boundary X (al, be)).
Proof.
  intros HA HS HBa. unfold vsub, vdivs, vmul, vscale, vpow, vcompl, boundary. simpl.
  revert Fa. induction X as [|x X IH]; intros [|Fi Fa]; simpl; try done.
  f_equal; [|apply IH].
  change (@fsub Qc Qc_ops) with Qcminus. change (@fmul Qc Qc_ops) with Qcmult.
  change (@fdiv Qc Qc_ops) with Qcdiv. by field.
Qed.
End BoundaryTerms.

Lemma Z2Qc_neq0 (z : Z) : z <> 0%Z -> Z2Qc z <> 0%Qc.
Proof.
  intros Hz Heq. unfold Z2Qc in Heq.
  apply Q2Qc_eq_iff in Heq. unfold Qeq in Heq. simpl in Heq. lia.
Qed.

(** C4 (amended): the corrections that [update_approx] applies to [F[arm]]
    and, inside [G[arm]], to [beta[0]/sum * F[arm]], are multiples of
    [X**beta[0] * (1-X)**beta[1]]: the grid points raised to the first
    parameter times their complements raised to the second. *)
Theorem boundary_terms_of_the_update (arm : nat) (y : Qc) (beta : Z * Z)
    (g g' : grid Qc) (Fa : list Qc) (Ba : Qc) :
  update_approx arm y beta g = Some g' ->
  gF g !! arm = Some Fa -> gB g !! arm = Some Ba ->
  beta.1 <> 0%Z -> (beta.1 + beta.2 <> 0)%Z -> Ba <> 0%Qc ->
  (Z2Qc beta.1 * y + Z2Qc beta.2 * (1 - y) <> 0)%Qc ->
  gF g' !! arm
  = Some (zip_with
            (fun Fi w =>
               Fi + (if Qc_eqb y 0 then 1 else Z2Qc (-1))
                    / ((Z2Qc beta.1 * y + Z2Qc beta.2 * (1 - y)) * Ba) * w)%Qc
            Fa (boundary (gX g) beta)) /\
  gG g' !! arm
  = Some (zip_with
            (fun Fi w =>
               Z2Qc beta.1 / Z2Qc (beta.1 + beta.2) * Fi
               - 1 / (Z2Qc (beta.1 + beta.2) * Ba) * w)%Qc
            Fa (boundary (gX g) beta)).
Proof.
  intros Hu HFa HBa Hal Hsum HB Hadj.
  apply update_approx_inv in Hu as (fa & Fa' & Ga & Ba' & Hf & HF & HG & HB' & ->).
  rewrite HFa in HF; injection HF as <-.
  rewrite HBa in HB'; injection HB' as <-.
  destruct beta as [al be]. simpl in *. split.
  - rewrite list_lookup_insert_eq by (by eapply lookup_lt_Some).
    f_equal. by apply (F_row_boundary Fa (gX g) al be).
  - rewrite list_lookup_insert_eq by (by eapply lookup_lt_Some).
    f_equal. apply (G_row_boundary Fa (gX g) al be); [|  |done].
    + by apply Z2Qc_neq0.
    + by apply Z2Qc_neq0.
Qed.

Lemma init_approx_2_1 : init_approx (num := Qc) 1 4 [2]%Z [1]%Z = Some grid_2_1.
Proof. vm_compute. qc_eq. Qed.

Lemma boundary_terms_of_the_update_witness :
  exists g' : grid Qc,
    update_approx 0 1%Qc (2, 1)%Z grid_2_1 = Some g' /\
    this <$> (boundary (gX grid_2_1) (2, 1)%Z) = [3 # 64; 1 # 8; 9 # 64; 0]%Q /\
    gF g' !! 0
    = Some (zip_with (fun Fi w => Fi + Z2Qc (-1) / ((Z2Qc 2 * 1 + Z2Qc 1 * (1 - 1))
                                                    * Q2Qc (1 # 2)) * w)%Qc
                     [Q2Qc (1 # 8); Q2Qc (3 # 8); Q2Qc (3 # 4); Q2Qc (5 # 4)]
                     (boundary (gX grid_2_1) (2, 1)%Z)).
Proof.
  destruct (update_approx 0 1%Qc (2, 1)%Z grid_2_1) as [g'|] eqn:Hu;
    [|vm_compute in Hu; discriminate].
  exists g'. split; [reflexivity|]. split; [reflexivity|].
  apply (proj1 (boundary_terms_of_the_update 0 1%Qc (2, 1)%Z grid_2_1 g'
                  [Q2Qc (1 # 8); Q2Qc (3 # 8); Q2Qc (3 # 4); Q2Qc (5 # 4)]
                  (Q2Qc (1 # 2)) Hu eq_refl eq_refl ltac:(done) ltac:(done)
                  ltac:(done) ltac:(done))).
Defined.

(** C4 as stated fails.  For Beta(2, 1) on a grid of 4 points and reward 1,
    the correction of [F] is [-X**2 * (1-X)], which is a multiple of
    [X**2 * (1-X)] and not of [X * (1-X)**2]; likewise for [G]. *)
Lemma boundary_exponents_not_swapped :
  (map this <$> F_correction 0 1%Qc (2, 1)%Z grid_2_1)
    = Some [-3 # 64; -1 # 8; -9 # 64; 0]%Q /\
  (map this <$> G_correction 0 1%Qc (2, 1)%Z grid_2_1)
    = Some [-1 # 32; -1 # 12; -3 # 32; 0]%Q /\
  map this (swapped_boundary (gX grid_2_1) (2, 1)%Z) = [9 # 64; 1 # 8; 3 # 64; 0]%Q /\
  map this (boundary (gX grid_2_1) (2, 1)%Z) = [3 # 64; 1 # 8; 9 # 64; 0]%Q /\
  (d ← F_correction 0 1%Qc (2, 1)%Z grid_2_1;
   Some (proportional d (swapped_boundary (gX grid_2_1) (2, 1)%Z))) = Some false /\
  (d ← G_correction 0 1%Qc (2, 1)%Z grid_2_1;
   Some (proportional d (swapped_boundary (gX grid_2_1) (2, 1)%Z))) = Some false /\
  (d ← F_correction 0 1%Qc (2, 1)%Z grid_2_1;
   Some (proportional d (boundary (gX grid_2_1) (2, 1)%Z))) = Some true /\
  (d ← G_correction 0 1%Qc (2, 1)%Z grid_2_1;
   Some (proportional d (boundary (gX grid_2_1) (2, 1)%Z))) = Some true.
Proof. repeat split; vm_compute; reflexivity. Qed.

(** ** The incremental update against a fresh initialisation *)

Lemma Z2Qc_mult (a b : Z) : Z2Qc (a * b) = (Z2Qc a * Z2Qc b)%Qc.
Proof.
  apply Qc_is_canon. unfold Z2Qc. simpl.
  rewrite !Qred_correct. by rewrite inject_Z_mult.
Qed.

Lemma qfact_S (n : nat) : qfact (S n) = (Z2Qc (Z.of_nat (S n)) * qfact n)%Qc.
Proof.
  unfold qfact. rewrite <- Z2Qc_mult. f_equal.
  change (fact (S n)) with (S n * fact n). lia.
Qed.



Lemma fact_list_prefix (n k : nat) :
  k <= n ->
  let l := foldl (fun (l : list Qc) i => <[S i := fmul (of_nat (S i)) (nth i l fzero)]> l)
                 (np_ones (S n)) (seq 0 k) in
  length l = S n /\ forall i, i <= k -> l !! i = Some (qfact i).
Proof.
  induction k as [|k IH]; intros Hk; cbv zeta.
  - split; [unfold np_ones; simpl; by rewrite length_replicate|].
    intros i Hi. assert (i = 0) as -> by lia. reflexivity.
  - cbv zeta in IH. destruct (IH ltac:(lia)) as [Hlen Hl].
    rewrite seq_S, foldl_app.
    remember (foldl _ (np_ones (S n)) (seq 0 k)) as lk eqn:Hlk. clear Hlk IH.
    simpl. split; [by rewrite length_insert|].
    intros i Hi. destruct (decide (i = S k)) as [->|Hne].
    + rewrite list_lookup_insert_eq by (rewrite Hlen; lia). f_equal.
      rewrite (nth_lookup_Some _ _ _ _ (Hl k (le_n _))).
      by rewrite qfact_S.
    + rewrite list_lookup_insert_ne by done. apply Hl. lia.
Qed.

Lemma fact_list_lookup (count : Z) (i : nat) :
  i <= Z.to_nat count -> fact_list (num := Qc) count !! i = Some (qfact i).
Proof.
  intros Hi. unfold fact_list.
  by apply (fact_list_prefix (Z.to_nat count) (Z.to_nat count) (le_n _)).
Qed.

Lemma beta_const_spec (count : Z) (ab : Z * Z) :
  (1 <= ab.1)%Z -> (1 <= ab.2)%Z -> (ab.1 + ab.2 <= count)%Z ->
  beta_const (num := Qc) (fact_list count) ab = Some (Bq ab).
Proof.
  intros Ha Hb Hc. unfold beta_const, py_index.
  rewrite !(proj2 (Z.leb_le _ _)) by lia.
  rewrite !fact_list_lookup by lia. reflexivity.
Qed.

Lemma Z_list_max_ge (l : list Z) (m x : Z) :
  Z_list_max l = Some m -> x ∈ l -> (x <= m)%Z.
Proof.
  revert m. induction l as [|y l IH]; intros m Hm Hx; [by apply elem_of_nil in Hx|].
  simpl in Hm. apply elem_of_cons in Hx.
  destruct (Z_list_max l) as [m'|] eqn:Hl.
  - injection Hm as <-. destruct Hx as [->|Hx]; [lia|].
    specialize (IH m' eq_refl Hx). lia.
  - injection Hm as <-. destruct Hx as [->|Hx]; [lia|].
    destruct l; [by apply elem_of_nil in Hx|discriminate].
Qed.

Lemma Z_list_max_is_Some (l : list Z) : l <> [] -> is_Some (Z_list_max l).
Proof. destruct l; [done|]. intros _. simpl. by eexists. Qed.

Lemma mapM_total {A B : Type} (f : A -> option B) (g : A -> B) (l : list A) :
  (forall x, x ∈ l -> f x = Some (g x)) -> mapM f l = Some (map g l).
Proof.
  induction l as [|x l IH]; intros Hf; [done|].
  simpl. rewrite (Hf x) by (by left). simpl.
  rewrite IH by (intros y Hy; apply Hf; by right). done.
Qed.

Lemma map_nth_seq {A B : Type} (h : A -> B) (l : list A) (d : A) :
  map (fun i => h (nth i l d)) (seq 0 (length l)) = map h l.
Proof.
  apply list_eq. intros i. rewrite !list_lookup_fmap.
  destruct (decide (i < length l)) as [Hi|Hi].
  - rewrite lookup_seq_lt by done. simpl.
    destruct (lookup_lt_is_Some_2 l i Hi) as [x Hx].
    rewrite Hx. simpl. by rewrite (nth_lookup_Some _ _ _ _ Hx).
  - rewrite lookup_seq_ge by lia. by rewrite lookup_ge_None_2 by lia.
Qed.

Section InitSpec.
Variable nb_arms N : nat.
Variables beta_1 beta_2 : list Z.
Hypothesis Hlen1 : length beta_1 = nb_arms.
Hypothesis Hlen2 : length beta_2 = nb_arms.
Hypothesis Harms : nb_arms <> 0.
Hypothesis HN : N <> 0.
Hypothesis Hpos1 : Forall (fun a => (1 <= a)%Z) beta_1.
Hypothesis Hpos2 : Forall (fun b => (1 <= b)%Z) beta_2.

Lemma zip_params_lookup (i : nat) (ab : Z * Z) :
  zip beta_1 beta_2 !! i = Some ab ->
  beta_1 !! i = Some ab.1 /\ beta_2 !! i = Some ab.2 /\
  (1 <= ab.1)%Z /\ (1 <= ab.2)%Z.
Proof.
  intros Hz. rewrite lookup_zip_with in Hz.
  destruct (beta_1 !! i) as [a|] eqn:Ha; simpl in Hz; [|discriminate].
  destruct (beta_2 !! i) as [b|] eqn:Hb; simpl in Hz; [|discriminate].
  injection Hz as <-. simpl. repeat split.
  - by apply (Forall_lookup_1 _ _ _ _ Hpos1 Ha).
  - by apply (Forall_lookup_1 _ _ _ _ Hpos2 Hb).
Qed.

Lemma init_approx_spec :
  init_approx (num := Qc) nb_arms N beta_1 beta_2
  = Some (let f := map (frow (grid_points N)) (zip beta_1 beta_2) in
          Grid (grid_points N) f
               (map (fun r => np_cumsum (vdivs r (of_nat N))) f)
               (map (fun r => np_cumsum (vdivs (vmul r (grid_points N)) (of_nat N))) f)
               (map Bq (zip beta_1 beta_2))).
Proof.
  unfold init_approx.
  destruct (Z_list_max_is_Some (zip_with Z.add beta_1 beta_2)) as [count Hcount].
  { destruct beta_1, beta_2; simpl in *; try lia. done. }
  rewrite Hcount. simpl.
  rewrite (mapM_total (beta_const (fact_list count)) Bq).
  2:{ intros ab Hab. apply list_elem_of_lookup in Hab as [i Hi].
      destruct (zip_params_lookup i ab Hi) as (Ha & Hb & H1 & H2).
      apply beta_const_spec; [done|done|].
      apply (Z_list_max_ge _ _ _ Hcount).
      apply list_elem_of_lookup. exists i.
      rewrite lookup_zip_with, Ha, Hb. done. }
  simpl. case_guard; [|done]. simpl.
  fold (grid_points N).
  rewrite (mapM_total _ (fun i => frow (grid_points N) (nth i (zip beta_1 beta_2) (0, 0)%Z))).
  2:{ intros i Hi. apply elem_of_seq in Hi.
      assert (Hlz : length (zip beta_1 beta_2) = nb_arms).
      { rewrite length_zip_with. lia. }
      destruct (lookup_lt_is_Some_2 (zip beta_1 beta_2) i ltac:(lia)) as [ab Hab].
      destruct (zip_params_lookup i ab Hab) as (Ha & Hb & _ & _).
      unfold density_row. rewrite Ha, Hb. simpl.
      rewrite list_lookup_fmap, Hab. simpl.
      by rewrite (nth_lookup_Some _ _ _ _ Hab). }
  simpl.
  assert (Hlz : nb_arms = length (zip beta_1 beta_2)).
  { rewrite length_zip_with. lia. }
  rewrite Hlz at 1 2 3.
  by rewrite (map_nth_seq (frow (grid_points N))).
Qed.
End InitSpec.

Section RowUpdate.
Local Open Scope Qc_scope.




End RowUpdate.




(** * Further properties of the code *)

(** ** Reward distributions *)

(** Inequalities between exact rationals, read on their fractions. *)
Ltac qc2q :=
  unfold Qcle, Qclt, Qcdiv, Qcminus in *; simpl in *;
  repeat match goal with
  | H : context [Qred _] |- _ => setoid_rewrite Qred_correct in H
  | |- context [Qred _] => setoid_rewrite Qred_correct
  end;
  repeat match goal with
  | x : Qc |- _ => generalize dependent (this x); clear x; intros x
  end;
  intros.

(** The scalar operations at the exact rationals, as operations of the
    field. *)
Ltac qc_ops :=
  change (@fadd Qc Qc_ops) with Qcplus in *;
  change (@fsub Qc Qc_ops) with Qcminus in *;
  change (@fmul Qc Qc_ops) with Qcmult in *;
  change (@fdiv Qc Qc_ops) with Qcdiv in *;
  change (@fzero Qc Qc_ops) with 0%Qc in *;
  change (@fone Qc Qc_ops) with 1%Qc in *;
  change (Z2Qc 0) with 0%Qc in *;
  change (Z2Qc 1) with 1%Qc in *;
  change (Z2Qc (Z.of_nat 0)) with 0%Qc in *;
  change (Z2Qc (Z.of_nat 1)) with 1%Qc in *;
  change (@of_nat Qc Qc_ops 0) with 0%Qc in *;
  change (@of_nat Qc Qc_ops 1) with 1%Qc in *.

Lemma Q_square_nonneg (x : Q) : (0 <= x * x)%Q.
Proof.
  destruct (Qlt_le_dec x 0) as [Hx|Hx].
  - assert (Heq : (x * x == (- x) * (- x))%Q) by ring.
    rewrite Heq. apply Qmult_le_0_compat; lra.
  - by apply Qmult_le_0_compat.
Qed.

Section BernoulliArm.
Local Open Scope Qc_scope.

(** X1: the draw of a Bernoulli arm whose parameter lies outside (0, 1) does
    not depend on the random number: the arm pays at every draw when
    [p >= 1] and never when [p <= 0] ([rand] draws from [0, 1)). *)
Theorem ArmBernoulli_sample_extremes (p u : Qc) :
  0 <= u -> u < 1 -> 1 <= p \/ p <= 0 ->
  ArmBernoulli_sample p u = Qc_leb 1 p.
Proof.
  intros Hu0 Hu1 Hp. unfold ArmBernoulli_sample. simpl.
  destruct Hp as [Hp|Hp].
  - rewrite (proj2 (Qc_leb_le 1 p) Hp).
    apply Qc_ltb_lt. eapply Qclt_le_trans; eassumption.
  - destruct (Qc_ltb u p) eqn:Hlt.
    + apply Qc_ltb_lt in Hlt. exfalso.
      apply (Qclt_not_le _ _ Hlt). eapply Qcle_trans; eassumption.
    + destruct (Qc_leb 1 p) eqn:Hle; [|done].
      apply Qc_leb_le in Hle. exfalso.
      assert (H01 : 1 <= 0) by (eapply Qcle_trans; eassumption).
      revert H01. vm_compute. tauto.
Qed.

Lemma ArmBernoulli_sample_extremes_witness :
  ArmBernoulli_sample 1 (Q2Qc (1 # 2)) = Qc_leb 1 1.
Proof.
  apply (ArmBernoulli_sample_extremes 1 (Q2Qc (1 # 2))).
  - vm_compute. discriminate.
  - vm_compute. reflexivity.
  - left. vm_compute. discriminate.
Defined.

(** X2: the variance that [ArmBernoulli] stores lies between 0 and 1/4 for
    a parameter in [0, 1]. *)
Theorem ArmBernoulli_variance_bounds (p : Qc) :
  0 <= p -> p <= 1 ->
  exists v : Qc, variance (ArmBernoulli p) = Some v /\ 0 <= v /\ v <= Q2Qc (1 # 4).
Proof.
  intros H0 H1. eexists; split; [reflexivity|].
  change (0 <= p * (1 - p) /\ p * (1 - p) <= Q2Qc (1 # 4)).
  split.
  - qc2q. nra.
  - qc2q. pose proof (Q_square_nonneg (p - (1 # 2))). nra.
Qed.

Lemma ArmBernoulli_variance_bounds_witness :
  exists v : Qc, variance (ArmBernoulli (Q2Qc (1 # 3))) = Some v /\
                 0 <= v /\ v <= Q2Qc (1 # 4).
Proof.
  apply (ArmBernoulli_variance_bounds (Q2Qc (1 # 3))).
  - vm_compute. discriminate.
  - vm_compute. discriminate.
Defined.
End BernoulliArm.

Section FiniteArm.
Local Open Scope Qc_scope.

Lemma np_sum_cons_Qc (x : Qc) (l : list Qc) : np_sum (x :: l) = x + np_sum l.
Proof.
  unfold np_sum. simpl.
  change (@fadd Qc Qc_ops) with Qcplus. change (Z2Qc 0) with 0.
  rewrite (Qc_sum_acc l (0 + x)). ring.
Qed.

Lemma np_sum_nil_Qc : np_sum (@nil Qc) = 0.
Proof. reflexivity. Qed.

Lemma np_sum_nonneg (l : list Qc) : Forall (fun x => 0 <= x) l -> 0 <= np_sum l.
Proof.
  induction 1 as [|x l Hx _ IH]; [by vm_compute|].
  rewrite np_sum_cons_Qc.
  replace 0 with (0 + 0) by ring. by apply Qcplus_le_compat.
Qed.

(** The sum of squared deviations from [m], expanded. *)
Lemma squared_deviations (X P : list Qc) (m : Qc) :
  length X = length P ->
  np_sum (zip_with (fun x p => p * (x - m) * (x - m)) X P)
  = np_sum (zip_with Qcmult (map (fun x => x * (x * 1)) X) P)
    - 2 * m * np_sum (zip_with Qcmult X P) + m * m * np_sum P.
Proof.
  revert P. induction X as [|x X IH]; intros [|p P] Hlen; simpl in Hlen; try lia.
  - simpl. rewrite !np_sum_nil_Qc. ring.
  - simpl. rewrite !np_sum_cons_Qc, (IH P) by lia. ring.
Qed.

(** X3: for outcomes [X] with probabilities [P] (nonnegative, of sum 1) the
    variance that [ArmFinite] stores, [sum(X**2*P) - mean**2], is the
    expected squared deviation from the mean, and so is never negative. *)
Theorem ArmFinite_variance_nonneg (X P : list Qc) :
  length X = length P -> Forall (fun p => 0 <= p) P -> np_sum P = 1 ->
  exists m v : Qc,
    ArmFinite X P = Some (Moments m (Some v)) /\
    v = np_sum (zip_with (fun x p => p * (x - m) * (x - m)) X P) /\ 0 <= v.
Proof.
  intros Hlen Hpos Hsum. unfold ArmFinite, np_multiply.
  rewrite (bool_decide_eq_true_2 _ Hlen). simpl.
  assert (Hlen2 : length (vpow X 2) = length P) by (unfold vpow; by rewrite length_map).
  rewrite (bool_decide_eq_true_2 _ Hlen2). simpl. unfold vpow.
  eexists _, _. split; [reflexivity|].
  assert (Hv : np_sum (vmul (map (fun x : Qc => Qc_pow x 2) X) P)
               - Qc_pow (np_sum (vmul X P)) 2
               = np_sum (zip_with (fun x p => p * (x - np_sum (vmul X P))
                                              * (x - np_sum (vmul X P))) X P)).
  { rewrite (squared_deviations X P _ Hlen), Hsum. unfold vmul.
    change (fun x : Qc => Qc_pow x 2) with (fun x : Qc => x * (x * 1)).
    change (Qc_pow (np_sum (zip_with fmul X P)) 2)
      with (np_sum (zip_with fmul X P) * (np_sum (zip_with fmul X P) * 1)).
    change (@fmul Qc Qc_ops) with Qcmult. ring. }
  change (@fsub Qc Qc_ops) with Qcminus. change (@fpow Qc Qc_ops) with Qc_pow.
  split; [exact Hv|].
  match goal with |- 0 <= ?v => replace v with
    (np_sum (zip_with (fun x p => p * (x - np_sum (vmul X P))
                                  * (x - np_sum (vmul X P))) X P))
    by (symmetry; exact Hv) end.
  apply np_sum_nonneg. clear Hv Hsum Hlen2.
  generalize (np_sum (vmul X P)). intros m.
  revert P Hlen Hpos. induction X as [|x X IH]; intros [|p P] Hlen Hpos;
    simpl in *; try lia; [constructor|].
  inversion Hpos as [|? ? Hp HP]; subst. constructor; [|apply IH; [lia|done]].
  clear - Hp. revert Hp. generalize (x - m). intros d Hp. qc2q.
  pose proof (Q_square_nonneg d). nra.
Qed.

Lemma ArmFinite_variance_nonneg_witness :
  exists m v : Qc,
    ArmFinite [0; 1; Q2Qc 4] [Q2Qc (1 # 2); Q2Qc (1 # 4); Q2Qc (1 # 4)]
      = Some (Moments m (Some v)) /\
    v = np_sum (zip_with (fun x p => p * (x - m) * (x - m)) [0; 1; Q2Qc 4]
                         [Q2Qc (1 # 2); Q2Qc (1 # 4); Q2Qc (1 # 4)]) /\
    0 <= v.
Proof.
  apply (ArmFinite_variance_nonneg [0; 1; Q2Qc 4]
           [Q2Qc (1 # 2); Q2Qc (1 # 4); Q2Qc (1 # 4)]).
  - reflexivity.
  - repeat (constructor; [vm_compute; discriminate|]). constructor.
  - apply Qc_is_canon. reflexivity.
Defined.
End FiniteArm.

Section ExponentialArm.
Local Open Scope R_scope.

Lemma R_fzero : @fzero R R_ops = 0.
Proof. unfold fzero. simpl. unfold Q2R. simpl. lra. Qed.

Lemma R_fone : @fone R R_ops = 1.
Proof. unfold fone. simpl. unfold Q2R. simpl. lra. Qed.

Lemma R_leb_le (x y : R) : R_leb x y = true <-> x <= y.
Proof. unfold R_leb. destruct (Rle_dec x y); split; intros; try done. Qed.

Lemma exp_neg_lt_1 (x : R) : 0 < x -> exp (- x) < 1.
Proof.
  intros Hx. rewrite <- exp_0. apply exp_increasing. lra.
Qed.

(** X4: inverse-transform sampling of the truncated exponential arm.  For
    [L > 0], [B > 0] and a draw [q] in [0, 1], [inv_cdf] passes its
    assertion and returns a point of [0, B] at which [cdf] gives back [q]. *)
Theorem ArmExp_cdf_of_inv_cdf (L B q : R) :
  0 < L -> 0 < B -> 0 <= q -> q <= 1 ->
  exists x : R,
    ArmExp_inv_cdf exp ln L B q = Some x /\ 0 <= x /\ x <= B /\
    ArmExp_cdf exp L B x = q.
Proof.
  intros HL HB Hq0 Hq1.
  unfold ArmExp_inv_cdf, ArmExp_cdf, ArmExp_CDF, fneg.
  rewrite R_fzero, R_fone. simpl.
  rewrite (proj2 (R_leb_le 0 q) Hq0), (proj2 (R_leb_le q 1) Hq1). simpl.
  eexists; split; [reflexivity|].
  replace (0 - L) with (- L) by lra.
  assert (HLB : 0 < L * B) by (by apply Rmult_lt_0_compat).
  pose proof (exp_pos (- L * B)) as HE0.
  assert (HE1 : exp (- L * B) < 1).
  { replace (- L * B) with (- (L * B)) by lra. by apply exp_neg_lt_1. }
  set (E := exp (- L * B)) in *.
  set (z := 1 - (1 - E) * q).
  assert (Hz0 : E <= z) by (unfold z; nra).
  assert (Hz1 : z <= 1) by (unfold z; nra).
  assert (Hzpos : 0 < z) by lra.
  assert (Hln0 : ln z <= 0).
  { rewrite <- ln_1. destruct (Req_dec z 1) as [Heq|Hne]; [rewrite Heq; lra|].
    left. apply ln_increasing; lra. }
  assert (HlnE : - L * B <= ln z).
  { rewrite <- (ln_exp (- L * B)). fold E.
    destruct (Req_dec E z) as [Heq|Hne]; [rewrite Heq; lra|].
    left. apply ln_increasing; lra. }
  replace (0 - ln z) with (- ln z) by lra.
  split; [|split].
  - apply Rmult_le_pos; [lra|]. left. by apply Rinv_0_lt_compat.
  - apply (Rmult_le_reg_r L); [done|].
    replace (- ln z / L * L) with (- ln z) by (field; lra). lra.
  - replace (- L * (- ln z / L)) with (ln z) by (field; lra).
    rewrite exp_ln by done.
    replace (- L * 0) with 0 by lra. rewrite exp_0.
    unfold z. field. lra.
Qed.

Lemma ArmExp_cdf_of_inv_cdf_witness :
  exists x : R,
    ArmExp_inv_cdf exp ln 2 1 (1 / 2) = Some x /\ 0 <= x /\ x <= 1 /\
    ArmExp_cdf exp 2 1 x = 1 / 2.
Proof.
  apply (ArmExp_cdf_of_inv_cdf 2 1 (1 / 2)); lra.
Defined.

(** X5: conversely, for [L > 0], [B > 0] and a point [x] of [0, B], the
    value [cdf(x)] passes the assertion of [inv_cdf], which gives back
    [x]. *)
Theorem ArmExp_inv_cdf_of_cdf (L B x : R) :
  0 < L -> 0 < B -> 0 <= x -> x <= B ->
  ArmExp_inv_cdf exp ln L B (ArmExp_cdf exp L B x) = Some x.
Proof.
  intros HL HB Hx0 HxB.
  unfold ArmExp_inv_cdf, ArmExp_cdf, ArmExp_CDF, fneg.
  rewrite R_fzero, R_fone. simpl.
  replace (0 - L) with (- L) by lra.
  replace (- L * 0) with 0 by lra. rewrite exp_0.
  assert (HLB : 0 < L * B) by (by apply Rmult_lt_0_compat).
  pose proof (exp_pos (- L * B)) as HE0.
  assert (HE1 : exp (- L * B) < 1).
  { replace (- L * B) with (- (L * B)) by lra. by apply exp_neg_lt_1. }
  pose proof (exp_pos (- L * x)) as Hx1.
  assert (Hx2 : exp (- L * x) <= 1).
  { rewrite <- exp_0. destruct (Req_dec x 0) as [->|Hne].
    - replace (- L * 0) with 0 by lra. lra.
    - left. apply exp_increasing. nra. }
  assert (Hx3 : exp (- L * B) <= exp (- L * x)).
  { destruct (Req_dec x B) as [->|Hne]; [lra|].
    left. apply exp_increasing. nra. }
  set (E := exp (- L * B)) in *. set (e := exp (- L * x)) in *.
  assert (Hq : (1 - e - (1 - 1)) / (1 - E - (1 - 1)) = (1 - e) / (1 - E))
    by (field; lra).
  rewrite Hq.
  assert (Hq0 : 0 <= (1 - e) / (1 - E)).
  { apply Rmult_le_pos; [lra|]. left. apply Rinv_0_lt_compat. lra. }
  assert (Hq1 : (1 - e) / (1 - E) <= 1).
  { apply (Rmult_le_reg_r (1 - E)); [lra|].
    replace ((1 - e) / (1 - E) * (1 - E)) with (1 - e) by (field; lra). lra. }
  rewrite (proj2 (R_leb_le _ _) Hq0), (proj2 (R_leb_le _ _) Hq1). simpl.
  f_equal.
  replace (1 - (1 - E) * ((1 - e) / (1 - E))) with e by (field; lra).
  unfold e. rewrite ln_exp. field. lra.
Qed.

Lemma ArmExp_inv_cdf_of_cdf_witness :
  ArmExp_inv_cdf exp ln 2 1 (ArmExp_cdf exp 2 1 (1 / 3)) = Some (1 / 3).
Proof.
  apply (ArmExp_inv_cdf_of_cdf 2 1 (1 / 3)); lra.
Defined.
End ExponentialArm.

Section BetaArm.
Local Open Scope Qc_scope.

(** X6: for positive parameters the mean that [ArmBeta] stores lies
    strictly between 0 and 1, and the variance it stores is
    [mean * (1 - mean) / (a + b + 1)]. *)
Theorem ArmBeta_moments (a b : Qc) :
  0 < a -> 0 < b ->
  exists m v : Qc,
    ArmBeta a b = Moments m (Some v) /\
    0 < m /\ m < 1 /\ v = m * (1 - m) / (a + b + 1).
Proof.
  intros Ha Hb. eexists _, _. split; [reflexivity|].
  change (0 < a / (a + b) /\ a / (a + b) < 1 /\
          a * b / ((a + b) * ((a + b) * 1) * (a + b + 1))
          = a / (a + b) * (1 - a / (a + b)) / (a + b + 1)).
  assert (Hab : 0 < a + b).
  { qc2q. lra. }
  assert (Hab1 : 0 < a + b + 1).
  { qc2q. lra. }
  split; [|split].
  - qc2q. apply Qlt_shift_div_l; lra.
  - qc2q. apply Qlt_shift_div_r; lra.
  - apply Qclt_not_eq in Hab, Hab1. field.
    split; intros Heq; [apply Hab|apply Hab1]; symmetry; exact Heq.
Qed.

Lemma ArmBeta_moments_witness :
  exists m v : Qc,
    ArmBeta (Q2Qc 2) (Q2Qc 3) = Moments m (Some v) /\
    0 < m /\ m < 1 /\ v = m * (1 - m) / (Q2Qc 2 + Q2Qc 3 + 1).
Proof.
  apply (ArmBeta_moments (Q2Qc 2) (Q2Qc 3)); vm_compute; reflexivity.
Defined.
End BetaArm.

(** ** The regret constant *)

Lemma xadd_nan_r (a : xnum) : xadd a NaN = NaN.
Proof. by destruct a. Qed.

Lemma xsum_nan (l : list xnum) : foldl xadd NaN l = NaN.
Proof. induction l as [|x l IH]; [done|]. simpl. exact IH. Qed.

Lemma xsum_with_nan (l : list xnum) (acc : xnum) :
  NaN ∈ l -> foldl xadd acc l = NaN.
Proof.
  revert acc. induction l as [|x l IH]; intros acc Hin.
  - by apply elem_of_nil in Hin.
  - apply elem_of_cons in Hin as [<-|Hin]; simpl.
    + rewrite xadd_nan_r. apply xsum_nan.
    + by apply IH.
Qed.

Lemma Qc_is0_false (q : Qc) : q <> 0%Qc -> Qc_is0 q = false.
Proof.
  intros Hq. unfold Qc_is0, Qc_eqb.
  destruct (q ?= 0)%Qc eqn:Hc; try done.
  exfalso. apply Hq. by apply Qceq_alt.
Qed.

Lemma Qc_is0_true (q : Qc) : Qc_is0 q = true -> q = 0%Qc.
Proof.
  unfold Qc_is0, Qc_eqb. destruct (q ?= 0)%Qc eqn:Hc; try done.
  intros _. by apply Qceq_alt.
Qed.

Lemma kl_at_0_and_1 (np_log : xnum -> xnum) (y : Qc) :
  np_log (Fin 0%Qc) = NInf -> y <> 0%Qc -> y <> 1%Qc ->
  kl np_log (Fin 0%Qc) (Fin y) = NaN /\ kl np_log (Fin 1%Qc) (Fin y) = NaN.
Proof.
  intros Hlog Hy0 Hy1. unfold kl. simpl.
  assert (H1y : (1 + - y)%Qc <> 0%Qc).
  { intros Heq. apply Hy1.
    assert (Hy : y = (1 - (1 + - y))%Qc) by ring.
    rewrite Hy, Heq. ring. }
  split.
  - rewrite (Qc_is0_false y Hy0).
    replace (0 / y)%Qc with 0%Qc by (unfold Qcdiv; ring).
    rewrite Hlog. reflexivity.
  - unfold xsub. simpl. change (Z2Qc 1) with 1%Qc.
    replace (1 + - 1)%Qc with 0%Qc by ring.
    rewrite (Qc_is0_false _ H1y).
    replace (0 / (1 + - y))%Qc with 0%Qc by (unfold Qcdiv; ring).
    rewrite Hlog. simpl. apply xadd_nan_r.
Qed.

(** X7: [kl] does not take the convention [0 log 0 = 0]: at a first
    argument 0 or 1 (and a second one other than 0 and 1) its value is NaN,
    the logarithm of 0 being minus infinity. *)
Theorem kl_degenerate_is_nan (np_log : xnum -> xnum) (y : Qc) :
  np_log (Fin 0%Qc) = NInf -> y <> 0%Qc -> y <> 1%Qc ->
  kl np_log (Fin 0%Qc) (Fin y) = NaN /\ kl np_log (Fin 1%Qc) (Fin y) = NaN.
Proof.
  exact (kl_at_0_and_1 np_log y).
Qed.

Lemma kl_degenerate_is_nan_witness :
  kl xlog (Fin 0%Qc) (Fin (Q2Qc (1 # 2))) = NaN /\
  kl xlog (Fin 1%Qc) (Fin (Q2Qc (1 # 2))) = NaN.
Proof.
  apply (kl_degenerate_is_nan xlog (Q2Qc (1 # 2))).
  - reflexivity.
  - intros Heq. apply (f_equal this) in Heq. vm_compute in Heq. discriminate.
  - intros Heq. apply (f_equal this) in Heq. vm_compute in Heq. discriminate.
Defined.

(** X8: the constant [Cp] of the constructor is NaN as soon as one arm has
    mean 0 while the best mean lies strictly between 0 and 1. *)
Theorem Cp_is_nan_with_a_zero_mean (np_log : xnum -> xnum) (means : list xnum)
    (mu_max : Qc) :
  np_log (Fin 0%Qc) = NInf -> mu_max <> 0%Qc -> mu_max <> 1%Qc ->
  Fin 0%Qc ∈ means ->
  Cp np_log means (Fin mu_max) = NaN.
Proof.
  intros Hlog H0 H1 Hin. unfold Cp, np_sum.
  apply xsum_with_nan.
  apply list_elem_of_fmap. exists (Fin 0%Qc). split.
  - destruct (kl_at_0_and_1 np_log mu_max Hlog H0 H1) as [-> _].
    reflexivity.
  - apply list_elem_of_filter. split; [|done].
    unfold fneb. simpl. unfold Qc_eqb.
    destruct (0 ?= mu_max)%Qc eqn:Hc; try done.
    exfalso. apply H0. symmetry. by apply Qceq_alt.
Qed.

Lemma Cp_is_nan_with_a_zero_mean_witness :
  Cp xlog [Fin (Q2Qc (1 # 2)); Fin 0%Qc] (Fin (Q2Qc (1 # 2))) = NaN.
Proof.
  apply (Cp_is_nan_with_a_zero_mean xlog [Fin (Q2Qc (1 # 2)); Fin 0%Qc] (Q2Qc (1 # 2))).
  - reflexivity.
  - intros Heq. apply (f_equal this) in Heq. vm_compute in Heq. discriminate.
  - intros Heq. apply (f_equal this) in Heq. vm_compute in Heq. discriminate.
  - right. left.
Defined.

(** ** The bookkeeping of the baseline policies *)

Section Tallies.
Context {num : Type} `{NumOps num}.
Local Open Scope num_scope.

Variable nb_arms : nat.
Variable sample : nat -> nat -> bool.

Lemma update_lists_tallies (t arm : nat) (l l' : lists num) :
  update_lists nb_arms sample t arm l = Some l' ->
  Sa l' = alter (fun s => s +! (if sample t arm then fone else fzero)) arm (Sa l) /\
  Na l' = alter (fun n => n +! fone) arm (Na l).
Proof.
  unfold update_lists; intros Hu.
  repeat case_guard; simplify_eq/=; auto.
Qed.

Lemma update_lists_total (t arm : nat) (l : lists num) :
  arm < nb_arms -> t < length (arm_sequence l) -> t < length (reward l) ->
  is_Some (update_lists nb_arms sample t arm l).
Proof.
  intros Ha Ht Hr. unfold update_lists.
  repeat (case_guard; [simpl|done]). by eexists.
Qed.

Lemma update_lists_lengths (t arm : nat) (l l' : lists num) :
  update_lists nb_arms sample t arm l = Some l' ->
  length (Sa l') = length (Sa l) /\ length (Na l') = length (Na l) /\
  length (reward l') = length (reward l) /\
  length (arm_sequence l') = length (arm_sequence l).
Proof.
  intros Hu. destruct (update_lists_tallies _ _ _ _ Hu) as [-> ->].
  destruct (update_lists_inv _ _ _ _ _ _ Hu) as (_ & _ & _ & -> & ->).
  by rewrite !length_alter, !length_insert.
Qed.
End Tallies.

Lemma run_rounds_fails {St : Type} (round : nat -> St -> option St) (t n : nat)
    (st : St) :
  (forall st', round t st' = None) -> t < n -> run_rounds round n st = None.
Proof.
  intros Hfail Ht. induction n as [|n IH]; [lia|].
  simpl. destruct (decide (t = n)) as [->|Hne].
  - destruct (run_rounds round n st); simpl; [apply Hfail|done].
  - rewrite IH by lia. done.
Qed.

Lemma run_rounds_invariant {St : Type} (round : nat -> St -> option St)
    (Inv : St -> Prop) :
  (forall t st st', Inv st -> round t st = Some st' -> Inv st') ->
  forall (n : nat) (st0 st : St),
    Inv st0 -> run_rounds round n st0 = Some st -> Inv st.
Proof.
  intros Hstep n. induction n as [|n IH]; intros st0 st H0 Hrun.
  - injection Hrun as <-. done.
  - simpl in Hrun. destruct (run_rounds round n st0) as [stn|] eqn:Hn;
      simpl in Hrun; [|discriminate].
    eapply Hstep; [|exact Hrun]. by eapply IH.
Qed.

Section ExactTallies.
Local Open Scope Qc_scope.

Lemma Z2Qc_plus (a b : Z) : Z2Qc (a + b) = Z2Qc a + Z2Qc b.
Proof.
  apply Qc_is_canon. unfold Z2Qc. simpl.
  rewrite !Qred_correct. by rewrite inject_Z_plus.
Qed.

Lemma Z2Qc_le (a b : Z) : (a <= b)%Z -> Z2Qc a <= Z2Qc b.
Proof.
  intros Hab. unfold Qcle, Z2Qc. simpl. rewrite !Qred_correct.
  unfold Qle. simpl. lia.
Qed.

Lemma of_nat_S (i : nat) : of_nat (num := Qc) (S i) = of_nat i + 1.
Proof.
  unfold of_nat, of_Z. simpl fconst.
  replace (Z.of_nat (S i)) with (Z.of_nat i + 1)%Z by lia.
  by rewrite Z2Qc_plus.
Qed.

Lemma of_nat_le (i j : nat) : (i <= j)%nat -> of_nat (num := Qc) i <= of_nat j.
Proof. intros Hij. apply Z2Qc_le. lia. Qed.

Lemma tallies_init (nb_arms T : nat) : tallies nb_arms (init_lists nb_arms T).
Proof.
  unfold tallies, init_lists, np_zeros. simpl.
  rewrite !length_replicate. do 2 (split; [done|]).
  intros k s n [-> _]%lookup_replicate [-> _]%lookup_replicate.
  exists 0%nat, 0%nat. done.
Qed.

Lemma tallies_update (nb_arms : nat) (sample : nat -> nat -> bool) (t arm : nat)
    (l l' : lists Qc) :
  tallies nb_arms l -> update_lists nb_arms sample t arm l = Some l' ->
  tallies nb_arms l'.
Proof.
  intros (HlS & HlN & Hc) Hu.
  destruct (update_lists_tallies _ _ _ _ _ _ Hu) as [HS HN].
  unfold tallies. rewrite HS, HN, !length_alter.
  do 2 (split; [done|]).
  intros k s n Hs Hn. destruct (decide (arm = k)) as [<-|Hne].
  - rewrite list_lookup_alter_eq in Hs. rewrite list_lookup_alter_eq in Hn.
    destruct (Sa l !! arm) as [s0|] eqn:Hs0; simpl in Hs; [|discriminate].
    destruct (Na l !! arm) as [n0|] eqn:Hn0; simpl in Hn; [|discriminate].
    injection Hs as <-. injection Hn as <-.
    destruct (Hc arm s0 n0 Hs0 Hn0) as (i & j & Hij & -> & ->).
    destruct (sample t arm).
    + exists (S i), (S j). rewrite !of_nat_S. split; [lia|done].
    + exists i, (S j). rewrite of_nat_S. split; [lia|].
      split; [|done]. qc_ops. ring.
  - rewrite list_lookup_alter_ne in Hs by done.
    rewrite list_lookup_alter_ne in Hn by done. by apply (Hc k).
Qed.

(** The counts after some rounds of any loop whose rounds end with
    [update_lists]. *)
Lemma run_rounds_tallies {St : Type} (round : nat -> St -> option St)
    (hist : St -> lists Qc) (nb_arms : nat) (sample : nat -> nat -> bool) :
  (forall t st st', round t st = Some st' ->
     exists arm, update_lists nb_arms sample t arm (hist st) = Some (hist st')) ->
  forall (n : nat) (st0 st : St),
    tallies nb_arms (hist st0) -> run_rounds round n st0 = Some st ->
    tallies nb_arms (hist st).
Proof.
  intros Hround. apply (run_rounds_invariant round (fun st => tallies nb_arms (hist st))).
  intros t st st' Hinv Hr. destruct (Hround t st st' Hr) as [arm Hu].
  by eapply tallies_update.
Qed.
End ExactTallies.

(** ** Thompson sampling and BayesUCB *)

Section PosteriorParameters.
Local Open Scope Qc_scope.

Variable nb_arms : nat.
Variable np_log : Qc -> Qc.
Variable sample : nat -> nat -> bool.
Variable rd_argmax : nat -> list Qc -> nat.
Variable random_beta : nat -> nat -> Qc -> Qc -> Qc.
Variable random_uniform : nat -> nat -> Qc.
Variable beta_ppf : Qc -> Qc -> Qc -> Qc.

Lemma TS_round_pulls (t : nat) (st st' : list Qc * lists Qc) :
  TS_round nb_arms sample rd_argmax random_beta random_uniform t st = Some st' ->
  exists arm, update_lists nb_arms sample t arm st.2 = Some st'.2.
Proof.
  unfold TS_round. intros Hr.
  destruct (foldl_opt _ _ _) as [theta|]; simpl in Hr; [|discriminate].
  destruct (update_lists _ _ _ _ _) as [l'|] eqn:Hu; simpl in Hr; [|discriminate].
  injection Hr as <-. by eexists.
Qed.

Lemma BayesUCB_round_pulls (T : nat) (p1 p2 : Qc) (c : Z) (t : nat)
    (st st' : list Qc * lists Qc) :
  BayesUCB_round nb_arms np_log sample rd_argmax beta_ppf T p1 p2 c t st = Some st' ->
  exists arm, update_lists nb_arms sample t arm st.2 = Some st'.2.
Proof.
  unfold BayesUCB_round. intros Hr.
  destruct (foldl_opt _ _ _) as [q|]; simpl in Hr; [|discriminate].
  destruct (update_lists _ _ _ _ _) as [l'|] eqn:Hu; simpl in Hr; [|discriminate].
  injection Hr as <-. by eexists.
Qed.

(** X9: at every round of [TS], the two parameters it would pass to
    [np.random.beta] for an arm are at least 1, whatever the rewards and
    the draws: the sampler is never called outside its domain. *)
Theorem TS_beta_parameters_valid (n T k : nat) (theta : list Qc) (l : lists Qc)
    (a b : Qc) :
  TS_upto nb_arms sample rd_argmax random_beta random_uniform n T = Some (theta, l) ->
  TS_beta_args l k = Some (a, b) ->
  1 <= a /\ 1 <= b.
Proof.
  unfold TS_upto. intros Hrun Hargs.
  pose proof (run_rounds_tallies _ snd nb_arms sample TS_round_pulls n
                (np_zeros nb_arms, init_lists nb_arms T) _
                (tallies_init nb_arms T) Hrun) as (_ & _ & Hc).
  unfold TS_beta_args in Hargs. simpl in Hc.
  destruct (Sa l !! k) as [s|] eqn:Hs; simpl in Hargs; [|discriminate].
  destruct (Na l !! k) as [m|] eqn:Hm; simpl in Hargs; [|discriminate].
  injection Hargs as <- <-.
  destruct (Hc k s m Hs Hm) as (i & j & Hij & Hs' & Hm').
  assert (H0 : 0 <= s) by (rewrite Hs'; apply (of_nat_le 0 i); lia).
  assert (H1 : s <= m) by (rewrite Hs', Hm'; by apply of_nat_le).
  clear - H0 H1. qc_ops. split; qc2q; lra.
Qed.


(** X10: the test [Na[k] >= 1] of [BayesUCB] separates two equal cases: at
    every round the quantile stored for an arm is the one of the posterior
    [Beta(Sa[k] + p1, p2 + Na[k] - Sa[k])], pulled or not. *)
Theorem BayesUCB_quantile_of_the_posterior (n T k : nat) (p1 p2 : Qc) (c : Z)
    (q : list Qc) (l : lists Qc) :
  BayesUCB_upto nb_arms np_log sample rd_argmax beta_ppf n T p1 p2 c = Some (q, l) ->
  (k < nb_arms)%nat ->
  exists s m : Qc,
    Sa l !! k = Some s /\ Na l !! k = Some m /\
    UCB_quantile np_log beta_ppf T n p1 p2 c l k
    = Some (beta_ppf (ucb_level np_log T n c) (s + p1) (p2 + m - s)).
Proof.
  unfold BayesUCB_upto. intros Hrun Hk.
  pose proof (run_rounds_tallies _ snd nb_arms sample
                (BayesUCB_round_pulls T p1 p2 c) n
                (np_zeros nb_arms, init_lists nb_arms T) _
                (tallies_init nb_arms T) Hrun) as (HlS & HlN & Hc).
  simpl in HlS, HlN, Hc.
  destruct (lookup_lt_is_Some_2 (Sa l) k ltac:(lia)) as [s Hs].
  destruct (lookup_lt_is_Some_2 (Na l) k ltac:(lia)) as [m Hm].
  exists s, m. do 2 (split; [done|]).
  unfold UCB_quantile. rewrite Hm, Hs. simpl. qc_ops.
  destruct (Qc_leb 1 m) eqn:Hle; [reflexivity|].
  destruct (Hc k s m Hs Hm) as (i & j & Hij & -> & ->).
  destruct j as [|j].
  - assert (i = 0%nat) as -> by lia.
    change (Z2Qc (Z.of_nat 0)) with 0. do 2 f_equal; ring.
  - exfalso. pose proof (of_nat_le 1 (S j) ltac:(lia)) as H1.
    change (of_nat (num := Qc) 1) with 1 in H1.
    apply Qc_leb_le in H1.
    change (Qc_leb 1 (of_nat (S j)) = false) in Hle. congruence.
Qed.
End PosteriorParameters.

Lemma TS_beta_parameters_valid_witness :
  (1 <= Q2Qc 3 /\ 1 <= 1)%Qc.
Proof.
  apply (TS_beta_parameters_valid 2 always_reward (pick_argmax 0)
           (fun _ _ _ _ => Q2Qc (1 # 2)) (fun _ _ => Q2Qc (1 # 2)) 2 3 0
           [Q2Qc (1 # 2); Q2Qc (1 # 2)]
           (Lists [Q2Qc 2; 0%Qc] [Q2Qc 2; 0%Qc] [1%Qc; 1%Qc; 0%Qc] [0; 0; 0])).
  - vm_compute. qc_eq.
  - vm_compute. qc_eq.
Defined.

Lemma BayesUCB_quantile_of_the_posterior_witness :
  exists s m : Qc,
    [0%Qc; 0%Qc] !! 1 = Some s /\ [1%Qc; 0%Qc] !! 1 = Some m /\
    UCB_quantile tangent_log (fun q a b => (q + a / (a + b))%Qc) 3 1 1%Qc 1%Qc 0
                 (Lists [0%Qc; 0%Qc] [1%Qc; 0%Qc] [0%Qc; 0%Qc; 0%Qc] [0; 0; 0]) 1
    = Some ((fun q a b => (q + a / (a + b))%Qc)
              (ucb_level tangent_log 3 1 0) (s + 1)%Qc (1 + m - s)%Qc).
Proof.
  apply (BayesUCB_quantile_of_the_posterior 2 tangent_log (fun _ _ => false)
           (pick_argmax 0) (fun q a b => (q + a / (a + b))%Qc) 1 3 1 1%Qc 1%Qc 0
           [Q2Qc (1 # 2); Q2Qc (1 # 2)]
           (Lists [0%Qc; 0%Qc] [1%Qc; 0%Qc] [0%Qc; 0%Qc; 0%Qc] [0; 0; 0])).
  - vm_compute. qc_eq.
  - lia.
Defined.

(** ** The knowledge-gradient policies *)

Section KnowledgeGradient.
Context {num : Type} `{NumOps num}.
Local Open Scope num_scope.
Local Abbreviation vec := (list num).

Variable nb_arms : nat.
Variable sample : nat -> nat -> bool.
Variable rd_argmax : nat -> vec -> nat.
Variable value : num -> num -> num -> num -> num.

Lemma KG_round_pulls (T t : nat) (st st' : vec * lists num) :
  KG_round nb_arms sample rd_argmax value T t st = Some st' ->
  exists arm, update_lists nb_arms sample t arm st.2 = Some st'.2 /\
              (t < nb_arms -> arm = t /\ st'.1 = st.1).
Proof.
  unfold KG_round. intros Hr.
  destruct (KG_select _ _ _ _ _ _ _) as [[arm v']|] eqn:Hs; simpl in Hr; [|discriminate].
  destruct (update_lists _ _ _ _ _) as [l'|] eqn:Hu; simpl in Hr; [|discriminate].
  injection Hr as <-. exists arm. split; [done|].
  intros Ht. unfold KG_select in Hs.
  rewrite bool_decide_eq_true_2 in Hs by done. by injection Hs as <- <-.
Qed.

(** With a single arm there is no other arm to compare with. *)
Lemma KG_round_single_arm (T t : nat) (st : vec * lists num) :
  nb_arms = 1 -> 1 <= t ->
  KG_round nb_arms sample rd_argmax value T t st = None.
Proof.
  intros -> Ht. unfold KG_round, KG_select.
  rewrite bool_decide_eq_false_2 by lia. reflexivity.
Qed.

(** The first rounds pull the arms in turn. *)
Lemma KG_round_robin (n T : nat) :
  n <= nb_arms -> n <= T ->
  exists l : lists num,
    run_rounds (KG_round nb_arms sample rd_argmax value T) n
               (np_zeros nb_arms, init_lists nb_arms T)
    = Some (np_zeros nb_arms, l) /\
    length (arm_sequence l) = T /\ length (reward l) = T /\
    forall t, t < n -> arm_sequence l !! t = Some t.
Proof.
  induction n as [|n IH]; intros Hn HT.
  - exists (init_lists nb_arms T). simpl.
    unfold np_zeros. rewrite !length_replicate. repeat split; intros; lia.
  - destruct (IH ltac:(lia) ltac:(lia)) as (l & Hrun & Hla & Hlr & Hseq).
    simpl. rewrite Hrun. simpl.
    unfold KG_round, KG_select. simpl.
    rewrite bool_decide_eq_true_2 by lia. simpl.
    destruct (update_lists_total nb_arms sample n n l) as [l' Hu]; [lia..|].
    rewrite Hu. simpl. exists l'. split; [done|].
    destruct (update_lists_inv _ _ _ _ _ _ Hu) as (_ & _ & _ & Ha & Hr).
    rewrite Ha, Hr, !length_insert. do 2 (split; [done|]).
    intros t Ht. destruct (decide (t = n)) as [->|Hne].
    + apply list_lookup_insert_eq. lia.
    + rewrite list_lookup_insert_ne by done. apply Hseq. lia.
Qed.
End KnowledgeGradient.

(** X11: [KG] and [Approx_KG_star] start with a round robin: as long as
    [t < nb_arms] round [t] pulls arm [t], whatever the rewards. *)
Theorem KG_starts_with_a_round_robin {num : Type} `{NumOps num} (nb_arms : nat)
    (sample : nat -> nat -> bool) (rd_argmax : nat -> list num -> nat)
    (np_power : num -> num -> num) (n T t : nat) :
  n <= nb_arms -> n <= T -> t < n ->
  exists (v v' : list num) (l l' : lists num),
    KG_upto nb_arms sample rd_argmax n T = Some (v, l) /\
    Approx_KG_star_upto nb_arms sample rd_argmax np_power n T = Some (v', l') /\
    arm_sequence l !! t = Some t /\ arm_sequence l' !! t = Some t.
Proof.
  intros Hn HT Ht.
  destruct (KG_round_robin nb_arms sample rd_argmax KG_value n T Hn HT)
    as (l & Hrun & _ & _ & Hseq).
  destruct (KG_round_robin nb_arms sample rd_argmax
              (fun _ => KG_star_value np_power) n T Hn HT)
    as (l' & Hrun' & _ & _ & Hseq').
  exists (np_zeros nb_arms), (np_zeros nb_arms), l, l'. auto.
Qed.

Lemma KG_starts_with_a_round_robin_witness :
  exists (v v' : list Qc) (l l' : lists Qc),
    KG_upto 3 always_reward (pick_argmax 0) 3 5 = Some (v, l) /\
    Approx_KG_star_upto 3 always_reward (pick_argmax 0) (fun x _ => x) 3 5
    = Some (v', l') /\
    arm_sequence l !! 2 = Some 2 /\ arm_sequence l' !! 2 = Some 2.
Proof.
  apply (KG_starts_with_a_round_robin 3 always_reward (pick_argmax 0)
           (fun x _ => x) 3 5 2); lia.
Defined.

(** X12: on a bandit with a single arm [KG] and [Approx_KG_star] raise as
    soon as the horizon is at least 2: at round 1 the maximum over the other
    arms is taken of an empty list. *)
Theorem KG_raises_on_a_single_arm {num : Type} `{NumOps num}
    (sample : nat -> nat -> bool) (rd_argmax : nat -> list num -> nat)
    (np_power : num -> num -> num) (T : nat) :
  2 <= T ->
  KG 1 sample rd_argmax T = None /\
  Approx_KG_star 1 sample rd_argmax np_power T = None.
Proof.
  intros HT. split.
  - apply (run_rounds_fails _ 1); [|lia].
    intros st. by apply KG_round_single_arm.
  - apply (run_rounds_fails _ 1); [|lia].
    intros st. by apply KG_round_single_arm.
Qed.

Lemma KG_raises_on_a_single_arm_witness :
  KG (num := Qc) 1 always_reward (pick_argmax 0) 2 = None /\
  Approx_KG_star (num := Qc) 1 always_reward (pick_argmax 0) (fun x _ => x) 2 = None.
Proof.
  apply (KG_raises_on_a_single_arm always_reward (pick_argmax 0) (fun x _ => x) 2).
  lia.
Defined.

Section KnowledgeGradientCounts.
Local Open Scope Qc_scope.

Variable nb_arms : nat.
Variable sample : nat -> nat -> bool.
Variable rd_argmax : nat -> list Qc -> nat.
Variable value : Qc -> Qc -> Qc -> Qc -> Qc.

(** After [n] rounds the arms below [n] have been pulled. *)
Lemma KG_counts (n T : nat) (v : list Qc) (l : lists Qc) :
  run_rounds (KG_round nb_arms sample rd_argmax value T) n
             (np_zeros nb_arms, init_lists nb_arms T) = Some (v, l) ->
  tallies nb_arms l /\
  forall k, (k < n)%nat -> (k < nb_arms)%nat ->
            exists m : Qc, Na l !! k = Some m /\ 1 <= m.
Proof.
  revert v l. induction n as [|n IH]; intros v l Hrun.
  - injection Hrun as <- <-. split; [apply tallies_init|]. intros; lia.
  - simpl in Hrun.
    destruct (run_rounds _ n _) as [[v1 l1]|] eqn:Hn; simpl in Hrun; [|discriminate].
    destruct (IH v1 l1 eq_refl) as [Htal Hpos].
    destruct (KG_round_pulls _ _ _ _ _ _ _ _ Hrun) as (arm & Hu & Harm).
    simpl in Hu, Harm.
    split; [by eapply tallies_update|].
    destruct (update_lists_tallies _ _ _ _ _ _ Hu) as [_ HN].
    intros k Hk Hka. rewrite HN.
    destruct Htal as (HlS & HlN & Hc).
    destruct (lookup_lt_is_Some_2 (Na l1) k ltac:(lia)) as [m Hm].
    destruct (lookup_lt_is_Some_2 (Sa l1) k ltac:(lia)) as [s Hs].
    destruct (decide (arm = k)) as [->|Hne].
    + rewrite list_lookup_alter_eq, Hm. simpl. eexists; split; [reflexivity|].
      destruct (Hc k s m Hs Hm) as (i & j & _ & _ & Hm').
      assert (H0 : 0 <= m) by (rewrite Hm'; apply (of_nat_le 0 j); lia).
      clear - H0. qc_ops. qc2q. lra.
    + rewrite list_lookup_alter_ne by done.
      destruct (decide (k = n)) as [->|Hkn].
      * destruct (Harm Hka) as [-> _]. done.
      * apply Hpos; lia.
Qed.
End KnowledgeGradientCounts.

(** X13: once the round robin of [KG] or [Approx_KG_star] is over, every
    arm has been pulled: from round [nb_arms] on, every entry of [Na] is at
    least 1 and the means [Sa / Na] divide by no zero. *)
Theorem KG_counts_are_positive (nb_arms : nat) (sample : nat -> nat -> bool)
    (rd_argmax : nat -> list Qc -> nat) (np_power : Qc -> Qc -> Qc)
    (n T k : nat) (v : list Qc) (l : lists Qc) :
  nb_arms <= n -> k < nb_arms ->
  KG_upto nb_arms sample rd_argmax n T = Some (v, l) \/
  Approx_KG_star_upto nb_arms sample rd_argmax np_power n T = Some (v, l) ->
  exists m : Qc, Na l !! k = Some m /\ (1 <= m)%Qc.
Proof.
  intros Hn Hk [Hrun|Hrun].
  - destruct (KG_counts nb_arms sample rd_argmax _ n T v l Hrun) as [_ Hpos].
    apply Hpos; lia.
  - destruct (KG_counts nb_arms sample rd_argmax _ n T v l Hrun) as [_ Hpos].
    apply Hpos; lia.
Qed.

Lemma KG_counts_are_positive_witness :
  exists m : Qc, [1%Qc; 1%Qc] !! 1 = Some m /\ (1 <= m)%Qc.
Proof.
  apply (KG_counts_are_positive 2 always_reward (pick_argmax 0) (fun x _ => x)
           2 3 1 [0%Qc; 0%Qc]
           (Lists [1%Qc; 1%Qc] [1%Qc; 1%Qc] [1%Qc; 1%Qc; 0%Qc] [0; 1; 0])).
  - lia.
  - lia.
  - left. vm_compute. qc_eq.
Defined.

Section KnowledgeGradientValues.
Local Open Scope Qc_scope.

(** X14: the factor [v[arm]] of [KG] is never negative when the arm has
    [s] successes in [n >= 1] pulls and [mu[arm] = s / n]: the index
    [mu + (T - t) * v] is at least the empirical mean. *)
Theorem KG_value_nonneg (s n c : Qc) :
  0 <= s -> s <= n -> 0 < n ->
  0 <= KG_value s n (s / n) c.
Proof.
  intros Hs Hsn Hn. unfold KG_value. simpl. qc_ops.
  assert (Hm0 : 0 <= s / n).
  { clear - Hs Hn. qc2q. apply Qle_shift_div_l; lra. }
  assert (Hm1 : s / n <= 1).
  { clear - Hsn Hn. qc2q. apply Qle_shift_div_r; lra. }
  revert Hm0 Hm1. generalize (s / n). intros m Hm0 Hm1.
  destruct (Qc_leb m c && Qc_ltb c ((s + 1) / (n + 1))) eqn:H1.
  - apply andb_true_iff in H1 as [_ H1%Qc_ltb_lt].
    revert H1. generalize ((s + 1) / (n + 1)). intros u H1.
    clear - Hm0 H1. qc2q. nra.
  - destruct (Qc_ltb (s / (n + 1)) c && Qc_ltb c m) eqn:H2.
    + apply andb_true_iff in H2 as [H2%Qc_ltb_lt _].
      revert H2. generalize (s / (n + 1)). intros w H2.
      clear - Hm1 H2. qc2q. nra.
    + by vm_compute.
Qed.

Lemma KG_value_nonneg_witness :
  0 <= KG_value 1 (Q2Qc 2) (1 / Q2Qc 2) (Q2Qc (3 # 5)).
Proof.
  apply (KG_value_nonneg 1 (Q2Qc 2) (Q2Qc (3 # 5))); vm_compute;
    first [reflexivity | discriminate].
Defined.

(** X15: when the mean of an arm equals the best mean of the others,
    [Approx_KG_star] divides [mu ** 0 = 1] by [ta = 0] and [nan_to_num]
    turns the infinity into the largest finite float: [m[arm]] is about
    [1.8e308]. *)
Theorem KG_star_value_at_a_tie (np_power : xnum -> xnum -> xnum) (n c : Qc) :
  (forall x : xnum, np_power x (Fin 0) = Fin 1) ->
  0 <= n -> c <= 1 ->
  KG_star_value np_power (Fin n) (Fin c) (Fin c) = Fin float_max.
Proof.
  intros Hpow Hn Hc. unfold KG_star_value, ten_e_minus9. simpl.
  assert (Hcc : Qc_eqb c c = true).
  { unfold Qc_eqb. by rewrite (proj1 (Qceq_alt c c) eq_refl). }
  unfold xleb. simpl. rewrite Hcc, orb_true_r.
  assert (Hd : (1 + - c + Q2Qc (1 # 100000000)) <> 0).
  { intros Heq. assert (H1 : 0 < 1 + - c + Q2Qc (1 # 100000000)).
    { clear - Hc. qc2q. lra. }
    rewrite Heq in H1. revert H1. by vm_compute. }
  change (Z2Qc 1) with 1.
  rewrite (Qc_is0_false _ Hd).
  replace (n * (c + - c) / (1 + - c + Q2Qc (1 # 100000000))) with 0
    by (field; exact Hd).
  rewrite Hpow. reflexivity.
Qed.

Lemma KG_star_value_at_a_tie_witness :
  KG_star_value xpower (Fin (Q2Qc 3)) (Fin (Q2Qc (1 # 2))) (Fin (Q2Qc (1 # 2)))
  = Fin float_max.
Proof.
  apply (KG_star_value_at_a_tie xpower (Q2Qc 3) (Q2Qc (1 # 2))).
  - intros x. reflexivity.
  - vm_compute. discriminate.
  - vm_compute. discriminate.
Defined.
End KnowledgeGradientValues.

(** ** The posterior grid *)

Lemma qfact_le (i j : nat) : i <= j -> (qfact i <= qfact j)%Qc.
Proof.
  intros Hij. unfold qfact. apply Z2Qc_le. apply inj_le. by apply fact_le.
Qed.

Lemma qfact_Zfact (n : nat) : qfact n = Z2Qc (Zfact n).
Proof.
  unfold qfact. f_equal. induction n as [|n IH]; [done|].
  change (fact (S n)) with (S n * fact n). rewrite Nat2Z.inj_mul, IH. reflexivity.
Qed.

(** X16: [fact_list(n)] is the table of the factorials: it has [n + 1]
    entries and, up to index 170, entry [i] is [i!], a number below the
    largest float.  [171!] lies above the largest float: from there on the
    float64 table overflows, and the exact table stands for it no more. *)
Theorem fact_list_is_factorial_table (n i : nat) :
  i <= n -> (Z.of_nat i <= largest_factorial)%Z ->
  length (fact_list (num := Qc) (Z.of_nat n)) = S n /\
  fact_list (num := Qc) (Z.of_nat n) !! i = Some (qfact i) /\
  (qfact i <= float_max)%Qc /\
  (float_max < qfact (S (Z.to_nat largest_factorial)))%Qc.
Proof.
  intros Hi Hrange. unfold fact_list. rewrite Nat2Z.id.
  destruct (fact_list_prefix n n (le_n _)) as [Hlen Hl].
  split; [exact Hlen|]. split; [by apply Hl|]. split.
  - apply Qcle_trans with (qfact (Z.to_nat largest_factorial)).
    + apply qfact_le. unfold largest_factorial in *. lia.
    + rewrite qfact_Zfact. vm_compute. discriminate.
  - rewrite qfact_Zfact. vm_compute. reflexivity.
Qed.

Lemma fact_list_is_factorial_table_witness :
  length (fact_list (num := Qc) (Z.of_nat 5)) = 6 /\
  fact_list (num := Qc) (Z.of_nat 5) !! 4 = Some (qfact 4) /\
  (qfact 4 <= float_max)%Qc /\
  (float_max < qfact (S (Z.to_nat largest_factorial)))%Qc.
Proof.
  apply (fact_list_is_factorial_table 5 4).
  - lia.
  - unfold largest_factorial. lia.
Defined.

Section InitInversion.
Context {num : Type} `{NumOps num}.
Local Open Scope num_scope.

Variable nb_arms : nat.

Lemma init_approx_inv (N : nat) (beta_1 beta_2 : list Z) (g : grid num) :
  init_approx nb_arms N beta_1 beta_2 = Some g ->
  N <> 0 /\
  exists (count : Z) (B : list num) (f : list (list num)),
    Z_list_max (zip_with Z.add beta_1 beta_2) = Some count /\
    mapM (beta_const (fact_list count)) (zip beta_1 beta_2) = Some B /\
    mapM (density_row (np_linspace (fone /! of_nat N) fone N) beta_1 beta_2 B)
         (seq 0 nb_arms) = Some f /\
    g = Grid (np_linspace (fone /! of_nat N) fone N) f
             (map (fun r => np_cumsum (vdivs r (of_nat N))) f)
             (map (fun r => np_cumsum (vdivs (vmul r (np_linspace (fone /! of_nat N) fone N))
                                             (of_nat N))) f)
             B.
Proof.
  unfold init_approx. intros Hi.
  destruct (Z_list_max _) as [count|]; simpl in Hi; [|discriminate].
  destruct (mapM (beta_const _) _) as [B|] eqn:HB; simpl in Hi; [|discriminate].
  case_guard; simpl in Hi; [|discriminate].
  destruct (mapM (density_row _ _ _ _) _) as [f|] eqn:Hf; simpl in Hi; [|discriminate].
  injection Hi as <-. split; [done|]. by exists count, B, f.
Qed.

Lemma np_linspace_length (start stop : num) (n : nat) :
  length (np_linspace start stop n) = n.
Proof.
  destruct n as [|[|m]]; [done..|].
  unfold np_linspace. rewrite length_app, length_map, length_seq. simpl. lia.
Qed.

Lemma np_cumsum_length (a : list num) : length (np_cumsum a) = length a.
Proof.
  destruct a as [|x r]; [done|]. simpl. f_equal.
  revert x. induction r as [|y r IH]; intros x; [done|].
  simpl. f_equal. apply IH.
Qed.
End InitInversion.

Section GridPoints.
Local Open Scope Qc_scope.

Lemma of_nat_neq0 (n : nat) : n <> 0%nat -> of_nat (num := Qc) n <> 0.
Proof. intros Hn. apply Z2Qc_neq0. lia. Qed.

Lemma grid_points_lookup (N i : nat) :
  (i < N)%nat -> grid_points N !! i = Some (of_nat (S i) / of_nat N).
Proof.
  intros Hi. destruct N as [|[|m]]; [lia| |].
  - assert (i = 0%nat) as -> by lia. reflexivity.
  - unfold grid_points, np_linspace.
    pose proof (of_nat_neq0 (S m) ltac:(lia)) as Hb.
    pose proof (of_nat_neq0 (S (S m)) ltac:(lia)) as Hb1.
    rewrite (of_nat_S (S m)) in Hb1 |- *.
    destruct (decide (i < S m)%nat) as [Hlt|Hge].
    + rewrite lookup_app_l by (rewrite length_map, length_seq; lia).
      rewrite list_lookup_fmap, lookup_seq_lt by lia. simpl. f_equal.
      change (Z2Qc (Z.of_nat (S i))) with (@of_nat Qc Qc_ops (S i)).
      rewrite (of_nat_S i).
      change (Z2Qc (Z.of_nat (S m))) with (@of_nat Qc Qc_ops (S m)).
      change (Z2Qc (Z.of_nat i)) with (@of_nat Qc Qc_ops i).
      qc_ops.
      generalize dependent (of_nat (num := Qc) (S m)). intros b Hb Hb1.
      generalize (of_nat (num := Qc) i). intros a. field. by split.
    + assert (i = S m) as -> by lia.
      rewrite lookup_app_r by (rewrite length_map, length_seq; lia).
      rewrite length_map, length_seq, Nat.sub_diag. simpl. f_equal.
      change (Z2Qc (Z.of_nat (S (S m)))) with (@of_nat Qc Qc_ops (S (S m))).
      rewrite (of_nat_S (S m)).
      change (Z2Qc (Z.of_nat (S m))) with (@of_nat Qc Qc_ops (S m)).
      qc_ops. generalize dependent (of_nat (num := Qc) (S m)). intros b _ Hb1.
      field. exact Hb1.
Qed.
End GridPoints.

(** X17: the grid [X] of [init_approx] holds the [N] points [(i+1)/N]: it
    leaves out 0 and ends at 1. *)
Theorem init_approx_grid_points (nb_arms N : nat) (beta_1 beta_2 : list Z)
    (g : grid Qc) (i : nat) :
  init_approx nb_arms N beta_1 beta_2 = Some g -> i < N ->
  length (gX g) = N /\
  gX g !! i = Some (of_nat (S i) / of_nat N)%Qc.
Proof.
  intros (HN & count & B & f & _ & _ & _ & ->)%init_approx_inv Hi. simpl.
  split; [apply np_linspace_length|]. by apply grid_points_lookup.
Qed.

Lemma init_approx_grid_points_witness :
  length (gX grid_2_1) = 4 /\
  gX grid_2_1 !! 2 = Some (of_nat 3 / of_nat 4)%Qc.
Proof.
  apply (init_approx_grid_points 1 4 [2]%Z [1]%Z grid_2_1 2).
  - exact init_approx_2_1.
  - lia.
Defined.

Section UniformPrior.
Local Open Scope Qc_scope.
Local Arguments of_nat : simpl never.

Lemma cumsum_from_constant (c acc : Qc) (k i : nat) :
  (i < k)%nat ->
  cumsum_from acc (replicate k c) !! i = Some (acc + of_nat (S i) * c).
Proof.
  revert acc i. induction k as [|k IH]; intros acc i Hi; [lia|].
  simpl. destruct i as [|i]; simpl.
  - f_equal. qc_ops. ring.
  - rewrite IH by lia. f_equal. rewrite (of_nat_S (S i)). qc_ops. ring.
Qed.

Lemma np_cumsum_constant (c : Qc) (k i : nat) :
  (i < k)%nat -> np_cumsum (replicate k c) !! i = Some (of_nat (S i) * c).
Proof.
  intros Hi. destruct k as [|k]; [lia|]. simpl.
  destruct i as [|i]; simpl.
  - f_equal. change (of_nat (num := Qc) 1) with 1. ring.
  - rewrite cumsum_from_constant by lia. f_equal.
    rewrite (of_nat_S (S i)). ring.
Qed.

Lemma frow_uniform (X : list Qc) : frow X (1, 1)%Z = replicate (length X) 1.
Proof.
  unfold frow, vdivs, vmul, vpow, vcompl. simpl.
  induction X as [|x X IH]; [done|].
  simpl. rewrite IH. f_equal.
Qed.

(** X18: for the uniform prior Beta(1, 1) on every arm, [init_approx]
    returns the constant density 1, the normalising constant 1, and for [F]
    the grid itself: the distribution function of the uniform law is the
    identity. *)
Theorem init_approx_uniform_prior (nb_arms N a : nat) :
  nb_arms <> 0%nat -> N <> 0%nat -> (a < nb_arms)%nat ->
  exists g : grid Qc,
    init_approx nb_arms N (replicate nb_arms 1%Z) (replicate nb_arms 1%Z) = Some g /\
    gB g !! a = Some 1 /\ gf g !! a = Some (replicate N 1) /\
    gF g !! a = Some (gX g).
Proof.
  intros Harms HN Ha.
  rewrite (init_approx_spec nb_arms N _ _ (length_replicate _ _) (length_replicate _ _)
             Harms HN) by (by apply Forall_replicate).
  eexists; split; [reflexivity|]. cbv zeta. simpl.
  assert (Hz : zip (replicate nb_arms 1%Z) (replicate nb_arms 1%Z) !! a
               = Some (1, 1)%Z).
  { rewrite lookup_zip_with, lookup_replicate_2 by done. done. }
  assert (HlX : length (grid_points N) = N) by apply np_linspace_length.
  rewrite !list_lookup_fmap, Hz. simpl.
  rewrite frow_uniform, HlX.
  split; [f_equal; apply Qc_is_canon; reflexivity|]. split; [done|].
  f_equal. apply list_eq. intros i.
  destruct (decide (i < N)%nat) as [Hi|Hi].
  - unfold vdivs. rewrite fmap_replicate.
    rewrite np_cumsum_constant, grid_points_lookup by done.
    f_equal. qc_ops. unfold Qcdiv. ring.
  - rewrite !lookup_ge_None_2; [done|lia|].
    rewrite np_cumsum_length. unfold vdivs. rewrite length_map, length_replicate. lia.
Qed.

Lemma init_approx_uniform_prior_witness :
  exists g : grid Qc,
    init_approx 2 10 (replicate 2 1%Z) (replicate 2 1%Z) = Some g /\
    gB g !! 1%nat = Some 1 /\ gf g !! 1%nat = Some (replicate 10 1) /\
    gF g !! 1%nat = Some (gX g).
Proof.
  apply (init_approx_uniform_prior 2 10 1); lia.
Defined.
End UniformPrior.

Section Monotone.
Local Open Scope Qc_scope.
Local Arguments of_nat : simpl never.

Lemma Z2Qc_lt (a b : Z) : (a < b)%Z -> Z2Qc a < Z2Qc b.
Proof.
  intros Hab. unfold Qclt, Z2Qc. simpl. rewrite !Qred_correct.
  unfold Qlt. simpl. lia.
Qed.

Lemma qfact_pos (n : nat) : 0 < qfact n.
Proof.
  unfold qfact. apply (Z2Qc_lt 0). pose proof (lt_O_fact n). lia.
Qed.

Lemma Qc_div_nonneg (x d : Qc) : 0 <= x -> 0 < d -> 0 <= x / d.
Proof. intros Hx Hd. qc2q. apply Qle_shift_div_l; lra. Qed.

Lemma Qc_mult_nonneg (x y : Qc) : 0 <= x -> 0 <= y -> 0 <= x * y.
Proof. intros Hx Hy. qc2q. nra. Qed.

Lemma Qc_mult_pos (x y : Qc) : 0 < x -> 0 < y -> 0 < x * y.
Proof. intros Hx Hy. qc2q. nra. Qed.

Lemma Bq_pos (ab : Z * Z) : 0 < Bq ab.
Proof.
  unfold Bq.
  pose proof (qfact_pos (Z.to_nat (ab.1 - 1))) as H1.
  pose proof (qfact_pos (Z.to_nat (ab.2 - 1))) as H2.
  pose proof (qfact_pos (Z.to_nat (ab.1 + ab.2 - 1))) as H3.
  pose proof (Qc_mult_pos _ _ H1 H2) as H12.
  revert H12 H3. generalize (qfact (Z.to_nat (ab.1 - 1)) * qfact (Z.to_nat (ab.2 - 1))).
  generalize (qfact (Z.to_nat (ab.1 + ab.2 - 1))). clear.
  intros d x Hx Hd. qc2q. apply Qlt_shift_div_l; lra.
Qed.

Lemma Qc_pow_nonneg (x : Qc) (k : Z) : 0 <= x -> (0 <= k)%Z -> 0 <= Qc_pow x k.
Proof.
  intros Hx Hk. destruct k as [|p|p]; [by vm_compute| |lia].
  simpl. by apply Qcpower_pos.
Qed.

Lemma grid_points_range (N i : nat) (x : Qc) :
  grid_points N !! i = Some x -> 0 <= x /\ x <= 1.
Proof.
  intros Hx.
  assert (Hi : (i < N)%nat).
  { apply lookup_lt_Some in Hx. unfold grid_points in Hx.
    by rewrite np_linspace_length in Hx. }
  rewrite grid_points_lookup in Hx by done. injection Hx as <-.
  assert (H0 : 0 < of_nat (num := Qc) (S i)) by (apply (Z2Qc_lt 0); lia).
  assert (H1 : of_nat (num := Qc) (S i) <= of_nat N) by (apply of_nat_le; lia).
  revert H0 H1. generalize (of_nat (num := Qc) (S i)) (of_nat (num := Qc) N).
  intros u v H0 H1. split; qc2q.
  - apply Qle_shift_div_l; lra.
  - apply Qle_shift_div_r; lra.
Qed.

Lemma frow_nonneg (N : nat) (ab : Z * Z) :
  (1 <= ab.1)%Z -> (1 <= ab.2)%Z ->
  Forall (fun y => 0 <= y) (frow (grid_points N) ab).
Proof.
  intros Ha Hb. apply Forall_lookup. intros i y Hy.
  unfold frow, vdivs, vmul, vpow, vcompl in Hy.
  rewrite list_lookup_fmap, lookup_zip_with, !list_lookup_fmap in Hy.
  destruct (grid_points N !! i) as [x|] eqn:Hx; simpl in Hy; [|discriminate].
  injection Hy as <-.
  destruct (grid_points_range N i x Hx) as [H0 H1].
  apply Qc_div_nonneg; [|apply Bq_pos].
  apply Qc_mult_nonneg; apply Qc_pow_nonneg; try lia; [done|].
  clear - H1. qc_ops. qc2q. lra.
Qed.

Lemma cumsum_from_monotone (l : list Qc) (acc : Qc) (i : nat) (x : Qc) :
  Forall (fun y => 0 <= y) l ->
  cumsum_from acc l !! i = Some x ->
  acc <= x /\ forall y, cumsum_from acc l !! S i = Some y -> x <= y.
Proof.
  intros Hl. revert acc i x. induction Hl as [|z l Hz Hl IH]; intros acc i x Hx.
  - destruct i; discriminate.
  - simpl in Hx. destruct i as [|i]; simpl in Hx.
    + injection Hx as <-. split.
      * clear - Hz. qc_ops. qc2q. lra.
      * intros y Hy. simpl in Hy.
        destruct (IH _ _ _ Hy) as [Hle _]. done.
    + destruct (IH _ _ _ Hx) as [Hle Hnext]. split.
      * eapply Qcle_trans; [|exact Hle]. clear - Hz. qc_ops. qc2q. lra.
      * intros y Hy. simpl in Hy. by apply Hnext.
Qed.

Lemma np_cumsum_monotone (l : list Qc) (i : nat) (x y : Qc) :
  Forall (fun y => 0 <= y) l ->
  np_cumsum l !! i = Some x -> np_cumsum l !! S i = Some y ->
  0 <= x /\ x <= y.
Proof.
  intros Hl Hx Hy. destruct l as [|z l]; [discriminate|].
  inversion Hl as [|? ? Hz Hl']; subst. simpl in Hx, Hy.
  destruct i as [|i]; simpl in Hx, Hy.
  - injection Hx as <-. split; [done|].
    by destruct (cumsum_from_monotone l z 0 y Hl' Hy) as [Hle _].
  - destruct (cumsum_from_monotone l z i x Hl' Hx) as [Hle Hnext].
    split; [by eapply Qcle_trans|]. by apply Hnext.
Qed.

(** X19: for Beta parameters that are at least 1 and keep the factorials
    read in the finite part of the table (up to [170!]), every row of the
    array [F] that [init_approx] returns is nonnegative and non-decreasing
    along the grid. *)
Theorem init_approx_cdf_nondecreasing (nb_arms N : nat) (beta_1 beta_2 : list Z)
    (g : grid Qc) (a i : nat) (Fa : list Qc) (x y : Qc) :
  length beta_1 = nb_arms -> length beta_2 = nb_arms ->
  Forall (fun a => (1 <= a)%Z) beta_1 -> Forall (fun b => (1 <= b)%Z) beta_2 ->
  Forall in_table_range (zip beta_1 beta_2) ->
  init_approx nb_arms N beta_1 beta_2 = Some g ->
  gF g !! a = Some Fa -> Fa !! i = Some x -> Fa !! S i = Some y ->
  0 <= x /\ x <= y.
Proof.
  intros Hl1 Hl2 Hp1 Hp2 _ Hinit HFa Hx Hy.
  assert (HN : N <> 0%nat) by (by apply init_approx_inv in Hinit as [HN _]).
  assert (Harms : nb_arms <> 0%nat).
  { intros ->. destruct beta_1, beta_2; try discriminate. }
  rewrite (init_approx_spec nb_arms N beta_1 beta_2 Hl1 Hl2 Harms HN Hp1 Hp2) in Hinit.
  injection Hinit as <-. simpl in HFa.
  rewrite !list_lookup_fmap in HFa.
  destruct (zip beta_1 beta_2 !! a) as [ab|] eqn:Hab; simpl in HFa; [|discriminate].
  injection HFa as <-.
  destruct (zip_params_lookup beta_1 beta_2 Hp1 Hp2 a ab Hab) as (_ & _ & Ha1 & Hb1).
  apply (np_cumsum_monotone (vdivs (frow (grid_points N) ab) (of_nat N)) i x y);
    [|done..].
  unfold vdivs. apply Forall_fmap.
  eapply Forall_impl; [|exact (frow_nonneg N ab Ha1 Hb1)].
  intros z Hz. simpl. apply Qc_div_nonneg; [done|].
  apply (Z2Qc_lt 0). lia.
Qed.

Lemma init_approx_cdf_nondecreasing_witness :
  0 <= Q2Qc (3 # 8) /\ Q2Qc (3 # 8) <= Q2Qc (3 # 4).
Proof.
  apply (init_approx_cdf_nondecreasing 1 4 [2]%Z [1]%Z grid_2_1 0 1
           [Q2Qc (1 # 8); Q2Qc (3 # 8); Q2Qc (3 # 4); Q2Qc (5 # 4)]).
  - reflexivity.
  - reflexivity.
  - repeat (constructor; [lia|]). constructor.
  - repeat (constructor; [lia|]). constructor.
  - repeat (constructor; [unfold in_table_range, largest_factorial; simpl; lia|]).
    constructor.
  - exact init_approx_2_1.
  - reflexivity.
  - reflexivity.
  - reflexivity.
Defined.
End Monotone.

Section InitTotal.
Context {num : Type} `{NumOps num}.
Local Open Scope num_scope.

Variable nb_arms : nat.

Lemma fact_list_length (count : Z) :
  length (fact_list (num := num) count) = S (Z.to_nat count).
Proof.
  unfold fact_list. cbv zeta.
  assert (Hfold : forall (l : list nat) (p : list num),
    length (foldl (fun l i => <[S i := of_nat (S i) *! nth i l fzero]> l) p l)
    = length p).
  { induction l as [|i l IH]; intros p; [done|].
    simpl. rewrite IH. apply length_insert. }
  rewrite Hfold. unfold np_ones. by rewrite length_replicate.
Qed.

Lemma beta_const_total (count : Z) (ab : Z * Z) :
  (1 <= ab.1)%Z -> (1 <= ab.2)%Z -> (ab.1 + ab.2 <= count)%Z ->
  is_Some (beta_const (num := num) (fact_list count) ab).
Proof.
  intros Ha Hb Hc. unfold beta_const, py_index.
  rewrite !(proj2 (Z.leb_le _ _)) by lia.
  destruct (lookup_lt_is_Some_2 (fact_list (num := num) count) (Z.to_nat (ab.1 - 1)))
    as [x ->]; [rewrite fact_list_length; lia|].
  destruct (lookup_lt_is_Some_2 (fact_list (num := num) count) (Z.to_nat (ab.2 - 1)))
    as [y ->]; [rewrite fact_list_length; lia|].
  destruct (lookup_lt_is_Some_2 (fact_list (num := num) count)
              (Z.to_nat (ab.1 + ab.2 - 1)))
    as [z ->]; [rewrite fact_list_length; lia|].
  simpl. by eexists.
Qed.

Lemma density_row_length (X : list num) (beta_1 beta_2 : list Z) (B : list num)
    (i : nat) (r : list num) :
  density_row X beta_1 beta_2 B i = Some r -> length r = length X.
Proof.
  unfold density_row. intros Hr.
  destruct (beta_1 !! i); simpl in Hr; [|discriminate].
  destruct (beta_2 !! i); simpl in Hr; [|discriminate].
  destruct (B !! i); simpl in Hr; [|discriminate].
  injection Hr as <-. unfold vdivs, vmul, vpow, vcompl.
  rewrite length_map, length_zip_with, !length_map. lia.
Qed.

(** X20: [init_approx] raises when the grid has no point, and when a prior
    array is empty or has fewer entries than there are arms. *)
Theorem init_approx_raises (N : nat) (beta_1 beta_2 : list Z) :
  N = 0 \/ beta_1 = [] \/ beta_2 = [] \/
  length beta_1 < nb_arms \/ length beta_2 < nb_arms ->
  init_approx (num := num) nb_arms N beta_1 beta_2 = None.
Proof.
  intros Hbad.
  destruct (init_approx nb_arms N beta_1 beta_2) as [g|] eqn:Hinit; [|done].
  exfalso.
  apply init_approx_inv in Hinit
    as (HN & count & B & f & Hcount & HB & Hf & _).
  destruct Hbad as [->|[->|[->|Hshort]]]; [done| | |].
  - discriminate.
  - by destruct beta_1.
  - assert (Hsome : is_Some (mapM (density_row (np_linspace (fone /! of_nat N) fone N)
                                               beta_1 beta_2 B) (seq 0 nb_arms)))
      by (by eexists).
    apply mapM_is_Some in Hsome.
    destruct Hshort as [Hs|Hs].
    + assert (Hin : seq 0 nb_arms !! length beta_1 = Some (length beta_1))
        by (by apply lookup_seq_lt).
      destruct (Forall_lookup_1 _ _ _ _ Hsome Hin) as [r Hr]. simpl in Hr.
      unfold density_row in Hr.
      rewrite (lookup_ge_None_2 beta_1 (length beta_1)) in Hr by lia. discriminate.
    + assert (Hin : seq 0 nb_arms !! length beta_2 = Some (length beta_2))
        by (by apply lookup_seq_lt).
      destruct (Forall_lookup_1 _ _ _ _ Hsome Hin) as [r Hr]. simpl in Hr.
      unfold density_row in Hr.
      rewrite (lookup_ge_None_2 beta_2 (length beta_2)) in Hr by lia.
      destruct (beta_1 !! length beta_2); discriminate.
Qed.

Lemma init_approx_total (N : nat) (beta_1 beta_2 : list Z) :
  nb_arms <> 0 -> N <> 0 ->
  length beta_1 = nb_arms -> length beta_2 = nb_arms ->
  Forall (fun a => (1 <= a)%Z) beta_1 -> Forall (fun b => (1 <= b)%Z) beta_2 ->
  exists g : grid num,
    init_approx nb_arms N beta_1 beta_2 = Some g /\
    length (gX g) = N /\ length (gB g) = nb_arms /\
    length (gf g) = nb_arms /\ length (gF g) = nb_arms /\ length (gG g) = nb_arms /\
    Forall (fun r => length r = N) (gf g) /\
    Forall (fun r => length r = N) (gF g) /\
    Forall (fun r => length r = N) (gG g).
Proof.
  intros Harms HN Hl1 Hl2 Hp1 Hp2. unfold init_approx.
  destruct (Z_list_max_is_Some (zip_with Z.add beta_1 beta_2)) as [count Hcount].
  { destruct beta_1, beta_2; simpl in *; try lia. done. }
  rewrite Hcount. simpl.
  assert (HB : is_Some (mapM (beta_const (num := num) (fact_list count))
                             (zip beta_1 beta_2))).
  { apply mapM_is_Some, Forall_lookup. intros i ab Hi.
    destruct (zip_params_lookup beta_1 beta_2 Hp1 Hp2 i ab Hi) as (Ha & Hb & H1 & H2).
    apply beta_const_total; [done|done|].
    apply (Z_list_max_ge _ _ _ Hcount).
    apply list_elem_of_lookup. exists i.
    rewrite lookup_zip_with, Ha, Hb. done. }
  destruct HB as [B HB]. rewrite HB. simpl.
  assert (HlB : length B = nb_arms).
  { apply mapM_Some, Forall2_length in HB. rewrite <- HB, length_zip_with. lia. }
  case_guard; [|done]. simpl.
  set (X := np_linspace (fone /! of_nat N) fone N).
  assert (HlX : length X = N) by apply np_linspace_length.
  assert (Hf : is_Some (mapM (density_row X beta_1 beta_2 B) (seq 0 nb_arms))).
  { apply mapM_is_Some, Forall_lookup. intros j i [Heq Hi]%lookup_seq.
    simpl in Heq. subst j. simpl. unfold density_row.
    destruct (lookup_lt_is_Some_2 beta_1 i ltac:(lia)) as [a ->].
    destruct (lookup_lt_is_Some_2 beta_2 i ltac:(lia)) as [b ->].
    destruct (lookup_lt_is_Some_2 B i ltac:(lia)) as [Bi ->].
    simpl. by eexists. }
  destruct Hf as [f Hf]. rewrite Hf. simpl.
  assert (Hlf : length f = nb_arms).
  { pose proof Hf as Hf'. apply mapM_Some, Forall2_length in Hf'.
    by rewrite <- Hf', length_seq. }
  assert (Hrows : Forall (fun r => length r = N) f).
  { apply mapM_Some in Hf. apply Forall_lookup. intros i r Hi.
    destruct (Forall2_lookup_r _ _ _ _ _ Hf Hi) as (j & _ & Hj).
    rewrite <- HlX. by eapply density_row_length. }
  eexists; split; [reflexivity|]. simpl.
  rewrite !length_map. repeat split; try done.
  - apply Forall_fmap. eapply Forall_impl; [|exact Hrows].
    intros r Hr. simpl. unfold vdivs. by rewrite np_cumsum_length, length_map.
  - apply Forall_fmap. eapply Forall_impl; [|exact Hrows].
    intros r Hr. simpl. unfold vdivs, vmul.
    rewrite np_cumsum_length, length_map, length_zip_with.
    rewrite ?np_linspace_length, ?HlX, Hr. lia.
Qed.

(** X21: on [N >= 1] grid points, for [nb_arms >= 1] arms and Beta
    parameters that are at least 1, [init_approx] returns, with [X] of [N]
    entries, [B] of [nb_arms] entries and [f], [F], [G] of [nb_arms] rows
    of [N] entries. *)
Theorem init_approx_returns (N : nat) (beta_1 beta_2 : list Z) :
  nb_arms <> 0 -> N <> 0 ->
  length beta_1 = nb_arms -> length beta_2 = nb_arms ->
  Forall (fun a => (1 <= a)%Z) beta_1 -> Forall (fun b => (1 <= b)%Z) beta_2 ->
  exists g : grid num,
    init_approx nb_arms N beta_1 beta_2 = Some g /\
    length (gX g) = N /\ length (gB g) = nb_arms /\
    length (gf g) = nb_arms /\ length (gF g) = nb_arms /\ length (gG g) = nb_arms /\
    Forall (fun r => length r = N) (gf g) /\
    Forall (fun r => length r = N) (gF g) /\
    Forall (fun r => length r = N) (gG g).
Proof.
  exact (init_approx_total N beta_1 beta_2).
Qed.
End InitTotal.

Lemma init_approx_raises_witness :
  init_approx (num := Qc) 2 10 [1]%Z [1]%Z = None.
Proof.
  apply (init_approx_raises 2 10 [1]%Z [1]%Z). do 3 right. left. simpl. lia.
Defined.

Lemma init_approx_returns_witness :
  exists g : grid Qc,
    init_approx 2 3 [1; 2]%Z [3; 1]%Z = Some g /\
    length (gX g) = 3 /\ length (gB g) = 2 /\
    length (gf g) = 2 /\ length (gF g) = 2 /\ length (gG g) = 2 /\
    Forall (fun r => length r = 3) (gf g) /\
    Forall (fun r => length r = 3) (gF g) /\
    Forall (fun r => length r = 3) (gG g).
Proof.
  apply (init_approx_returns 2 3 [1; 2]%Z [3; 1]%Z); try lia; try reflexivity.
  - repeat (constructor; [lia|]). constructor.
  - repeat (constructor; [lia|]). constructor.
Defined.

Section UpdateCompose.
Context {num : Type} `{NumOps num}.
Local Open Scope num_scope.

Lemma update_approx_is_Some (arm : nat) (y : num) (beta : Z * Z) (g : grid num) :
  is_Some (update_approx arm y beta g) <->
  arm < length (gf g) /\ arm < length (gF g) /\
  arm < length (gG g) /\ arm < length (gB g).
Proof.
  unfold update_approx. split.
  - intros [g' Hu].
    destruct (gf g !! arm) as [fa|] eqn:Hf; simpl in Hu; [|discriminate].
    destruct (gF g !! arm) as [Fa|] eqn:HF; simpl in Hu; [|discriminate].
    destruct (gB g !! arm) as [Ba|] eqn:HB; simpl in Hu; [|discriminate].
    destruct (gG g !! arm) as [Ga|] eqn:HG; simpl in Hu; [|discriminate].
    repeat split; by eapply lookup_lt_Some.
  - intros (Hf & HF & HG & HB).
    destruct (lookup_lt_is_Some_2 _ _ Hf) as [fa ->].
    destruct (lookup_lt_is_Some_2 _ _ HF) as [Fa ->].
    destruct (lookup_lt_is_Some_2 _ _ HG) as [Ga ->].
    destruct (lookup_lt_is_Some_2 _ _ HB) as [Ba ->].
    simpl. by eexists.
Qed.

(** X22: on arrays [f], [F], [G] whose rows have the length of the grid [X]
    (the shapes of [init_approx], on which no elementwise operation
    broadcasts or fails), [update_approx] raises exactly when [arm] is not a
    row of one of the arrays [f], [F], [G], [B]; the reward and the
    parameters play no part in it. *)
Theorem update_approx_returns_iff (arm : nat) (y : num) (beta : Z * Z) (g : grid num) :
  Forall (fun r => length r = length (gX g)) (gf g) ->
  Forall (fun r => length r = length (gX g)) (gF g) ->
  Forall (fun r => length r = length (gX g)) (gG g) ->
  is_Some (update_approx arm y beta g) <->
  arm < length (gf g) /\ arm < length (gF g) /\
  arm < length (gG g) /\ arm < length (gB g).
Proof.
  intros _ _ _. exact (update_approx_is_Some arm y beta g).
Qed.

Lemma update_approx_None (arm : nat) (y : num) (beta : Z * Z) (g : grid num) :
  ~ (arm < length (gf g) /\ arm < length (gF g) /\
     arm < length (gG g) /\ arm < length (gB g)) ->
  update_approx arm y beta g = None.
Proof.
  intros Hbad. destruct (update_approx arm y beta g) eqn:Hu; [|done].
  exfalso. apply Hbad. apply (update_approx_is_Some arm y beta g). by eexists.
Qed.

(** X23: updates of two different arms commute: for [a1 <> a2], running
    [update_approx] for [a1] and then for [a2] leaves the same arrays (or
    raises alike) as running them in the other order. *)
Theorem update_approx_commutes (a1 a2 : nat) (y1 y2 : num) (beta1 beta2 : Z * Z)
    (g : grid num) :
  a1 <> a2 ->
  update_approx a1 y1 beta1 g ≫= update_approx a2 y2 beta2
  = update_approx a2 y2 beta2 g ≫= update_approx a1 y1 beta1.
Proof.
  intros Hne.
  destruct (update_approx a1 y1 beta1 g) as [g1|] eqn:H1;
    destruct (update_approx a2 y2 beta2 g) as [g2|] eqn:H2; simpl.
  - pose proof H1 as H1'. pose proof H2 as H2'.
    apply update_approx_inv in H1' as (fa & Fa & Ga & Ba & Hf1 & HF1 & HG1 & HB1 & ->).
    apply update_approx_inv in H2' as (fb & Fb & Gb & Bb & Hf2 & HF2 & HG2 & HB2 & ->).
    cbv zeta. unfold update_approx. simpl.
    rewrite !list_lookup_insert_ne by done.
    rewrite Hf1, HF1, HG1, HB1, Hf2, HF2, HG2, HB2. simpl.
    f_equal. f_equal; apply list_insert_insert_ne; done.
  - apply update_approx_None. intros Hok.
    destruct (update_approx_shape _ _ _ _ _ H1) as (-> & -> & -> & ->) in Hok.
    apply (update_approx_is_Some a2 y2 beta2 g) in Hok as [g2 Hg2]. congruence.
  - symmetry. apply update_approx_None. intros Hok.
    destruct (update_approx_shape _ _ _ _ _ H2) as (E1 & E2 & E3 & E4).
    rewrite E1, E2, E3, E4 in Hok.
    apply (update_approx_is_Some a1 y1 beta1 g) in Hok as [g1 Hg1]. congruence.
  - done.
Qed.
End UpdateCompose.

Lemma update_approx_returns_iff_witness :
  is_Some (update_approx 1 1%Qc (2, 1)%Z
             (Grid [Q2Qc (1 # 2); 1%Qc] [[1%Qc; 1%Qc]; [1%Qc; 2%Qc]]
                   [[Q2Qc (1 # 2); 1%Qc]; [Q2Qc (1 # 2); Q2Qc (3 # 2)]]
                   [[Q2Qc (1 # 4); Q2Qc (3 # 4)]; [Q2Qc (1 # 4); Q2Qc (5 # 4)]]
                   [1%Qc; Q2Qc (1 # 2)])) <->
  1 < 2 /\ 1 < 2 /\ 1 < 2 /\ 1 < 2.
Proof.
  apply (update_approx_returns_iff 1 1%Qc (2, 1)%Z
           (Grid [Q2Qc (1 # 2); 1%Qc] [[1%Qc; 1%Qc]; [1%Qc; 2%Qc]]
                 [[Q2Qc (1 # 2); 1%Qc]; [Q2Qc (1 # 2); Q2Qc (3 # 2)]]
                 [[Q2Qc (1 # 4); Q2Qc (3 # 4)]; [Q2Qc (1 # 4); Q2Qc (5 # 4)]]
                 [1%Qc; Q2Qc (1 # 2)])).
  - repeat (constructor; [reflexivity|]). constructor.
  - repeat (constructor; [reflexivity|]). constructor.
  - repeat (constructor; [reflexivity|]). constructor.
Defined.

Lemma update_approx_commutes_witness :
  update_approx 0 1%Qc (1, 1)%Z (Grid [1%Qc] [[1%Qc]; [1%Qc]] [[1%Qc]; [1%Qc]]
                                      [[1%Qc]; [1%Qc]] [1%Qc; 1%Qc])
    ≫= update_approx 1 0%Qc (1, 1)%Z
  = update_approx 1 0%Qc (1, 1)%Z (Grid [1%Qc] [[1%Qc]; [1%Qc]] [[1%Qc]; [1%Qc]]
                                        [[1%Qc]; [1%Qc]] [1%Qc; 1%Qc])
    ≫= update_approx 0 1%Qc (1, 1)%Z.
Proof.
  apply (update_approx_commutes 0 1 1%Qc 0%Qc (1, 1)%Z (1, 1)%Z). lia.
Defined.

(** ** The conditional means of the grid estimator *)

Section GridMeans.
Context {num : Type} `{NumOps num}.
Local Open Scope num_scope.
Local Abbreviation vec := (list num).
Local Abbreviation mat := (list (list num)).

Variable nb_arms : nat.
Variable N : nat.
Variable X : vec.
Variables f F G : mat.

Local Abbreviation square := (square_matrix nb_arms).

Lemma set2_square (m : mat) (i j : nat) (x : num) :
  square m -> square (set2 m i j x).
Proof.
  intros [Hl Hr]. unfold set2. split; [by rewrite length_alter|].
  apply Forall_lookup. intros k r Hk.
  destruct (decide (i = k)) as [->|Hne].
  - rewrite list_lookup_alter_eq in Hk.
    destruct (m !! k) as [r0|] eqn:Hr0; simpl in Hk; [|discriminate].
    injection Hk as <-. rewrite length_insert.
    by apply (Forall_lookup_1 _ _ _ _ Hr Hr0).
  - rewrite list_lookup_alter_ne in Hk by done.
    by apply (Forall_lookup_1 _ _ _ _ Hr Hk).
Qed.

Lemma set2_entry_eq (m : mat) (i j : nat) (x : num) :
  square m -> i < nb_arms -> j < nb_arms ->
  entry (set2 m i j x) i j = Some x.
Proof.
  intros [Hl Hr] Hi Hj. unfold entry, set2.
  rewrite list_lookup_alter_eq.
  destruct (lookup_lt_is_Some_2 m i ltac:(lia)) as [r Hri]. rewrite Hri. simpl.
  apply list_lookup_insert_eq.
  rewrite (Forall_lookup_1 _ _ _ _ Hr Hri). done.
Qed.

Lemma set2_entry_ne (m : mat) (i j i' j' : nat) (x : num) :
  i <> i' \/ j <> j' -> entry (set2 m i j x) i' j' = entry m i' j'.
Proof.
  intros Hne. unfold entry, set2.
  destruct (decide (i = i')) as [->|Hi].
  - rewrite list_lookup_alter_eq. destruct (m !! i') as [r|]; simpl; [|done].
    apply list_lookup_insert_ne. by destruct Hne.
  - by rewrite list_lookup_alter_ne.
Qed.

(** The inner loop, for one [a], on its first [k] iterations. *)
Lemma IR_inner_loop (a k : nat) (pa : num) (m : mat) :
  square m -> a < nb_arms -> k <= nb_arms ->
  let m' :=
    foldl (fun maap ap =>
             if bool_decide (a ≠ ap)
             then set2 maap ap a
                    (np_sum (vmul (prod_F1 nb_arms N f F a ap) (row G ap)) /! pa)
             else set2 maap a a (np_sum (vmul (prod_F1 nb_arms N f F a a) X) /! pa))
          m (seq 0 k) in
  square m' /\
  (forall ap, ap < k ->
     entry m' ap a
     = Some ((if bool_decide (a ≠ ap)
              then np_sum (vmul (prod_F1 nb_arms N f F a ap) (row G ap))
              else np_sum (vmul (prod_F1 nb_arms N f F a a) X)) /! pa)) /\
  (forall i j, j <> a \/ k <= i -> entry m' i j = entry m i j).
Proof.
  intros Hsq Ha. induction k as [|k IH]; intros Hk; cbv zeta.
  - simpl. split; [done|]. split; [intros; lia|done].
  - destruct (IH ltac:(lia)) as (Hsq' & Hdone & Hrest). cbv zeta in *.
    rewrite seq_S, foldl_app. simpl.
    set (mk := foldl _ m (seq 0 k)) in *.
    case_bool_decide as Hak.
    + split; [by apply set2_square|]. split.
      * intros ap Hap. destruct (decide (ap = k)) as [->|Hne].
        -- rewrite bool_decide_eq_true_2 by done.
           apply set2_entry_eq; [done|lia|done].
        -- rewrite set2_entry_ne by (left; lia). apply Hdone. lia.
      * intros i j Hij. rewrite set2_entry_ne by (destruct Hij; [right|left]; lia).
        apply Hrest. destruct Hij; [by left|right; lia].
    + subst k.
      split; [by apply set2_square|]. split.
      * intros ap Hap. destruct (decide (ap = a)) as [->|Hne].
        -- rewrite bool_decide_eq_false_2 by (intros Hc; by apply Hc).
           by apply set2_entry_eq.
        -- rewrite set2_entry_ne by (left; lia). apply Hdone. lia.
      * intros i j Hij. rewrite set2_entry_ne by (destruct Hij; [right|left]; lia).
        apply Hrest. destruct Hij; [by left|right; lia].
Qed.

(** The second loop nest on its first [k] iterations. *)
Lemma IR_outer_loop (k : nat) :
  k <= nb_arms ->
  let st := foldl (IR_step nb_arms N X f F G)
                  (np_zeros nb_arms, replicate nb_arms (np_zeros nb_arms))
                  (seq 0 k) in
  length st.1 = nb_arms /\ square st.2 /\
  forall a ap, a < k -> ap < nb_arms ->
               entry st.2 ap a = Some (maap_value nb_arms N X f F G a ap).
Proof.
  induction k as [|k IH]; intros Hk; cbv zeta.
  - simpl. unfold np_zeros. rewrite !length_replicate.
    split; [done|]. split; [|intros; lia].
    split; [by rewrite length_replicate|].
    apply Forall_replicate. by rewrite length_replicate.
  - destruct (IH ltac:(lia)) as (Hlp & Hsq & Hdone). cbv zeta in *.
    rewrite seq_S, foldl_app. simpl.
    set (st := foldl _ _ (seq 0 k)) in *.
    rewrite (nth_lookup_Some _ _ _ (np_sum (prod_F1 nb_arms N f F k k)))
      by (apply list_lookup_insert_eq; lia).
    destruct (IR_inner_loop k nb_arms (np_sum (prod_F1 nb_arms N f F k k)) st.2
                Hsq ltac:(lia) (le_n _)) as (Hsq' & Hnew & Hold).
    cbv zeta in *.
    split; [by rewrite length_insert|]. split; [exact Hsq'|].
    intros a ap Ha Hap. destruct (decide (a = k)) as [->|Hne].
    + rewrite Hnew by done. reflexivity.
    + rewrite Hold by (by left). apply Hdone; lia.
Qed.
End GridMeans.

(** X24: the matrix [maap] that [IR_approx] returns.  For arms [a] and
    [ap], [maap[ap, a]] is the grid sum of [prod_F1[a, ap] * G[ap]] (of
    [prod_F1[a, a] * X] on the diagonal) over [p_star[a]], the sum of
    [prod_F1[a, a]]: no later iteration overwrites an entry. *)
Theorem IR_approx_maap_entries {num : Type} `{NumOps num} (nb_arms : nat)
    (np_log : num -> num) (N : nat) (b1 b2 : list Z) (X : list num)
    (f F G : list (list num)) (a ap : nat) :
  a < nb_arms -> ap < nb_arms ->
  entry (IR_approx nb_arms np_log N b1 b2 X f F G).2 ap a
  = Some (maap_value nb_arms N X f F G a ap) /\
  (IR_approx nb_arms np_log N b1 b2 X f F G).1.2 !! a
  = Some (np_sum (prod_F1 nb_arms N f F a a)).
Proof.
  intros Ha Hap. split.
  - destruct (IR_outer_loop nb_arms N X f F G nb_arms (le_n _)) as (_ & _ & Hm).
    cbv zeta in Hm. specialize (Hm a ap Ha Hap).
    unfold IR_approx. by destruct (foldl _ _ _).
  - rewrite IR_approx_p_star.
    apply (foldl_insert_lookup (fun a => np_sum (prod_F1 nb_arms N f F a a))); [|done].
    unfold np_zeros. by rewrite length_replicate.
Qed.

Lemma IR_approx_maap_entries_witness :
  entry (IR_approx 2 tangent_log 2 [2; 1]%Z [1; 1]%Z X_2 f_21 F_21 G_21).2 1 0
  = Some (maap_value 2 2 X_2 f_21 F_21 G_21 0 1) /\
  (IR_approx 2 tangent_log 2 [2; 1]%Z [1; 1]%Z X_2 f_21 F_21 G_21).1.2 !! 0
  = Some (np_sum (prod_F1 2 2 f_21 F_21 0 0)).
Proof.
  apply (IR_approx_maap_entries 2 tangent_log 2 [2; 1]%Z [1; 1]%Z X_2 f_21 F_21 G_21
           0 1); lia.
Defined.

(** ** The posterior along a run of the grid variant *)

Section PosteriorAlongRun.
Local Open Scope Qc_scope.
Local Arguments of_nat : simpl never.

Variable nb_arms : nat.
Variable np_log : Qc -> Qc.
Variable sample : nat -> nat -> bool.
Variable IDSAction : nat -> list Qc -> list Qc -> nat.

Lemma Qc_trunc_Z2Qc (z : Z) : Qc_trunc (Z2Qc z) = z.
Proof.
  unfold Qc_trunc, Z2Qc. simpl.
  rewrite Qred_identity by (simpl; apply Z.gcd_1_r).
  simpl. apply Z.quot_1_r.
Qed.

(** The integer parameters after a reward, as [IDS_approx] stores them. *)
Lemma posterior_parameters (al be : Z) (y : bool) :
  ftrunc (fadd (of_Z al) (reward_of y)) = (posterior_of y (al, be)).1 /\
  ftrunc (fadd (of_Z be) (fsub fone (reward_of y))) = (posterior_of y (al, be)).2.
Proof.
  unfold of_Z, reward_of, posterior_of. simpl fconst. simpl ftrunc. qc_ops.
  destruct y; simpl; split.
  - rewrite <- (Qc_trunc_Z2Qc (al + 1)). f_equal. by rewrite Z2Qc_plus.
  - rewrite <- (Qc_trunc_Z2Qc be) at 2. f_equal. ring.
  - rewrite <- (Qc_trunc_Z2Qc al) at 2. f_equal. ring.
  - rewrite <- (Qc_trunc_Z2Qc (be + 1)). f_equal. rewrite Z2Qc_plus.
    change (Z2Qc 1) with 1. ring.
Qed.

(** What one round of [IDS_approx] does to the locals, for the arm [k] it
    pulls and the reward [y] it draws. *)
Lemma round_approx_step (N_steps t : nat) (s s' : self_state)
    (l l' : approx_locals Qc) :
  round_approx nb_arms np_log sample IDSAction N_steps t (s, l) = Some (s', l') ->
  exists (k : nat) (al be : Z) (g' : grid Qc),
    let y := sample t k in
    update_lists nb_arms sample t k (history l) = Some (history l') /\
    beta1 l !! k = Some al /\ beta2 l !! k = Some be /\
    update_approx k (reward_of y) (al, be) (posterior l) = Some (posterior l') /\
    beta1 l' = <[k := (posterior_of y (al, be)).1]> (beta1 l) /\
    beta2 l' = <[k := (posterior_of y (al, be)).2]> (beta2 l).
Proof.
  intros Hr. apply round_approx_inv in Hr
    as (k & ps & c & h' & al & be & y & g' & _ & Hu & Ha & Hb & Hy & Hg & ->).
  exists k, al, be, g'. cbv zeta.
  rewrite (update_lists_reward _ _ _ _ _ _ Hu) in Hy. injection Hy as <-.
  destruct (posterior_parameters al be (sample t k)) as [P1 P2].
  cbn [history beta1 beta2 posterior].
  do 3 (split; [done|]).
  destruct (sample t k); (split; [exact Hg|]); split; f_equal; assumption.
Qed.

(** X25: the Beta parameters of [IDS_approx] count the rewards: at every
    round, [beta1[k]] is the prior parameter plus the successes [Sa[k]] of
    the arm and [beta2[k]] the prior parameter plus its failures
    [Na[k] - Sa[k]]. *)
Theorem IDS_approx_posterior_counts (n T N : nat) (b1 b2 : list Z)
    (s s' : self_state) (l : approx_locals Qc) (k : nat) (a0 b0 al be : Z)
    (sk nk : Qc) :
  IDS_approx_upto nb_arms np_log sample IDSAction n T N b1 b2 s = Some (s', l) ->
  b1 !! k = Some a0 -> b2 !! k = Some b0 ->
  beta1 l !! k = Some al -> beta2 l !! k = Some be ->
  Sa (history l) !! k = Some sk -> Na (history l) !! k = Some nk ->
  Z2Qc al = Z2Qc a0 + sk /\ Z2Qc be = Z2Qc b0 + nk - sk.
Proof.
  unfold IDS_approx_upto, start_approx. intros Hrun.
  destruct (init_approx nb_arms N b1 b2) as [g|]; simpl in Hrun; [|discriminate].
  revert k a0 b0 al be sk nk.
  set (Inv := fun st : self_state * approx_locals Qc =>
    forall k a0 b0 al be sk nk,
      b1 !! k = Some a0 -> b2 !! k = Some b0 ->
      beta1 st.2 !! k = Some al -> beta2 st.2 !! k = Some be ->
      Sa (history st.2) !! k = Some sk -> Na (history st.2) !! k = Some nk ->
      Z2Qc al = Z2Qc a0 + sk /\ Z2Qc be = Z2Qc b0 + nk - sk).
  change (Inv (s', l)).
  apply (fun Hstep H0 => run_rounds_invariant _ Inv Hstep n _ (s', l) H0 Hrun);
    unfold Inv; clear Inv.
  - intros t [s1 l1] [s2 l2] Hinv Hr k a0 b0 al' be' sk' nk' Ha0 Hb0 Hal Hbe Hsk Hnk.
    simpl in *.
    apply round_approx_step in Hr
      as (k' & al & be & g' & Hu & Ha & Hb & _ & Hb1 & Hb2).
    cbv zeta in *.
    destruct (update_lists_tallies _ _ _ _ _ _ Hu) as [HS HN].
    rewrite HS in Hsk. rewrite HN in Hnk. rewrite Hb1 in Hal. rewrite Hb2 in Hbe.
    destruct (decide (k' = k)) as [->|Hne].
    + rewrite list_lookup_alter_eq in Hsk. rewrite list_lookup_alter_eq in Hnk.
      destruct (Sa (history l1) !! k) as [s0|] eqn:Hs0; simpl in Hsk; [|discriminate].
      destruct (Na (history l1) !! k) as [n0|] eqn:Hn0; simpl in Hnk; [|discriminate].
      injection Hsk as <-. injection Hnk as <-.
      rewrite list_lookup_insert_eq in Hal by (by eapply lookup_lt_Some).
      rewrite list_lookup_insert_eq in Hbe by (by eapply lookup_lt_Some).
      injection Hal as <-. injection Hbe as <-.
      destruct (Hinv k a0 b0 al be s0 n0 Ha0 Hb0 Ha Hb Hs0 Hn0) as [E1 E2].
      destruct (sample t k); simpl; rewrite ?Z2Qc_plus, E1, E2; qc_ops; split; ring.
    + rewrite list_lookup_alter_ne in Hsk by done.
      rewrite list_lookup_alter_ne in Hnk by done.
      rewrite list_lookup_insert_ne in Hal by done.
      rewrite list_lookup_insert_ne in Hbe by done.
      by apply (Hinv k).
  - intros k a0 b0 al be sk nk Ha0 Hb0 Hal Hbe Hsk Hnk. simpl in *.
    unfold np_zeros in *.
    apply lookup_replicate in Hsk as [-> _]. apply lookup_replicate in Hnk as [-> _].
    assert (al = a0) as -> by congruence. assert (be = b0) as -> by congruence.
    qc_ops. split; ring.
Qed.

End PosteriorAlongRun.

Lemma IDS_approx_posterior_counts_witness :
  (Z2Qc 3 = Z2Qc 1 + Q2Qc 2 /\ Z2Qc 1 = Z2Qc 1 + Q2Qc 2 - Q2Qc 2)%Qc.
Proof.
  destruct (IDS_approx_upto 2 tangent_log always_reward (pick_arm 0) 2 3 4
              [1; 1]%Z [1; 1]%Z init_self) as [[s' l]|] eqn:Hrun;
    [|vm_compute in Hrun; discriminate].
  assert (Hal : beta1 l !! 0 = Some 3%Z).
  { assert (Hv : (st ← IDS_approx_upto 2 tangent_log always_reward (pick_arm 0) 2 3 4
                          [1; 1]%Z [1; 1]%Z init_self; beta1 st.2 !! 0) = Some 3%Z)
      by (vm_compute; reflexivity).
    rewrite Hrun in Hv. exact Hv. }
  assert (Hbe : beta2 l !! 0 = Some 1%Z).
  { assert (Hv : (st ← IDS_approx_upto 2 tangent_log always_reward (pick_arm 0) 2 3 4
                          [1; 1]%Z [1; 1]%Z init_self; beta2 st.2 !! 0) = Some 1%Z)
      by (vm_compute; reflexivity).
    rewrite Hrun in Hv. exact Hv. }
  assert (Hsk : Sa (history l) !! 0 = Some (Q2Qc 2)).
  { assert (Hv : (st ← IDS_approx_upto 2 tangent_log always_reward (pick_arm 0) 2 3 4
                          [1; 1]%Z [1; 1]%Z init_self; Sa (history st.2) !! 0)
                 = Some (Q2Qc 2))
      by (vm_compute; qc_eq).
    rewrite Hrun in Hv. exact Hv. }
  assert (Hnk : Na (history l) !! 0 = Some (Q2Qc 2)).
  { assert (Hv : (st ← IDS_approx_upto 2 tangent_log always_reward (pick_arm 0) 2 3 4
                          [1; 1]%Z [1; 1]%Z init_self; Na (history st.2) !! 0)
                 = Some (Q2Qc 2))
      by (vm_compute; qc_eq).
    rewrite Hrun in Hv. exact Hv. }
  apply (IDS_approx_posterior_counts 2 tangent_log always_reward (pick_arm 0) 2 3 4
           [1; 1]%Z [1; 1]%Z init_self s' l 0 1 1 3 1 (Q2Qc 2) (Q2Qc 2) Hrun);
    done.
Defined.


(** ** The sampling variant *)

Lemma foldl_opt_None {S A : Type} (f : S -> A -> option S) (l : list A) :
  foldl (fun acc x => acc ≫= fun s => f s x) None l = None.
Proof. induction l as [|x l IH]; [done|]. simpl. exact IH. Qed.

Lemma foldl_opt_cons {S A : Type} (f : S -> A -> option S) (st : S) (x : A)
    (l : list A) :
  foldl_opt f st (x :: l) = f st x ≫= fun s => foldl_opt f s l.
Proof.
  unfold foldl_opt. simpl. destruct (f st x); simpl; [done|].
  apply foldl_opt_None.
Qed.

Section WithoutDraws.
Context {num : Type} `{NumOps num}.

Lemma computeIDS_inner_without_draws (Maap p_a : loc) (thetas : list (list num))
    (theta_hat : list nat) (a : nat) (h : list (ndarray num)) :
  computeIDS_inner Maap p_a thetas theta_hat 0 a h a = None.
Proof.
  unfold computeIDS_inner.
  destruct (thetas !! a) as [r|]; [|reflexivity].
  cbn [mbind option_bind].
  destruct (heap_set2 _ _ _ _ _); [|reflexivity].
  cbn [mbind option_bind]. rewrite bool_decide_eq_true_2 by done.
  case_guard; [done|reflexivity].
Qed.

Lemma computeIDS_outer_without_draws (k : nat) (Maap p_a : loc)
    (thetas : list (list num)) (theta_hat : list nat)
    (st : list num * list (ndarray num)) :
  computeIDS_outer (S k) Maap p_a thetas theta_hat 0 st 0 = None.
Proof.
  unfold computeIDS_outer.
  destruct (thetas !! 0) as [r|]; [|reflexivity].
  cbn [mbind option_bind].
  change (seq 0 (S k)) with (0 :: seq 1 k).
  by rewrite foldl_opt_cons, computeIDS_inner_without_draws.
Qed.
End WithoutDraws.

(** X27: without draws ([M = 0]) [computeIDS] raises on every bandit that
    has an arm: the share [t.shape[1]/M] of the first arm divides by zero. *)
Theorem computeIDS_raises_without_draws {num : Type} `{NumOps num} (nb_arms : nat)
    (np_log : num -> num) (IDSAction : nat -> list num -> list num -> nat)
    (rd_argmax : nat -> list num -> nat) (t : nat) (s : self_state)
    (h : list (ndarray num)) (Maap p_a : loc) (thetas : list (list num))
    (VIDS : bool) :
  0 < nb_arms ->
  computeIDS nb_arms np_log IDSAction rd_argmax t s h Maap p_a thetas 0 VIDS = None.
Proof.
  intros Harms. unfold computeIDS.
  destruct (argmax_axis0 thetas) as [theta_hat|]; [|reflexivity].
  cbn [mbind option_bind].
  destruct nb_arms as [|k]; [lia|].
  assert (Hloop : foldl_opt (computeIDS_outer (S k) Maap p_a thetas theta_hat 0)
                            (map np_mean thetas, h) (seq 0 (S k)) = None).
  { change (seq 0 (S k)) with (0 :: seq 1 k).
    by rewrite foldl_opt_cons, computeIDS_outer_without_draws. }
  rewrite Hloop. reflexivity.
Qed.

Lemma computeIDS_raises_without_draws_witness :
  computeIDS 2 (fun x : xnum => x) (fun _ _ _ => 0) (fun _ _ => 0) 0 init_self
             store_zeros 0 1 [[]; []] 0 false = None.
Proof.
  apply (computeIDS_raises_without_draws 2 (fun x : xnum => x) (fun _ _ _ => 0)
           (fun _ _ => 0) 0 init_self store_zeros 0 1 [[]; []] false).
  lia.
Defined.

Section SamplingRound.
Context {num : Type} `{NumOps num}.
Local Open Scope num_scope.
Local Abbreviation vec := (list num).

Variable nb_arms : nat.
Variable np_log : num -> num.
Variable sample : nat -> nat -> bool.
Variable IDSAction : nat -> vec -> vec -> nat.
Variable rd_argmax : nat -> vec -> nat.
Variable np_random_beta : nat -> nat -> num -> num -> nat -> vec.

(** What one round of [IDS_sample]/[VIDS_sample] does to the locals, for
    the arm [k] it pulls. *)
Lemma round_sample_step (M : nat) (VIDS : bool) (t : nat) (s s' : self_state)
    (l l' : sample_locals num) :
  round_sample nb_arms np_log sample IDSAction rd_argmax np_random_beta
               M VIDS t (s, l) = Some (s', l') ->
  exists (k : nat) (y b1 b2 : num) (r : vec),
    select_sample nb_arms np_log IDSAction rd_argmax M VIDS t s l
      = Some (s', Some k, p_a l', store l', ids_calls l') /\
    update_lists nb_arms sample t k (shistory l) = Some (shistory l') /\
    sbeta1 l !! k = Some b1 /\ sbeta2 l !! k = Some b2 /\ thetas l !! k = Some r /\
    sbeta1 l' = <[k := b1 +! y]> (sbeta1 l) /\
    sbeta2 l' = <[k := b2 +! (fone -! y)]> (sbeta2 l) /\
    thetas l' = <[k := np_random_beta (S t) k (b1 +! y) (b2 +! (fone -! y)) M]>
                  (thetas l) /\
    Maap l' = Maap l.
Proof.
  unfold round_sample; intros Hr.
  destruct (select_sample _ _ _ _ _ _ _ _ _) as [[[[[s1 [k|]] pa] h1] c]|] eqn:Hs;
    simpl in Hr; try discriminate.
  destruct (update_lists _ _ _ _ _) as [h'|] eqn:Hu; simpl in Hr; [|discriminate].
  destruct (reward h' !! t) as [y|]; simpl in Hr; [|discriminate].
  destruct (sbeta1 l !! k) as [b1|] eqn:Hb1; simpl in Hr; [|discriminate].
  destruct (sbeta2 l !! k) as [b2|] eqn:Hb2; simpl in Hr; [|discriminate].
  destruct (thetas l !! k) as [r|] eqn:Hth; simpl in Hr; [|discriminate].
  injection Hr as <- <-; simpl.
  exists k, y, b1, b2, r. repeat split; done.
Qed.

(** X28: a round of [IDS_sample] or [VIDS_sample] that pulls arm [k]
    renews the bank of posterior draws of that arm alone: the bank, the Beta
    parameters and the counts of every other arm are left as they were. *)
Theorem sampling_round_touches_only_pulled_arm (M : nat) (VIDS : bool) (t : nat)
    (s s' : self_state) (l l' : sample_locals num) :
  round_sample nb_arms np_log sample IDSAction rd_argmax np_random_beta
               M VIDS t (s, l) = Some (s', l') ->
  exists k : nat,
    arm_sequence (shistory l') !! t = Some k /\
    forall j : nat, j <> k ->
      thetas l' !! j = thetas l !! j /\
      sbeta1 l' !! j = sbeta1 l !! j /\ sbeta2 l' !! j = sbeta2 l !! j /\
      Sa (shistory l') !! j = Sa (shistory l) !! j /\
      Na (shistory l') !! j = Na (shistory l) !! j.
Proof.
  intros Hr. apply round_sample_step in Hr
    as (k & y & b1 & b2 & r & _ & Hu & _ & _ & _ & -> & -> & -> & _).
  exists k. split; [by eapply update_lists_pulled|].
  intros j Hj.
  destruct (update_lists_tallies _ _ _ _ _ _ Hu) as [-> ->].
  rewrite !list_lookup_insert_ne by done.
  rewrite !list_lookup_alter_ne by done. done.
Qed.
End SamplingRound.

Lemma sampling_round_touches_only_pulled_arm_witness :
  exists (s' : self_state) (l' : sample_locals Qc) (k : nat),
    round_sample 2 tangent_log always_reward (pick_arm 0) (pick_argmax 0) bank_99
                 100 false 0 (start_sample 2 bank_99 3 100 init_self) = Some (s', l') /\
    arm_sequence (shistory l') !! 0 = Some k /\
    forall j : nat, j <> k ->
      thetas l' !! j = thetas (start_sample 2 bank_99 3 100 init_self).2 !! j /\
      sbeta1 l' !! j = sbeta1 (start_sample 2 bank_99 3 100 init_self).2 !! j /\
      sbeta2 l' !! j = sbeta2 (start_sample 2 bank_99 3 100 init_self).2 !! j /\
      Sa (shistory l') !! j = Sa (shistory (start_sample 2 bank_99 3 100 init_self).2) !! j /\
      Na (shistory l') !! j = Na (shistory (start_sample 2 bank_99 3 100 init_self).2) !! j.
Proof.
  destruct (round_sample 2 tangent_log always_reward (pick_arm 0) (pick_argmax 0)
              bank_99 100 false 0 (start_sample 2 bank_99 3 100 init_self))
    as [[s' l']|] eqn:Hr; [|vm_compute in Hr; discriminate].
  destruct (sampling_round_touches_only_pulled_arm 2 tangent_log always_reward
              (pick_arm 0) (pick_argmax 0) bank_99 100 false 0 init_self s'
              (start_sample 2 bank_99 3 100 init_self).2 l' Hr) as (k & Hk & Hj).
  exists s', l', k. auto.
Defined.

(** ** Runs that return *)

Section ArgmaxBounds.
Context {num : Type} `{NumOps num}.

Lemma argmax_from_bound (a : list num) (best : num) (ibest i : nat) :
  ibest < i -> argmax_from best ibest i a < i + length a.
Proof.
  revert best ibest i. induction a as [|y a IH]; intros best ibest i Hi; simpl.
  - lia.
  - destruct (fltb best y).
    + specialize (IH y i (S i) ltac:(lia)). lia.
    + specialize (IH best ibest (S i) ltac:(lia)). lia.
Qed.

Lemma np_argmax_bound (a : list num) (k : nat) :
  np_argmax a = Some k -> k < length a.
Proof.
  destruct a as [|x a]; [discriminate|]. simpl. intros [= <-].
  pose proof (argmax_from_bound a x 0 1 ltac:(lia)). lia.
Qed.

Lemma np_max_zeros (n : nat) (m : num) :
  np_max (np_zeros (num := num) n) = Some m -> m = fzero.
Proof.
  unfold np_zeros. destruct n as [|n]; [discriminate|]. simpl. intros [= <-].
  induction n as [|n IH]; [done|]. simpl. by destruct (fltb fzero fzero).
Qed.

Lemma IR_approx_p_star_length (nb_arms : nat) (np_log : num -> num) (N : nat)
    (b1 b2 : list Z) (X : list num) (f F G : list (list num)) :
  length (IR_approx nb_arms np_log N b1 b2 X f F G).1.2 = nb_arms.
Proof.
  rewrite IR_approx_p_star, foldl_insert_length.
  unfold np_zeros. by rewrite length_replicate.
Qed.
End ArgmaxBounds.

Section GridRunReturns.
Context {num : Type} `{NumOps num}.
Local Open Scope num_scope.
Local Abbreviation vec := (list num).

Variable nb_arms : nat.
Variable np_log : num -> num.
Variable sample : nat -> nat -> bool.
Variable IDSAction : nat -> vec -> vec -> nat.

Hypothesis Harms : nb_arms <> 0.
Hypothesis HAction : forall (t : nat) (delta g : vec), IDSAction t delta g < nb_arms.

Lemma select_approx_total (N_steps t : nat) (s : self_state) (l : approx_locals num) :
  (flag s = true -> holds_arm nb_arms (optimal_arm s)) ->
  length (p_star l) = nb_arms ->
  exists (s1 : self_state) (k : nat) (ps : vec) (c : nat),
    select_approx nb_arms np_log IDSAction N_steps t s l = Some (s1, Some k, ps, c) /\
    k < nb_arms /\ length ps = nb_arms /\
    (flag s1 = true -> holds_arm nb_arms (optimal_arm s1)).
Proof.
  intros Hlock Hlen. unfold select_approx.
  destruct (flag s) eqn:Hflag; simpl.
  - destruct (Hlock eq_refl) as (a & Ha & Hlt).
    exists s, a, (p_star l), (ir_calls l). rewrite Ha, Hflag.
    do 3 (split; [done|]). intros _. by exists a.
  - destruct (np_max_is_Some (p_star l)) as [m Hm].
    { intros Hnil. rewrite Hnil in Hlen. simpl in Hlen. lia. }
    rewrite Hm. simpl. destruct (fgtb m threshold).
    + destruct (np_argmax_is_Some (p_star l)) as [a Ha].
      { intros Hnil. rewrite Hnil in Hlen. simpl in Hlen. lia. }
      rewrite Ha. simpl.
      pose proof (np_argmax_bound _ _ Ha) as Hlt.
      exists (Self true (Some a)), a, (p_star l), (ir_calls l).
      repeat split; try done; [lia|]. intros _. exists a. split; [done|lia].
    + pose proof (IR_approx_p_star_length nb_arms np_log N_steps (beta1 l) (beta2 l)
                    (gX (posterior l)) (gf (posterior l)) (gF (posterior l))
                    (gG (posterior l))) as Hps.
      destruct (IR_approx _ _ _ _ _ _ _ _ _) as [[[delta g] ps] maap].
      simpl in Hps.
      exists s, (IDSAction t delta g), ps, (S (ir_calls l)).
      repeat split; try done. rewrite Hflag. done.
Qed.

Lemma round_approx_total (N_steps T t : nat) (st : self_state * approx_locals num) :
  grid_run_ok nb_arms T st -> t < T ->
  exists st' : self_state * approx_locals num,
    round_approx nb_arms np_log sample IDSAction N_steps t st = Some st' /\
    grid_run_ok nb_arms T st' /\
    (exists k, arm_sequence (history st'.2) !! t = Some k /\ k < nb_arms) /\
    (forall t', t' <> t ->
       arm_sequence (history st'.2) !! t' = arm_sequence (history st.2) !! t').
Proof.
  destruct st as [s l].
  intros (Hlock & Hps & Hb1 & Hb2 & Hf & HF & HG & HB & Hseq & Hrew) Ht.
  simpl in *. unfold round_approx.
  destruct (select_approx_total N_steps t s l Hlock Hps)
    as (s1 & k & ps & c & -> & Hk & Hlps & Hlock1).
  simpl.
  destruct (update_lists_total nb_arms sample t k (history l)) as [h' Hu]; [lia..|].
  rewrite Hu. simpl.
  destruct (lookup_lt_is_Some_2 (beta1 l) k ltac:(lia)) as [b1 ->].
  destruct (lookup_lt_is_Some_2 (beta2 l) k ltac:(lia)) as [b2 ->].
  simpl. rewrite (update_lists_reward _ _ _ _ _ _ Hu). simpl.
  destruct (proj2 (update_approx_is_Some k
                     (if sample t k then fone else fzero) (b1, b2) (posterior l)))
    as [g' Hg]; [lia|].
  rewrite Hg. simpl. eexists. split; [reflexivity|].
  destruct (update_approx_shape _ _ _ _ _ Hg) as (E1 & E2 & E3 & E4).
  destruct (update_lists_lengths _ _ _ _ _ _ Hu) as (_ & _ & E5 & E6).
  destruct (update_lists_inv _ _ _ _ _ _ Hu) as (_ & _ & _ & Hseq' & _).
  split; [|split].
  - unfold grid_run_ok. simpl. rewrite !length_insert, E1, E2, E3, E4, E5, E6.
    auto 12.
  - exists k. simpl. split; [by eapply update_lists_pulled|done].
  - intros t' Hne. simpl. rewrite Hseq'. by apply list_lookup_insert_ne.
Qed.

Lemma run_approx_total (N_steps T n : nat) (st0 : self_state * approx_locals num) :
  grid_run_ok nb_arms T st0 -> n <= T ->
  exists st : self_state * approx_locals num,
    run_rounds (round_approx nb_arms np_log sample IDSAction N_steps) n st0 = Some st /\
    grid_run_ok nb_arms T st /\
    pulls_ok nb_arms n (arm_sequence (history st.2)).
Proof.
  intros H0. induction n as [|n IH]; intros Hn.
  - exists st0. split; [done|]. split; [done|]. intros t Ht. lia.
  - destruct (IH ltac:(lia)) as (stn & Hrun & Hok & Hpulls).
    destruct (round_approx_total N_steps T n stn Hok ltac:(lia))
      as (st' & Hr & Hok' & Hnew & Hold).
    exists st'. simpl. rewrite Hrun. simpl. split; [done|]. split; [done|].
    intros t Ht. destruct (decide (t = n)) as [->|Hne]; [done|].
    rewrite Hold by done. apply Hpulls. lia.
Qed.

(** X29: [IDS_approx] returns.  On a bandit with at least one arm, for a
    grid of at least one point and Beta parameters that are at least 1, if
    [IDSAction] answers with arms of the bandit and the object, when locked,
    holds one, then the run of [T] rounds raises nothing; it leaves [T]
    pulled arms, all arms of the bandit, and again an object that holds an
    arm when locked. *)
Theorem IDS_approx_returns (T N_steps : nat) (b1 b2 : list Z) (s : self_state) :
  N_steps <> 0 -> length b1 = nb_arms -> length b2 = nb_arms ->
  Forall (fun a => (1 <= a)%Z) b1 -> Forall (fun b => (1 <= b)%Z) b2 ->
  (flag s = true -> holds_arm nb_arms (optimal_arm s)) ->
  exists (s' : self_state) (l : approx_locals num),
    IDS_approx nb_arms np_log sample IDSAction T N_steps b1 b2 s = Some (s', l) /\
    length (arm_sequence (history l)) = T /\
    pulls_ok nb_arms T (arm_sequence (history l)) /\
    (flag s' = true -> holds_arm nb_arms (optimal_arm s')).
Proof.
  intros HN Hl1 Hl2 Hp1 Hp2 Hlock.
  destruct (init_approx_total nb_arms N_steps b1 b2 Harms HN Hl1 Hl2 Hp1 Hp2)
    as (g & Hinit & _ & HlB & Hlf & HlF & HlG & _).
  unfold IDS_approx, IDS_approx_upto, start_approx. rewrite Hinit. simpl.
  destruct (run_approx_total N_steps T T
              (s, ApproxLocals b1 b2 g (np_zeros nb_arms) (init_lists nb_arms T) 0))
    as ([s' l] & Hrun & Hok & Hpulls); [|lia|].
  { unfold grid_run_ok, init_lists, np_zeros. simpl.
    rewrite !length_replicate. auto 12. }
  exists s', l. split; [done|].
  destruct Hok as (Hlock' & _ & _ & _ & _ & _ & _ & _ & Hseq & _). auto.
Qed.
End GridRunReturns.

Lemma IDS_approx_returns_witness :
  exists (s' : self_state) (l : approx_locals Qc),
    IDS_approx 2 tangent_log always_reward (pick_arm 0) 3 4 [1; 1]%Z [1; 1]%Z init_self
    = Some (s', l) /\
    length (arm_sequence (history l)) = 3 /\
    pulls_ok 2 3 (arm_sequence (history l)) /\
    (flag s' = true -> holds_arm 2 (optimal_arm s')).
Proof.
  apply (IDS_approx_returns 2 tangent_log always_reward (pick_arm 0)); try done.
  - intros t delta g. unfold pick_arm. lia.
  - repeat (constructor; [lia|]). constructor.
  - repeat (constructor; [lia|]). constructor.
Defined.

Section SamplingRunReturns.
Context {num : Type} `{NumOps num}.
Local Open Scope num_scope.
Local Abbreviation vec := (list num).
Local Abbreviation heap := (list (ndarray num)).

Variable nb_arms : nat.
Variable np_log : num -> num.
Variable sample : nat -> nat -> bool.
Variable IDSAction : nat -> vec -> vec -> nat.
Variable rd_argmax : nat -> vec -> nat.
Variable np_random_beta : nat -> nat -> num -> num -> nat -> vec.
Variable M : nat.

Hypothesis Harms : nb_arms <> 0.
Hypothesis HM : M <> 0.
Hypothesis HAction : forall (t : nat) (delta g : vec), IDSAction t delta g < nb_arms.
Hypothesis Hargmax : forall (t : nat) (values : vec), rd_argmax t values < nb_arms.
(** The threshold is above zero. *)
Hypothesis Hthreshold : fgeb (num := num) fzero threshold = false.

(** [computeIDS] returns an arm of the bandit; it leaves the arrays in
    shape, and an arm in the object when [p_a] has reached the threshold. *)
Lemma computeIDS_total (t : nat) (s : self_state) (h : heap) (Maap p_a : loc)
    (thetas : list vec) (VIDS : bool) :
  length thetas = nb_arms -> shapes_ok nb_arms Maap p_a h ->
  exists (arm : nat) (h' : heap) (s' : self_state) (e : estimate num),
    computeIDS nb_arms np_log IDSAction rd_argmax t s h Maap p_a thetas M VIDS
      = Some (arm, p_a, h', s', e) /\
    arm < nb_arms /\ shapes_ok nb_arms Maap p_a h' /\ flag s' = flag s /\
    (forall (pa : vec) (m : num),
       heap_get1 h' p_a = Some pa -> np_max pa = Some m ->
       fgeb m threshold = true -> holds_arm nb_arms (optimal_arm s')).
Proof.
  intros Hth Hok. unfold computeIDS.
  destruct (argmax_axis0_is_Some thetas) as [theta_hat Hhat].
  { intros ->. simpl in Hth. lia. }
  rewrite Hhat; simpl.
  destruct (computeIDS_outer_loop_total nb_arms Maap p_a thetas theta_hat M HM Hth
              nb_arms (map np_mean thetas) h Hok (le_n _))
    as (mu & h' & Hloop & Hok' & Hmu).
  { by rewrite length_map. }
  rewrite Hloop; simpl.
  pose proof Hok' as (Mp & pa & HMp & _ & _ & Hpa & Hlpa).
  unfold heap_get1, heap_get2. rewrite Hpa, HMp; simpl.
  destruct (np_max_is_Some pa) as [m Hm].
  { intros ->. simpl in Hlpa. lia. }
  rewrite Hm; simpl.
  destruct (fgeb m threshold) eqn:Hthr.
  - destruct (np_argmax_is_Some pa) as [arm Harm].
    { intros ->. simpl in Hlpa. lia. }
    rewrite Harm; simpl.
    pose proof (np_argmax_bound _ _ Harm) as Hlt.
    eexists arm, h', _, _. split; [reflexivity|]. simpl.
    split; [lia|]. split; [done|]. split; [done|].
    intros _ _ _ _ _. exists arm. split; [done|lia].
  - assert (Hpost : forall (pa' : vec) (m' : num),
              match h' !! p_a with Some (Arr1 v) => Some v | _ => None end = Some pa' ->
              np_max pa' = Some m' -> fgeb m' threshold = true ->
              holds_arm nb_arms (optimal_arm s)).
    { intros pa' m' Hpa' Hm' Hthr'. rewrite Hpa in Hpa'. injection Hpa' as <-.
      rewrite Hm in Hm'. injection Hm' as <-. congruence. }
    destruct VIDS.
    + case_guard as Hlen; simpl.
      * eexists _, h', s, _. split; [reflexivity|]. auto.
      * exfalso. apply Hlen. by rewrite !length_map, length_seq.
    + eexists _, h', s, _. split; [reflexivity|]. auto.
Qed.

Lemma select_sample_total (T : nat) (VIDS : bool) (t : nat)
    (st : self_state * sample_locals num) :
  sample_run_ok nb_arms T st ->
  exists (s1 : self_state) (k : nat) (h1 : heap) (c : nat),
    select_sample nb_arms np_log IDSAction rd_argmax M VIDS t st.1 st.2
      = Some (s1, Some k, p_a st.2, h1, c) /\
    k < nb_arms /\
    (flag s1 = true -> holds_arm nb_arms (optimal_arm s1)) /\
    shapes_ok nb_arms (Maap st.2) (p_a st.2) h1 /\
    (forall (pa : vec) (m : num),
       heap_get1 h1 (p_a st.2) = Some pa -> np_max pa = Some m ->
       fgeb m threshold = true -> holds_arm nb_arms (optimal_arm s1)).
Proof.
  destruct st as [s l]. simpl.
  intros (Hlock & Hok & Hreached & Hth & _). simpl in *.
  unfold select_sample. destruct (flag s) eqn:Hflag; simpl.
  - destruct (Hlock eq_refl) as (a & Ha & Hlt).
    exists s, a, (store l), (ids_calls l). rewrite Ha, Hflag.
    split; [done|]. split; [done|]. split; [by intros _; exists a|].
    split; [done|]. intros pa m _ _ _. by exists a.
  - pose proof Hok as (Mp & pa & _ & _ & _ & Hpa & Hlpa).
    assert (Hget : heap_get1 (store l) (p_a l) = Some pa)
      by (unfold heap_get1; by rewrite Hpa).
    rewrite Hget. simpl.
    destruct (np_max_is_Some pa) as [m Hm].
    { intros ->. simpl in Hlpa. lia. }
    rewrite Hm. simpl. destruct (fgeb m threshold) eqn:Hthr.
    + destruct (Hreached pa m Hget Hm Hthr) as (a & Ha & Hlt).
      exists (Self true (optimal_arm s)), a, (store l), (ids_calls l).
      rewrite Ha. simpl.
      split; [done|]. split; [done|]. split; [by intros _; exists a|].
      split; [done|]. intros _ _ _ _ _. by exists a.
    + destruct (computeIDS_total t s (store l) (Maap l) (p_a l) (thetas l) VIDS Hth Hok)
        as (arm & h' & s' & e & Hc & Harm & Hok' & Hfl & Hpost).
      rewrite Hc. simpl.
      exists s', arm, h', (S (ids_calls l)).
      split; [done|]. split; [done|]. split; [|done].
      rewrite Hfl, Hflag. done.
Qed.

Lemma round_sample_total (T : nat) (VIDS : bool) (t : nat)
    (st : self_state * sample_locals num) :
  sample_run_ok nb_arms T st -> t < T ->
  exists st' : self_state * sample_locals num,
    round_sample nb_arms np_log sample IDSAction rd_argmax np_random_beta M VIDS t st
      = Some st' /\
    sample_run_ok nb_arms T st' /\
    (exists k, arm_sequence (shistory st'.2) !! t = Some k /\ k < nb_arms) /\
    (forall t', t' <> t ->
       arm_sequence (shistory st'.2) !! t' = arm_sequence (shistory st.2) !! t').
Proof.
  intros Hok Ht.
  destruct (select_sample_total T VIDS t st Hok)
    as (s1 & k & h1 & c & Hsel & Hk & Hlock1 & Hshape1 & Hreached1).
  destruct st as [s l].
  destruct Hok as (_ & _ & _ & Hth & Hb1 & Hb2 & Hseq & Hrew). simpl in *.
  unfold round_sample. rewrite Hsel. simpl.
  destruct (update_lists_total nb_arms sample t k (shistory l)) as [h' Hu]; [lia..|].
  rewrite Hu. simpl. rewrite (update_lists_reward _ _ _ _ _ _ Hu). simpl.
  destruct (lookup_lt_is_Some_2 (sbeta1 l) k ltac:(lia)) as [b1 ->].
  destruct (lookup_lt_is_Some_2 (sbeta2 l) k ltac:(lia)) as [b2 ->].
  destruct (lookup_lt_is_Some_2 (thetas l) k ltac:(lia)) as [r ->].
  simpl. eexists. split; [reflexivity|].
  destruct (update_lists_lengths _ _ _ _ _ _ Hu) as (_ & _ & E5 & E6).
  destruct (update_lists_inv _ _ _ _ _ _ Hu) as (_ & _ & _ & Hseq' & _).
  split; [|split].
  - unfold sample_run_ok. simpl. rewrite !length_insert, E5, E6. auto 12.
  - exists k. simpl. split; [by eapply update_lists_pulled|done].
  - intros t' Hne. simpl. rewrite Hseq'. by apply list_lookup_insert_ne.
Qed.

Lemma run_sample_total (T : nat) (VIDS : bool) (n : nat)
    (st0 : self_state * sample_locals num) :
  sample_run_ok nb_arms T st0 -> n <= T ->
  exists st : self_state * sample_locals num,
    run_rounds (round_sample nb_arms np_log sample IDSAction rd_argmax np_random_beta
                             M VIDS) n st0 = Some st /\
    sample_run_ok nb_arms T st /\
    pulls_ok nb_arms n (arm_sequence (shistory st.2)).
Proof.
  intros H0. induction n as [|n IH]; intros Hn.
  - exists st0. split; [done|]. split; [done|]. intros t Ht. lia.
  - destruct (IH ltac:(lia)) as (stn & Hrun & Hok & Hpulls).
    destruct (round_sample_total T VIDS n stn Hok ltac:(lia))
      as (st' & Hr & Hok' & Hnew & Hold).
    exists st'. simpl. rewrite Hrun. simpl. split; [done|]. split; [done|].
    intros t Ht. destruct (decide (t = n)) as [->|Hne]; [done|].
    rewrite Hold by done. apply Hpulls. lia.
Qed.

Lemma start_sample_ok (T : nat) (s : self_state) :
  (flag s = true -> holds_arm nb_arms (optimal_arm s)) ->
  sample_run_ok nb_arms T (start_sample nb_arms np_random_beta T M s).
Proof.
  intros Hlock. unfold sample_run_ok, start_sample, heap_alloc. simpl.
  split; [done|]. split.
  { exists (replicate nb_arms (np_zeros nb_arms)), (np_zeros nb_arms).
    unfold np_zeros. rewrite !length_replicate. repeat split; try done.
    apply Forall_replicate. by rewrite length_replicate. }
  split.
  { intros pa m [= <-] Hm Hthr. apply np_max_zeros in Hm as ->. congruence. }
  unfold np_ones, np_zeros.
  by rewrite length_map, length_seq, !length_replicate.
Qed.

(** X30: [IDS_sample] and [VIDS_sample] return.  On a bandit with at least
    one arm and with [M >= 1] draws, for numbers on which 0 lies below the
    threshold, if [IDSAction] and [rd_argmax] answer with arms of the bandit
    and the object, when locked, holds one, then the run of [T] rounds
    raises nothing in either mode; it leaves [T] pulled arms, all arms of
    the bandit, and again an object that holds an arm when locked.
    [IDS_sample] is [VIDS_sample] with [VIDS = False]. *)
Theorem sampling_runs_return (T : nat) (VIDS : bool) (s : self_state) :
  (flag s = true -> holds_arm nb_arms (optimal_arm s)) ->
  IDS_sample nb_arms np_log sample IDSAction rd_argmax np_random_beta T M s
  = VIDS_sample nb_arms np_log sample IDSAction rd_argmax np_random_beta T M false s /\
  exists (s' : self_state) (l : sample_locals num),
    VIDS_sample nb_arms np_log sample IDSAction rd_argmax np_random_beta T M VIDS s
      = Some (s', l) /\
    length (arm_sequence (shistory l)) = T /\
    pulls_ok nb_arms T (arm_sequence (shistory l)) /\
    (flag s' = true -> holds_arm nb_arms (optimal_arm s')).
Proof.
  intros Hlock. split; [reflexivity|].
  unfold VIDS_sample, sample_upto.
  destruct (run_sample_total T VIDS T (start_sample nb_arms np_random_beta T M s)
              (start_sample_ok T s Hlock) (le_n _))
    as ([s' l] & Hrun & Hok & Hpulls).
  exists s', l. split; [done|].
  destruct Hok as (Hlock' & _ & _ & _ & _ & _ & Hseq & _). auto.
Qed.
End SamplingRunReturns.

Lemma sampling_runs_return_witness :
  IDS_sample 2 tangent_log always_reward (pick_arm 0) (pick_argmax 0) bank_99 3 100
             init_self
  = VIDS_sample 2 tangent_log always_reward (pick_arm 0) (pick_argmax 0) bank_99 3 100
                false init_self /\
  exists (s' : self_state) (l : sample_locals Qc),
    VIDS_sample 2 tangent_log always_reward (pick_arm 0) (pick_argmax 0) bank_99 3 100
                true init_self = Some (s', l) /\
    length (arm_sequence (shistory l)) = 3 /\
    pulls_ok 2 3 (arm_sequence (shistory l)) /\
    (flag s' = true -> holds_arm 2 (optimal_arm s')).
Proof.
  apply (sampling_runs_return 2 tangent_log always_reward (pick_arm 0) (pick_argmax 0)
           bank_99 100).
  - lia.
  - lia.
  - intros t delta g. unfold pick_arm. lia.
  - intros t values. unfold pick_argmax. lia.
  - reflexivity.
  - discriminate.
Defined.
